(** * aws-terraform-executor: the request dispatcher and job executor

    A shallow embedding of [lambda/app/app.go] (package [app]) and of the
    fragments of the Go standard library it calls ([strings], [fmt],
    [path/filepath], [net/url], [regexp], [bufio], [encoding/json]),
    followed by the properties the design document states about it.

    [app.go] holds the current implementation and, after it, an earlier
    revision of the same package.  The current implementation is embedded
    at top level; the earlier revision lives in [Module Earlier].

    [lambda/app/setup.go], which downloads and unpacks the terraform
    release, is embedded after them over its own trace of system calls
    ([Sys], [Module sys]). *)

From Stdlib Require Import String Ascii ZArith List Lia Bool DecimalString.
From Stdlib Require Import Floats.SpecFloat.
From stdpp Require Import base gmap strings list.

Open Scope string_scope.
Open Scope list_scope.

(* ================================================================== *)
(** * Go strings: byte sequences                                       *)
(* ================================================================== *)

(** A Go [string] is an immutable sequence of bytes; it is modelled by
    [string], one [ascii] per byte. *)

Definition byte_in (lo hi c : ascii) : bool :=
  (nat_of_ascii lo <=? nat_of_ascii c)%nat && (nat_of_ascii c <=? nat_of_ascii hi)%nat.

Definition is_lower (c : ascii) : bool := byte_in "a" "z" c.
Definition is_upper (c : ascii) : bool := byte_in "A" "Z" c.
Definition is_digit (c : ascii) : bool := byte_in "0" "9" c.
Definition is_alpha (c : ascii) : bool := is_lower c || is_upper c.

(** [c ∈ chars], for the [switch c { case 'x', 'y': ... }] tables. *)
Fixpoint one_of (chars : string) (c : ascii) : bool :=
  match chars with
  | "" => false
  | String d rest => Ascii.eqb c d || one_of rest c
  end.

Module strings.

(** [s[n:]] and [s[:n]] for [0 <= n <= len(s)]. *)
Fixpoint drop (n : nat) (s : string) : string :=
    match n, s with
    | O, _ => s
    | S n', String _ s' => drop n' s'
    | S _, "" => ""
    end.

Fixpoint take (n : nat) (s : string) : string :=
    match n, s with
    | O, _ => ""
    | S n', String c s' => String c (take n' s')
    | S _, "" => ""
    end.

Fixpoint HasPrefix (s prefix : string) {struct prefix} : bool :=
    match prefix, s with
    | "", _ => true
    | String p prefix', String c s' => Ascii.eqb c p && HasPrefix s' prefix'
    | String _ _, "" => false
    end.

Definition HasSuffix (s suffix : string) : bool :=
    (String.length suffix <=? String.length s)%nat
    && String.eqb (drop (String.length s - String.length suffix) s) suffix.

(** Position of the first occurrence of [substr] at or after offset [i]. *)
Fixpoint index_from (i : nat) (s substr : string) : option nat :=
    if HasPrefix s substr then Some i
    else match s with
         | "" => None
         | String _ s' => index_from (S i) s' substr
         end.

(** [strings.Index]: the first occurrence, or [-1]. *)
Definition Index (s substr : string) : Z :=
    match index_from 0 s substr with
    | Some i => Z.of_nat i
    | None => (-1)%Z
    end.

Definition Contains (s substr : string) : bool := (0 <=? Index s substr)%Z.

Fixpoint index_byte_from (i : nat) (s : string) (c : ascii) : option nat :=
    match s with
    | "" => None
    | String d s' => if Ascii.eqb d c then Some i else index_byte_from (S i) s' c
    end.

Definition IndexByte (s : string) (c : ascii) : Z :=
    match index_byte_from 0 s c with
    | Some i => Z.of_nat i
    | None => (-1)%Z
    end.

Fixpoint last_index_byte_from (i : nat) (s : string) (c : ascii) : option nat :=
    match s with
    | "" => None
    | String d s' =>
        match last_index_byte_from (S i) s' c with
        | Some j => Some j
        | None => if Ascii.eqb d c then Some i else None
        end
    end.

(** [strings.LastIndex] with a one-byte needle. *)
Definition LastIndexByte (s : string) (c : ascii) : Z :=
    match last_index_byte_from 0 s c with
    | Some i => Z.of_nat i
    | None => (-1)%Z
    end.

Fixpoint CountByte (s : string) (c : ascii) : nat :=
    match s with
    | "" => 0
    | String d s' => (if Ascii.eqb d c then 1 else 0) + CountByte s' c
    end.

(** [strings.Split(s, sep)] for a one-byte separator: the pieces between
    the separators, [[s]] when there is none. *)
Fixpoint Split (s : string) (sep : ascii) : list string :=
    match s with
    | "" => [""]
    | String c s' =>
        if Ascii.eqb c sep then "" :: Split s' sep
        else match Split s' sep with
             | piece :: pieces => String c piece :: pieces
             | [] => [String c ""]
             end
    end.

(** [strings.Join(elems, sep)]. *)
Fixpoint Join (elems : list string) (sep : string) : string :=
    match elems with
    | [] => ""
    | [e] => e
    | e :: rest => e +:+ sep +:+ Join rest sep
    end.

Definition to_lower_byte (c : ascii) : ascii :=
    if is_upper c then ascii_of_nat (nat_of_ascii c + 32) else c.

(** [strings.ToLower] on the ASCII letters. *)
Fixpoint ToLower (s : string) : string :=
    match s with
    | "" => ""
    | String c s' => String (to_lower_byte c) (ToLower s')
    end.

End strings.

(** [s[:n]] and [s[n:]] with the index an [int], as the code writes them. *)
Definition slice_to (s : string) (n : Z) : string := strings.take (Z.to_nat n) s.
Definition slice_from (s : string) (n : Z) : string := strings.drop (Z.to_nat n) s.

Definition nonempty (s : string) : bool := negb (String.eqb s "").

(** The newline byte. *)
Definition LF : ascii := ascii_of_nat 10.
Definition CR : ascii := ascii_of_nat 13.
Definition TAB : ascii := ascii_of_nat 9.
Definition nl : string := String LF "".

(** The double-quote byte, and the one-byte string holding it. *)
Definition DQ : ascii := ascii_of_nat 34.
Definition dq : string := String DQ "".

(* ================================================================== *)
(** * [fmt]: the verbs the code uses                                   *)
(* ================================================================== *)

(** A Go [float64]: an IEEE 754 binary64 value. *)
Definition float64 : Type := spec_float.
Definition f64_prec : Z := 53.
Definition f64_emax : Z := 1024.

Module fmt.

(** [%t] *)
Definition verb_t (b : bool) : string := if b then "true" else "false".

(** [%d] on an [int64]: base 10, a leading [-] when negative. *)
Definition verb_d (z : Z) : string := NilZero.string_of_int (Z.to_int z).

(** Round [num / den] to the nearest integer, ties to even. *)
Definition div_round_even (num den : Z) : Z :=
    let q := (num / den)%Z in
    let r := (num mod den)%Z in
    match (2 * r ?= den)%Z with
    | Lt => q
    | Gt => (q + 1)%Z
    | Eq => if Z.even q then q else (q + 1)%Z
    end.

Fixpoint zero_pad (width : nat) (s : string) : string :=
    match width with
    | O => s
    | S w => if (String.length s <? S w)%nat then "0" +:+ zero_pad w s else s
    end.

(** The magnitude [m * 2^e] printed with exactly six decimals, the exact
    value rounded half-to-even at the sixth (strconv's ['f'], precision 6). *)
Definition fixed6 (m : positive) (e : Z) : string :=
    let scaled :=
      if (0 <=? e)%Z then (Z.pos m * 2 ^ e * 1000000)%Z
      else div_round_even (Z.pos m * 1000000) (2 ^ (- e)) in
    verb_d (scaled / 1000000) +:+ "." +:+ zero_pad 6 (verb_d (scaled mod 1000000)).

(** [%f] on a [float64]: default precision 6. *)
Definition verb_f (x : float64) : string :=
    match x with
    | S754_nan => "NaN"
    | S754_infinity s => if s then "-Inf" else "+Inf"
    | S754_zero s => (if s then "-" else "") +:+ "0.000000"
    | S754_finite s m e => (if s then "-" else "") +:+ fixed6 m e
    end.

End fmt.

(* ================================================================== *)
(** * Dynamically typed values and [encoding/json] decoding            *)
(* ================================================================== *)

(** The dynamic values an [interface{}] holds in this program. *)
#[warnings="-register-all"]
Inductive GoValue : Type :=
| VNil
| VBool (b : bool)
| VString (s : string)
| VInt64 (n : Z)
| VFloat64 (x : float64)
| VSlice (elems : list GoValue)
| VMap (m : gmap string GoValue).

(** A JSON document.  A number literal is kept as written: sign, decimal
    digits taken as one integer, and the power of ten that places the
    decimal point ([3] is [JNumber false 3 0], [-1.5e2] is
    [JNumber true 15 1]). *)
#[warnings="-register-all"]
Inductive json : Type :=
| JNull
| JBool (b : bool)
| JNumber (neg : bool) (digits : N) (exp10 : Z)
| JString (s : string)
| JArray (elems : list json)
| JObject (members : list (string * json)).

Module strconv.

(** Number of binary digits of a positive integer. *)
Definition bits (p : Z) : Z := Z.log2 p + 1.

(** [p / q] for [0 < p], [0 < q], correctly rounded to binary64
    (nearest, ties to even): the quotient is first taken to at least 64
    bits with a sticky last bit, then rounded once. *)
Definition ratio_to_float (neg : bool) (p q : Z) : float64 :=
    let k := Z.max 0 (64 + bits q - bits p) in
    let num := (p * 2 ^ k)%Z in
    let n := (num / q)%Z in
    let sticky := if (num mod q =? 0)%Z then 0%Z else 1%Z in
    let m := (2 * n + sticky)%Z in
    binary_normalize f64_prec f64_emax (if neg then - m else m) (- k - 1) false.

(** [strconv.ParseFloat(lit, 64)] on a decimal literal; [None] is the
    range error of a literal too large for a float64. *)
Definition ParseFloat (neg : bool) (digits : N) (exp10 : Z) : option float64 :=
    let x :=
      match digits with
      | N0 => S754_zero neg
      | Npos d =>
          if (0 <=? exp10)%Z
          then binary_normalize f64_prec f64_emax
                 (if neg then - (Z.pos d * 10 ^ exp10) else Z.pos d * 10 ^ exp10) 0 false
          else ratio_to_float neg (Z.pos d) (10 ^ (- exp10))
      end in
    match x with
    | S754_infinity _ => None
    | _ => Some x
    end.

End strconv.

Module encoding_json.

(** [json.Unmarshal] into an [interface{}]: [bool] for booleans,
    [float64] for every number, [string] for strings, [[]interface{}]
    for arrays, [map[string]interface{}] for objects (a repeated key
    keeps its last value), [nil] for null. *)
Fixpoint decode (j : json) : option GoValue :=
    match j with
    | JNull => Some VNil
    | JBool b => Some (VBool b)
    | JNumber neg digits exp10 => VFloat64 <$> strconv.ParseFloat neg digits exp10
    | JString s => Some (VString s)
    | JArray elems =>
        VSlice <$>
          (fix go (l : list json) : option (list GoValue) :=
             match l with
             | [] => Some []
             | x :: l' =>
                 match decode x, go l' with
                 | Some v, Some vs => Some (v :: vs)
                 | _, _ => None
                 end
             end) elems
    | JObject members =>
        VMap <$>
          (fix go (acc : gmap string GoValue) (l : list (string * json))
             : option (gmap string GoValue) :=
             match l with
             | [] => Some acc
             | (k, x) :: l' =>
                 match decode x with
                 | Some v => go (<[k := v]> acc) l'
                 | None => None
                 end
             end) ∅ members
    end.

(** Decoding the [variables] member of a request: a JSON object into a
    [map[string]interface{}]; JSON null leaves the map nil (empty). *)
Definition decode_variables (j : json) : option (gmap string GoValue) :=
    match j with
    | JNull => Some ∅
    | JObject _ =>
        match decode j with
        | Some (VMap m) => Some m
        | _ => None
        end
    | _ => None
    end.

End encoding_json.

(** The library functions of which only the result matters here:
    [json.Marshal] of a nested map, and [%v] of one. *)
Record GoLib : Type := {
  json_Marshal : gmap string GoValue -> option string;
  fmt_verb_v : gmap string GoValue -> string;
}.

(* ================================================================== *)
(** * The request and the environment assembled from it                *)
(* ================================================================== *)

Record Request : Type := {
  ID : string;
  Name : string;
  Version : string;
  LogLevel : string;
Variables : gmap string GoValue;
}.

(** Temporary credentials returned by STS ([*sts.Credentials]). *)
Record StsCredentials : Type := {
  AccessKeyId : string;
  SecretAccessKey : string;
  SessionToken : string;
}.

(** [credentials.Value] of the process's own session. *)
Record CredentialsValue : Type := {
  cv_AccessKeyID : string;
  cv_SecretAccessKey : string;
  cv_SessionToken : string;
}.

Definition getCredEnv (cred : StsCredentials) : list string :=
  [ "AWS_ACCESS_KEY_ID=" +:+ AccessKeyId cred;
    "AWS_SECRET_ACCESS_KEY=" +:+ SecretAccessKey cred;
    "AWS_SESSION_TOKEN=" +:+ SessionToken cred ].

(** One iteration of the loop of [getEnv]: the type switch. *)
Definition getEnv_entry (lib : GoLib) (k : string) (val : GoValue) : list string :=
  match val with
  | VBool v => [k +:+ "=" +:+ fmt.verb_t v]
  | VString v => [k +:+ "=" +:+ v]
  | VInt64 v => [k +:+ "=" +:+ fmt.verb_d v]
  | VFloat64 v => [k +:+ "=" +:+ fmt.verb_f v]
  | VMap v =>
      match json_Marshal lib v with
      | None => [k +:+ "=" +:+ fmt_verb_v lib v]
      | Some b => [k +:+ "=" +:+ b]
      end
  | VNil | VSlice _ => []
  end.

(** [for k, val := range m] visits the entries in an order the runtime
    chooses; [getEnv_range] is the loop over one such order. *)
Definition getEnv_range (lib : GoLib) (entries : list (string * GoValue)) : list string :=
  flat_map (fun kv => getEnv_entry lib kv.1 kv.2) entries.

Definition getEnv (lib : GoLib) (m : gmap string GoValue) : list string :=
  getEnv_range lib (map_to_list m).

(* ================================================================== *)
(** * [path/filepath] on a Unix host                                   *)
(* ================================================================== *)

Module filepath.

(** One step of the element stack of [Clean]: [.] and empty elements
    vanish, [..] removes the element before it, or is dropped at the
    root, or is kept at the front of a relative path. *)
Definition clean_step (rooted : bool) (stack : list string) (elem : string)
    : list string :=
    if String.eqb elem "" || String.eqb elem "." then stack
    else if String.eqb elem ".." then
      match stack with
      | top :: below => if String.eqb top ".." then elem :: stack else below
      | [] => if rooted then [] else [elem]
      end
    else elem :: stack.

(** [filepath.Clean]: the shortest equivalent path; [.] for the empty one. *)
Definition Clean (path : string) : string :=
    let rooted := strings.HasPrefix path "/" in
    let stack := fold_left (clean_step rooted) (strings.Split path "/") [] in
    let body := strings.Join (rev stack) "/" in
    let out := (if rooted then "/" else "") +:+ body in
    if String.eqb out "" then "." else out.

(** [filepath.Join]: the elements from the first non-empty one on, joined
    by the separator and cleaned; the empty string if there is none. *)
Fixpoint Join (elem : list string) : string :=
    match elem with
    | [] => ""
    | e :: rest => if nonempty e then Clean (strings.Join elem "/") else Join rest
    end.

(** [filepath.Dir]: all but the last element, cleaned. *)
Definition Dir (path : string) : string :=
    let i := strings.LastIndexByte path "/" in
    Clean (slice_to path (i + 1)).

End filepath.

(* ================================================================== *)
(** * [net/url] (go 1.16, the release named in go.mod)                 *)
(* ================================================================== *)

Module url.

Inductive encoding : Type :=
  | encodePath
  | encodePathSegment
  | encodeHost
  | encodeZone
  | encodeUserPassword
  | encodeQueryComponent
  | encodeFragment.

Definition is_host_mode (mode : encoding) : bool :=
    match mode with encodeHost | encodeZone => true | _ => false end.

(** [shouldEscape] *)
Definition shouldEscape (c : ascii) (mode : encoding) : bool :=
    if is_alpha c || is_digit c then false
    else if is_host_mode mode && (one_of "!$&'()*+,;=:[]<>" c || Ascii.eqb c DQ) then false
    else if one_of "-_.~" c then false
    else if one_of "$&+,/:;=?@" c then
      match mode with
      | encodePath => Ascii.eqb c "?"
      | encodePathSegment => one_of "/;,?" c
      | encodeUserPassword => one_of "@/?:" c
      | encodeQueryComponent => true
      | encodeFragment => false
      | encodeHost | encodeZone => true
      end
    else if (match mode with encodeFragment => true | _ => false end)
            && one_of "!()*" c then false
    else true.

Definition ishex (c : ascii) : bool :=
    is_digit c || byte_in "a" "f" c || byte_in "A" "F" c.

Definition unhex (c : ascii) : nat :=
    if is_digit c then nat_of_ascii c - 48
    else if byte_in "a" "f" c then nat_of_ascii c - 97 + 10
    else if byte_in "A" "F" c then nat_of_ascii c - 65 + 10
    else 0.

Definition upperhex (n : nat) : ascii :=
    if (n <? 10)%nat then ascii_of_nat (48 + n) else ascii_of_nat (65 + n - 10).

(** The byte a [%XY] triple stands for. *)
Definition unhex2 (x y : ascii) : ascii := ascii_of_nat (unhex x * 16 + unhex y).

(** [unescape]: [None] is an [EscapeError] or [InvalidHostError]. *)
Fixpoint unescape (s : string) (mode : encoding) : option string :=
    match s with
    | "" => Some ""
    | String "%" rest =>
        match rest with
        | String x (String y rest') =>
            if negb (ishex x && ishex y) then None
            else if (match mode with encodeHost => true | _ => false end)
                    && (unhex x <? 8)%nat
                    && negb (Ascii.eqb x "2" && Ascii.eqb y "5") then None
            else if (match mode with encodeZone => true | _ => false end)
                    && negb (Ascii.eqb x "2" && Ascii.eqb y "5")
                    && negb (Ascii.eqb (unhex2 x y) " ")
                    && shouldEscape (unhex2 x y) encodeHost then None
            else String (unhex2 x y) <$> unescape rest' mode
        | _ => None
        end
    | String "+" rest =>
        String (match mode with encodeQueryComponent => " "%char | _ => "+"%char end)
          <$> unescape rest mode
    | String c rest =>
        if is_host_mode mode && (nat_of_ascii c <? 128)%nat && shouldEscape c encodeHost
        then None
        else String c <$> unescape rest mode
    end.

(** [escape] *)
Fixpoint escape (s : string) (mode : encoding) : string :=
    match s with
    | "" => ""
    | String c rest =>
        if shouldEscape c mode then
          if Ascii.eqb c " " && (match mode with encodeQueryComponent => true | _ => false end)
          then String "+" (escape rest mode)
          else String "%" (String (upperhex (nat_of_ascii c / 16))
                 (String (upperhex (nat_of_ascii c mod 16)) (escape rest mode)))
        else String c (escape rest mode)
    end.

(** [validEncoded] *)
Fixpoint validEncoded (s : string) (mode : encoding) : bool :=
    match s with
    | "" => true
    | String c rest =>
        (one_of "!$&'()*+,;=:@[]%" c || negb (shouldEscape c mode))
        && validEncoded rest mode
    end.

(** [Userinfo] pointer, when not nil. *)
Record Userinfo : Type := {
    username : string;
    password : string;
    passwordSet : bool;
  }.

Record URL : Type := {
    Scheme : string;
    Opaque : string;
    User : option Userinfo;
    Host : string;
    Path : string;
    RawPath : string;
    ForceQuery : bool;
    RawQuery : string;
    Fragment : string;
    RawFragment : string;
  }.

Definition empty_URL : URL :=
    {| Scheme := ""; Opaque := ""; User := None; Host := ""; Path := "";
       RawPath := ""; ForceQuery := false; RawQuery := ""; Fragment := "";
       RawFragment := "" |}.

(** [split(s, sep, cutc)] *)
Definition split (s : string) (sep : ascii) (cutc : bool) : string * string :=
    let i := strings.IndexByte s sep in
    if (i <? 0)%Z then (s, "")
    else if cutc then (slice_to s i, slice_from s (i + 1))
    else (slice_to s i, slice_from s i).

(** [getscheme]: the scheme and what follows it; [None] is the error
    [missing protocol scheme]. *)
Fixpoint getscheme_from (i : nat) (rawurl rest : string) : option (string * string) :=
    match rest with
    | "" => Some ("", rawurl)
    | String c rest' =>
        if is_alpha c then getscheme_from (S i) rawurl rest'
        else if is_digit c || one_of "+-." c then
          match i with
          | O => Some ("", rawurl)
          | S _ => getscheme_from (S i) rawurl rest'
          end
        else if Ascii.eqb c ":" then
          match i with
          | O => None
          | S _ => Some (strings.take i rawurl, rest')
          end
        else Some ("", rawurl)
    end.

Definition getscheme (rawurl : string) : option (string * string) :=
    getscheme_from 0 rawurl rawurl.

Fixpoint stringContainsCTLByte (s : string) : bool :=
    match s with
    | "" => false
    | String c rest =>
        (nat_of_ascii c <? 32)%nat || (nat_of_ascii c =? 127)%nat
        || stringContainsCTLByte rest
    end.

(** [validOptionalPort] *)
Fixpoint all_digits (s : string) : bool :=
    match s with
    | "" => true
    | String c rest => is_digit c && all_digits rest
    end.

Definition validOptionalPort (port : string) : bool :=
    match port with
    | "" => true
    | String c rest => Ascii.eqb c ":" && all_digits rest
    end.

(** [validUserinfo] *)
Fixpoint validUserinfo (s : string) : bool :=
    match s with
    | "" => true
    | String c rest =>
        (is_alpha c || is_digit c || one_of "-._:~!$&'()*+,;=%@" c)
        && validUserinfo rest
    end.

(** [parseHost] *)
Definition parseHost (host : string) : option string :=
    if strings.HasPrefix host "[" then
      let i := strings.LastIndexByte host "]" in
      if (i <? 0)%Z then None
      else if negb (validOptionalPort (slice_from host (i + 1))) then None
      else
        let zone := strings.Index (slice_to host i) "%25" in
        if (0 <=? zone)%Z then
          match unescape (slice_to host zone) encodeHost,
                unescape (slice_from (slice_to host i) zone) encodeZone,
                unescape (slice_from host i) encodeHost with
          | Some host1, Some host2, Some host3 => Some (host1 +:+ host2 +:+ host3)
          | _, _, _ => None
          end
        else unescape host encodeHost
    else
      let i := strings.LastIndexByte host ":" in
      if negb (i =? -1)%Z && negb (validOptionalPort (slice_from host i)) then None
      else unescape host encodeHost.

(** [parseAuthority] *)
Definition parseAuthority (authority : string) : option (option Userinfo * string) :=
    let i := strings.LastIndexByte authority "@" in
    match parseHost (if (i <? 0)%Z then authority else slice_from authority (i + 1)) with
    | None => None
    | Some host =>
        if (i <? 0)%Z then Some (None, host)
        else
          let userinfo := slice_to authority i in
          if negb (validUserinfo userinfo) then None
          else if negb (strings.Contains userinfo ":") then
            match unescape userinfo encodeUserPassword with
            | None => None
            | Some u =>
                Some (Some {| username := u; password := ""; passwordSet := false |}, host)
            end
          else
            let '(uname, pword) := split userinfo ":" true in
            match unescape uname encodeUserPassword,
                  unescape pword encodeUserPassword with
            | Some u, Some p =>
                Some (Some {| username := u; password := p; passwordSet := true |}, host)
            | _, _ => None
            end
    end.

(** [URL.setPath] *)
Definition setPath (u : URL) (p : string) : option URL :=
    match unescape p encodePath with
    | None => None
    | Some path =>
        Some {| Scheme := Scheme u; Opaque := Opaque u; User := User u; Host := Host u;
                Path := path;
                RawPath := if String.eqb p (escape path encodePath) then "" else p;
                ForceQuery := ForceQuery u; RawQuery := RawQuery u;
                Fragment := Fragment u; RawFragment := RawFragment u |}
    end.

(** [URL.setFragment] *)
Definition setFragment (u : URL) (f : string) : option URL :=
    match unescape f encodeFragment with
    | None => None
    | Some frag =>
        Some {| Scheme := Scheme u; Opaque := Opaque u; User := User u; Host := Host u;
                Path := Path u; RawPath := RawPath u;
                ForceQuery := ForceQuery u; RawQuery := RawQuery u;
                Fragment := frag;
                RawFragment := if String.eqb f (escape frag encodeFragment) then "" else f |}
    end.

(** [parse(rawurl, viaRequest = false)] *)
Definition parse (rawurl : string) : option URL :=
    if stringContainsCTLByte rawurl then None
    else if String.eqb rawurl "*" then
      Some {| Scheme := ""; Opaque := ""; User := None; Host := ""; Path := "*";
              RawPath := ""; ForceQuery := false; RawQuery := ""; Fragment := "";
              RawFragment := "" |}
    else
      match getscheme rawurl with
      | None => None
      | Some (scheme0, rest0) =>
          let scheme := strings.ToLower scheme0 in
          let force := strings.HasSuffix rest0 "?" && (strings.CountByte rest0 "?" =? 1)%nat in
          let '(rest1, rawquery) :=
            if force then (strings.take (String.length rest0 - 1) rest0, "")
            else split rest0 "?" true in
          if negb (strings.HasPrefix rest1 "/") && nonempty scheme then
            (* rootless paths are opaque *)
            Some {| Scheme := scheme; Opaque := rest1; User := None; Host := "";
                    Path := ""; RawPath := ""; ForceQuery := force;
                    RawQuery := rawquery; Fragment := ""; RawFragment := "" |}
          else
            let colon := strings.IndexByte rest1 ":" in
            let slash := strings.IndexByte rest1 "/" in
            if negb (strings.HasPrefix rest1 "/")
               && (0 <=? colon)%Z && ((slash <? 0)%Z || (colon <? slash)%Z)
            then None (* first path segment in URL cannot contain colon *)
            else
              let with_authority :=
                if (nonempty scheme || negb (strings.HasPrefix rest1 "///"))
                   && strings.HasPrefix rest1 "//"
                then
                  let '(authority, rest2) := split (strings.drop 2 rest1) "/" false in
                  match parseAuthority authority with
                  | None => None
                  | Some (user, host) => Some (user, host, rest2)
                  end
                else Some (None, "", rest1) in
              match with_authority with
              | None => None
              | Some (user, host, rest2) =>
                  setPath {| Scheme := scheme; Opaque := ""; User := user; Host := host;
                             Path := ""; RawPath := ""; ForceQuery := force;
                             RawQuery := rawquery; Fragment := ""; RawFragment := "" |}
                          rest2
              end
      end.

(** [url.Parse]: [None] is the [*url.Error] it returns. *)
Definition Parse (rawurl : string) : option URL :=
    let '(u, frag) := split rawurl "#" true in
    match parse u with
    | None => None
    | Some url => if String.eqb frag "" then Some url else setFragment url frag
    end.

(** [URL.EscapedPath] *)
Definition EscapedPath (u : URL) : string :=
    if nonempty (RawPath u) && validEncoded (RawPath u) encodePath
       && (match unescape (RawPath u) encodePath with
           | Some p => String.eqb p (Path u)
           | None => false
           end)
    then RawPath u
    else if String.eqb (Path u) "*" then "*"
    else escape (Path u) encodePath.

(** [URL.EscapedFragment] *)
Definition EscapedFragment (u : URL) : string :=
    if nonempty (RawFragment u) && validEncoded (RawFragment u) encodeFragment
       && (match unescape (RawFragment u) encodeFragment with
           | Some f => String.eqb f (Fragment u)
           | None => false
           end)
    then RawFragment u
    else escape (Fragment u) encodeFragment.

(** [Userinfo.String] *)
Definition Userinfo_String (ui : Userinfo) : string :=
    escape (username ui) encodeUserPassword
    +:+ (if passwordSet ui then ":" +:+ escape (password ui) encodeUserPassword else "").

(** [u.User != nil] *)
Definition has_user (u : URL) : bool :=
    match User u with
    | Some _ => true
    | None => false
    end.

(** [URL.String] *)
Definition String_ (u : URL) : string :=
    let buf0 := if nonempty (Scheme u) then Scheme u +:+ ":" else "" in
    let buf1 :=
      if nonempty (Opaque u) then buf0 +:+ Opaque u
      else
        let authority :=
          if nonempty (Scheme u) || nonempty (Host u) || has_user u then
            (if nonempty (Host u) || nonempty (Path u) || has_user u
             then "//" else "")
            +:+ (match User u with
                 | Some ui => Userinfo_String ui +:+ "@"
                 | None => ""
                 end)
            +:+ (if nonempty (Host u) then escape (Host u) encodeHost else "")
          else "" in
        let path := EscapedPath u in
        let buf := buf0 +:+ authority in
        let buf :=
          if nonempty path && negb (strings.HasPrefix path "/") && nonempty (Host u)
          then buf +:+ "/" else buf in
        let buf :=
          if String.eqb buf "" then
            let i := strings.IndexByte path ":" in
            if (-1 <? i)%Z && (strings.IndexByte (slice_to path i) "/" =? -1)%Z
            then buf +:+ "./" else buf
          else buf in
        buf +:+ path in
    let buf2 :=
      if ForceQuery u || nonempty (RawQuery u) then buf1 +:+ "?" +:+ RawQuery u else buf1 in
    if nonempty (Fragment u) then buf2 +:+ "#" +:+ EscapedFragment u else buf2.

(** One [key=value] piece of [parseQuery], for the key asked for: the
    unescaped value when the piece is well formed and its key is [key]. *)
Definition query_piece (key piece : string) : list string :=
    if String.eqb piece "" then []
    else
      let i := strings.IndexByte piece "=" in
      let '(k, v) := if (0 <=? i)%Z then (slice_to piece i, slice_from piece (i + 1))
                     else (piece, "") in
      match unescape k encodeQueryComponent with
      | None => []
      | Some k' =>
          match unescape v encodeQueryComponent with
          | None => []
          | Some v' => if String.eqb k' key then [v'] else []
          end
      end.

(** The pieces of a raw query: it is cut at every [&] and [;]. *)
Fixpoint query_pieces (query : string) : list string :=
    match query with
    | "" => [""]
    | String c rest =>
        if one_of "&;" c then "" :: query_pieces rest
        else match query_pieces rest with
             | piece :: pieces => String c piece :: pieces
             | [] => [String c ""]
             end
    end.

(** [u.Query()[key]]: the values [ParseQuery] collects under [key], in
    order; malformed pieces are skipped. *)
Definition Query_get (u : URL) (key : string) : list string :=
    flat_map (query_piece key) (query_pieces (RawQuery u)).

End url.

(* ================================================================== *)
(** * [regexp]: a backtracking matcher with Go's leftmost-first rule   *)
(* ================================================================== *)

Module regexp.

Inductive regex : Type :=
  | Eps                              (* the empty pattern *)
  | Lit (c : ascii)                  (* a literal byte *)
  | AnyButNL                         (* [.] : any character but newline *)
  | Space                            (* [\s] : one of tab, newline, form feed, return, space *)
  | Star (r : regex)                 (* [r*], greedy *)
  | Plus (r : regex)                 (* [r+], greedy *)
  | Cat (r1 r2 : regex)
  | Group (i : nat) (r : regex).     (* the i-th capturing group *)

Fixpoint lits (s : string) : regex :=
    match s with
    | "" => Eps
    | String c rest => Cat (Lit c) (lits rest)
    end.

Definition is_space (c : ascii) : bool :=
    match nat_of_ascii c with
    | 9 | 10 | 12 | 13 | 32 => true
    | _ => false
    end.

(** Capture registers: group number, start and end offsets. *)
Definition caps : Type := list (nat * (nat * nat)).

Section Matcher.
Context {R : Type}.

    (** [rmatch r s p cs k]: match [r] at offset [p], where [s] is the input
        from [p] on, then continue with [k]; alternatives are tried in the
        order of preference (one more iteration before none). *)
Fixpoint rmatch (r : regex) (s : string) (p : nat) (cs : caps)
             (k : string -> nat -> caps -> option R) : option R :=
      match r with
      | Eps => k s p cs
      | Lit c =>
          match s with
          | String d s' => if Ascii.eqb c d then k s' (S p) cs else None
          | "" => None
          end
      | AnyButNL =>
          match s with
          | String d s' => if Ascii.eqb d LF then None else k s' (S p) cs
          | "" => None
          end
      | Space =>
          match s with
          | String d s' => if is_space d then k s' (S p) cs else None
          | "" => None
          end
      | Star r1 =>
          (fix star (fuel : nat) (s : string) (p : nat) (cs : caps) : option R :=
             match fuel with
             | O => k s p cs
             | S fuel' =>
                 match rmatch r1 s p cs
                         (fun s' p' cs' => if (p' =? p)%nat then None else star fuel' s' p' cs') with
                 | Some res => Some res
                 | None => k s p cs
                 end
             end) (String.length s) s p cs
      | Plus r1 =>
          rmatch r1 s p cs
            (fun s1 p1 cs1 =>
               (fix star (fuel : nat) (s : string) (p : nat) (cs : caps) : option R :=
                  match fuel with
                  | O => k s p cs
                  | S fuel' =>
                      match rmatch r1 s p cs
                              (fun s' p' cs' => if (p' =? p)%nat then None else star fuel' s' p' cs') with
                      | Some res => Some res
                      | None => k s p cs
                      end
                  end) (String.length s1) s1 p1 cs1)
      | Cat r1 r2 => rmatch r1 s p cs (fun s' p' cs' => rmatch r2 s' p' cs' k)
      | Group i r1 => rmatch r1 s p cs (fun s' p' cs' => k s' p' ((i, (p, p')) :: cs'))
      end.
End Matcher.

(** A match of the whole pattern beginning exactly at offset [p]: its end
    offset and capture registers. *)
Definition match_at (re : regex) (input : string) (p : nat) : option (nat * caps) :=
    rmatch re (strings.drop p input) p [] (fun _ p' cs => Some (p', cs)).

(** The leftmost match beginning at or after [p]. *)
Fixpoint find_from (re : regex) (input : string) (p : nat) (fuel : nat)
    : option (nat * nat * caps) :=
    match match_at re input p with
    | Some (e, cs) => Some (p, e, cs)
    | None =>
        match fuel with
        | O => None
        | S fuel' => find_from re input (S p) fuel'
        end
    end.

Definition cap_lookup (cs : caps) (i : nat) : option (nat * nat) :=
    snd <$> List.find (fun c => (fst c =? i)%nat) cs.

Definition substr (input : string) (b e : nat) : string :=
    strings.take (e - b) (strings.drop b input).

(** The submatch slice [[whole; group 1; ...; group n]] of a match. *)
Definition submatches (ngroups : nat) (input : string) (b e : nat) (cs : caps)
    : list string :=
    substr input b e ::
    map (fun i => match cap_lookup cs i with
                  | Some (gb, ge) => substr input gb ge
                  | None => ""
                  end) (seq 1 ngroups).

(** [FindAllStringSubmatch(input, -1)]: successive non-overlapping
    matches; after an empty match the search moves on by one byte. *)
Fixpoint find_all (re : regex) (ngroups : nat) (input : string) (p : nat) (fuel : nat)
    : list (list string) :=
    match fuel with
    | O => []
    | S fuel' =>
        if (String.length input <? p)%nat then []
        else
          match find_from re input p (String.length input - p) with
          | None => []
          | Some (b, e, cs) =>
              submatches ngroups input b e cs
              :: find_all re ngroups input (if (e =? b)%nat then S e else e) fuel'
          end
    end.

Definition FindAllStringSubmatch (re : regex) (ngroups : nat) (input : string)
    : list (list string) :=
    find_all re ngroups input 0 (S (String.length input)).

End regexp.

(* ================================================================== *)
(** * Errors                                                           *)
(* ================================================================== *)

(** A Go [error] value: one produced outside this package (a library or a
    remote service), one made by [fmt.Errorf] without a cause, or one that
    wraps its cause ([%w], [%v]) behind the text that precedes the verb. *)
Inductive error : Type :=
| External (what : string)
| Errorf (msg : string)
| Wrap (msg : string) (cause : error).

Inductive result (A : Type) : Type :=
| Ok (a : A)
| Err (e : error).
Arguments Ok {A} a.
Arguments Err {A} e.

(* ================================================================== *)
(** * Module resolution: the pure part                                 *)
(* ================================================================== *)

(** [normalizedSource] *)
Definition normalizedSource (source : string) : result (string * string) :=
  match url.Parse source with
  | None => Err (Wrap "failed to parse source URL: " (External "url.Parse"))
  | Some u =>
      let ref := match url.Query_get u "ref" with
                 | v0 :: _ => v0
                 | [] => ""
                 end in
      let n := strings.Index (url.Path u) ".git" in
      let path := if (-1 <? n)%Z then slice_to (url.Path u) n else url.Path u in
      Ok (url.String_ {| url.Scheme := "https"; url.Opaque := url.Opaque u;
                         url.User := url.User u; url.Host := url.Host u;
                         url.Path := path; url.RawPath := url.RawPath u;
                         url.ForceQuery := url.ForceQuery u; url.RawQuery := "";
                         url.Fragment := url.Fragment u;
                         url.RawFragment := url.RawFragment u |},
          ref)
  end.

Record Module : Type := {
  Key : string;
  Source : string;
  Dir : string;
  RootDir : string;
}.

(** The pattern compiled by [readModules]: the word module, a space, a
    quoted name (group 1, a greedy run of any characters), a space and an
    opening brace, white space, the word source, white space, an equals
    sign, white space, and a quoted address (group 2, again greedy). *)
Definition module_pattern : regexp.regex :=
  regexp.Cat (regexp.lits ("module " +:+ dq))
 (regexp.Cat (regexp.Group 1 (regexp.Star regexp.AnyButNL))
 (regexp.Cat (regexp.lits (dq +:+ " {"))
 (regexp.Cat (regexp.Plus regexp.Space)
 (regexp.Cat (regexp.lits "source")
 (regexp.Cat (regexp.Plus regexp.Space)
 (regexp.Cat (regexp.Lit "=")
 (regexp.Cat (regexp.Plus regexp.Space)
 (regexp.Cat (regexp.Lit DQ)
 (regexp.Cat (regexp.Group 2 (regexp.Star regexp.AnyButNL))
             (regexp.Lit DQ)))))))))).

(** The body of the loop of [readModules] for one match. *)
Definition module_of_match (key source : string) : result Module :=
  let dir := ".terraform/modules/" +:+ key in
  let rootDir := dir in
  match url.Parse source with
  | None => Err (Wrap ("failed to parse URL for module source " +:+ source +:+ " -> ")
                      (External "url.Parse"))
  | Some u =>
      let n := strings.Index (url.Path u) ".git" in
      let dir :=
        if (-1 <? n)%Z
        then filepath.Join
               [dir; filepath.Join (strings.Split (slice_from (url.Path u) (n + 4)) "/")]
        else dir in
      Ok {| Key := key; Source := source; Dir := dir; RootDir := rootDir |}
  end.

Fixpoint modules_of_matches (matches : list (list string)) : result (list Module) :=
  match matches with
  | [] => Ok []
  | m :: rest =>
      match module_of_match (nth 1 m "") (nth 2 m "") with
      | Err e => Err e
      | Ok md =>
          match modules_of_matches rest with
          | Err e => Err e
          | Ok mds => Ok (md :: mds)
          end
      end
  end.

(** [readModules] once the file has been read: [content] is its text. *)
Definition readModules_content (path content : string) : result (list Module) :=
  let matches := regexp.FindAllStringSubmatch module_pattern 2 content in
  match matches with
  | [] => Err (Errorf ("failed to find a module in " +:+ path))
  | _ => modules_of_matches matches
  end.

(* ================================================================== *)
(** * [bufio.Scanner] with [ScanLines], and the output multiplexer     *)
(* ================================================================== *)

(** How the reads of a pipe end: with [io.EOF]; with an error, as when
    [cmd.Wait] has closed the pipe under its reader; or not at all, the
    last [Read] never returning. *)
Inductive reading : Type :=
| AtEOF
| ReadError (e : error)
| Pending.

(** A pipe as its reader finds it: the bytes its reads return, and how
    they end after these. *)
Record Pipe : Type := {
  p_bytes : string;
  p_end : reading;
}.

Module bufio.

Definition MaxScanTokenSize : Z := 65536.

(** [dropCR]: a trailing carriage return is not part of the line. *)
Fixpoint dropCR (line : string) : string :=
    match line with
    | "" => ""
    | String c "" => if Ascii.eqb c CR then "" else line
    | String c rest => String c (dropCR rest)
    end.

(** The tokens [Scan] yields on a stream, and whether it ended in
    [ErrTooLong]: every newline-terminated line, then a last unterminated
    one when it is not empty; a line that does not fit the buffer stops
    the scan. [cur] is the line read so far, reversed. *)
Fixpoint scan_lines (stream : string) (cur : string) (curlen : nat)
    : list string * bool :=
    match stream with
    | "" =>
        if (curlen =? 0)%nat then ([], false)
        else if (MaxScanTokenSize <=? Z.of_nat curlen)%Z then ([], true)
        else ([dropCR (String.rev cur)], false)
    | String c rest =>
        if Ascii.eqb c LF then
          if (MaxScanTokenSize <=? Z.of_nat curlen)%Z then ([], true)
          else
            let '(toks, err) := scan_lines rest "" 0 in
            (dropCR (String.rev cur) :: toks, err)
        else scan_lines rest (String c cur) (S curlen)
    end.

Definition ScanLines (stream : string) : list string * bool :=
    scan_lines stream "" 0.

(** The tokens [Scan] yields while the reader has not ended: only the
    lines a newline ends, the last bytes being kept for the next read; a
    line that fills the buffer stops the scan here too. *)
Fixpoint scan_open (stream : string) (cur : string) (curlen : nat)
    : list string * bool :=
    match stream with
    | "" => ([], (MaxScanTokenSize <=? Z.of_nat curlen)%Z)
    | String c rest =>
        if Ascii.eqb c LF then
          if (MaxScanTokenSize <=? Z.of_nat curlen)%Z then ([], true)
          else
            let '(toks, err) := scan_open rest "" 0 in
            (dropCR (String.rev cur) :: toks, err)
        else scan_open rest (String c cur) (S curlen)
    end.

Definition ErrTooLong : error := External "bufio.ErrTooLong".

(** A scanner on a pipe: the tokens of the loop [for s.Scan()], and how
    the loop ends.  [Some err] is [s.Err()] once [Scan] has returned
    false: [nil] at the end of the file, the error of the read that
    failed (what was read before it is still scanned, as at the end of the
    file), or [ErrTooLong], which comes first since a full buffer is not
    read into.  [None]: [Scan] never returns false, the loop is left
    waiting for a read. *)
Definition Scan (p : Pipe) : list string * option (option error) :=
    match p_end p with
    | AtEOF =>
        let '(tokens, too_long) := ScanLines (p_bytes p) in
        (tokens, Some (if too_long then Some ErrTooLong else None))
    | ReadError e =>
        let '(tokens, too_long) := ScanLines (p_bytes p) in
        (tokens, Some (Some (if too_long then ErrTooLong else e)))
    | Pending =>
        let '(tokens, too_long) := scan_open (p_bytes p) "" 0 in
        (tokens, if too_long then Some (Some ErrTooLong) else None)
    end.

End bufio.

(** [wrapOutput]: one [Fprintf] to [out] per line scanned, the line wrapped
    with the job name.  The result is the sequence of those writes; a
    write that fails is only logged. *)
Definition wrapOutput (name : string) (tokens : list string) : list string :=
  map (fun text => "[" +:+ name +:+ "]: " +:+ text +:+ nl) tokens.

(** What the two [wrapOutput] goroutines of [readOutput] write: the lines
    of the job's stdout pipe go to the process's stdout, those of its
    stderr pipe to the process's stderr. *)
Record Written : Type := {
  to_stdout : list string;
  to_stderr : list string;
}.

(** [log.Printf]: one [Write] of the message to the process's stderr,
    with a newline added when the message does not end in one
    ([Logger.Output]); the header of the logger is part of [message]. *)
Fixpoint ends_with (c : ascii) (s : string) : bool :=
  match s with
  | "" => false
  | String d "" => Ascii.eqb d c
  | String _ rest => ends_with c rest
  end.

Definition log_Output (message : string) : string :=
  if ends_with LF message then message else message +:+ nl.

(** [readOutput]: the writes of its two goroutines, and what it returns.
    [wg.Wait()] returns once both scanners have stopped; then the error of
    the stdout scanner is returned, else that of the stderr scanner, else
    nil.  [None]: a scanner never stops, and [readOutput] does not
    return. *)
Definition readOutput (name : string) (stdout stderr : Pipe)
  : Written * option (option error) :=
  let '(out_tokens, out_end) := bufio.Scan stdout in
  let '(err_tokens, err_end) := bufio.Scan stderr in
  ({| to_stdout := wrapOutput name out_tokens;
      to_stderr := wrapOutput name err_tokens |},
   match out_end, err_end with
   | Some out_err, Some err_err =>
       Some match out_err, err_err with
            | Some e, _ => Some (Wrap "stdoutScanner failed: " e)
            | None, Some e => Some (Wrap "stderrScanner failed: " e)
            | None, None => None
            end
   | _, _ => None
   end).

(* ================================================================== *)
(** * The world outside: events and its answers                        *)
(* ================================================================== *)

(** [*exec.Cmd] as [exec.Command] and [runTf] fill it. *)
Record Cmd : Type := {
  cmd_Path : string;
  cmd_Args : list string;
  cmd_Env : list string;
  cmd_Dir : string;
}.

(** What a goroutine does to the world, in order. *)
#[warnings="-register-all"]
Inductive Event : Type :=
| EMarshal (requests : list Request)              (* json.Marshal(requests) *)
| EInvoke (payload : list Request)                (* lambda Invoke, the payload decoded *)
| EGetTerraform (version : string)
| EChmod (path : string)
| ERemoveAll (path : string)
| EPlainClone (path repoURL token : string)
| EWorktree (path : string)
| ECheckout (path branch : string)
| EGetCredentials
| EWriteFile (path content : string)
| EAssumeRole (roleArn sessionName : string)
| EMkdirAll (path : string)
| EReadFile (path : string)
| ECreate (path : string)
| EEncode (path : string) (modules : list Module)  (* the manifest written *)
| EStdoutPipe (cmd : Cmd)
| EStderrPipe (cmd : Cmd)
| EStart (cmd : Cmd)
| EReader (cmd : Cmd) (w : Written) (logs : list string)
                        (* the goroutine runTf starts, and what it does
                           beside the job, which does not wait for it *)
| EWait (cmd : Cmd)
| ERun (cmd : Cmd)                                (* cmd.Run: start and wait *)
| EWrite (lines : list string)                    (* one Write of a wrappedWriter *)
| ELog (msg : string)
| EGo (req : Request) (body : list Event).         (* a job goroutine and what it did *)

Definition Trace : Type := list Event.

(** The answers of the world.  Each may depend on what the goroutine has
    done so far. *)
Record World : Type := {
(** the error, if any, of an operation that returns only an error *)
  w_fails : Trace -> Event -> option error;
  w_getTerraform : Trace -> result string;
  w_credentials : Trace -> result CredentialsValue;
  w_assumeRole : Trace -> string -> string -> result StsCredentials;
  w_readFile : Trace -> string -> result string;
(** the two pipes of a started process as the goroutine [runTf] starts
    finds them: what it reads of them depends on the process and on the
    [cmd.Wait] of the job, which closes them when the process has exited *)
  w_stdout : Trace -> Cmd -> Pipe;
  w_stderr : Trace -> Cmd -> Pipe;
(** the result of the [cmd.Wait] of the goroutine [runTf] starts *)
  w_reader_wait : Trace -> Cmd -> option error;
(** the chunks in which the output of a process reaches an [io.Writer],
    and the wall clock, formatted 15:04:05 *)
  w_chunks : Trace -> Cmd -> list string;
  w_now : Trace -> string;
}.

(** Computations of one goroutine: they extend its trace and end in a
    value or in the error the Go function returns. *)
Definition M (A : Type) : Type := Trace -> result A * Trace.

Definition ret {A} (a : A) : M A := fun tr => (Ok a, tr).

Definition bind {A B} (m : M A) (k : A -> M B) : M B :=
  fun tr =>
    match m tr with
    | (Ok a, tr') => k a tr'
    | (Err e, tr') => (Err e, tr')
    end.

Notation "'let*' x ':=' m 'in' k" := (bind m (fun x => k))
  (at level 20, x name, m at level 100, k at level 200).
Notation "m ;; k" := (bind m (fun _ => k))
  (at level 100, k at level 200, right associativity).

Definition fail {A} (e : error) : M A := fun tr => (Err e, tr).

(** Record an event. *)
Definition emit (e : Event) : M unit := fun tr => (Ok tt, tr ++ [e]).

(** An operation that returns only an error. *)
Definition call (w : World) (e : Event) : M unit :=
  fun tr =>
    match w_fails w tr e with
    | None => (Ok tt, tr ++ [e])
    | Some err => (Err err, tr ++ [e])
    end.

(** An operation that returns a value or an error. *)
Definition ask {A} (e : Event) (answer : Trace -> result A) : M A :=
  fun tr => (answer tr, tr ++ [e]).

(** [if err != nil { return fmt.Errorf("msg: %w", err) }] *)
Definition wrap {A} (msg : string) (m : M A) : M A :=
  fun tr =>
    match m tr with
    | (Err e, tr') => (Err (Wrap msg e), tr')
    | ok => ok
    end.

(** [if err != nil { log.Printf(...) }]: the error is logged and dropped. *)
Definition log_only (describe : error -> string) (m : M unit) : M unit :=
  fun tr =>
    match m tr with
    | (Err e, tr') => (Ok tt, tr' ++ [ELog (describe e)])
    | ok => ok
    end.

Definition lift {A} (r : result A) : M A := fun tr => (r, tr).

(** The text of an error, for the log lines. *)
Fixpoint error_text (e : error) : string :=
  match e with
  | External what => what
  | Errorf msg => msg
  | Wrap msg cause => msg +:+ error_text cause
  end.

(* ================================================================== *)
(** * The application                                                  *)
(* ================================================================== *)

(** [App]; [region] is [sess.Config.Region], and [cpus] is
    [runtime.NumCPU()], a count. *)
Record App : Type := {
  region : string;
  bucket : string;
  repo : string;
  token : string;
  role : string;
  tf : string;
  cpus : nat;
}.

Definition tab : string := String TAB "".

Section Program.

Variable w : World.
Variable lib : GoLib.

(** [dispatch] passes all requests beyond the number of CPUs to a new
    Lambda invocation. *)
Definition dispatch (a : App) (requests : list Request) : M unit :=
    wrap "error marshaling requests: " (call w (EMarshal requests)) ;;
    wrap "failed to dispatch requests: " (call w (EInvoke requests)).

(** [prepTf]: [getTerraform] (setup.go) downloads and unpacks the tool;
    only its result matters here. *)
Definition prepTf (a : App) : M App :=
    let* path := ask (EGetTerraform "latest") (w_getTerraform w) in
    let a' := {| region := region a; bucket := bucket a; repo := repo a;
                 token := token a; role := role a; tf := path; cpus := cpus a |} in
    wrap "failed to make terraform executable: " (call w (EChmod path)) ;;
    ret a'.

Definition checkout (a : App) (repoURL path version : string) : M unit :=
    log_only (fun e => "failed to remove old repository directory: " +:+ path
                       +:+ " -> " +:+ error_text e)
             (call w (ERemoveAll path)) ;;
    wrap "failed clone repository: " (call w (EPlainClone path repoURL (token a))) ;;
    wrap "failed to get worktree: " (call w (EWorktree path)) ;;
    wrap "failed to checkout branch: " (call w (ECheckout path ("refs/tags/" +:+ version))).

Definition readModules (path : string) : M (list Module) :=
    let* content :=
      wrap ("failed to read file " +:+ path +:+ " -> ")
           (ask (EReadFile (filepath.Clean path))
                (fun tr => w_readFile w tr (filepath.Clean path))) in
    lift (readModules_content path content).

(** The loop of [getModules]. *)
Fixpoint checkout_modules (a : App) (modpath : string) (modules : list Module) : M unit :=
    match modules with
    | [] => ret tt
    | m :: rest =>
        let* ur := lift (normalizedSource (Source m)) in
        checkout a ur.1 (filepath.Join [modpath; Key m]) ur.2 ;;
        checkout_modules a modpath rest
    end.

Definition getModules (a : App) (path : string) : M unit :=
    let* modules := readModules path in
    let modpath := filepath.Join [filepath.Dir path; ".terraform"; "modules"] in
    checkout_modules a modpath modules ;;
    wrap "failed to create modules.json: "
         (call w (ECreate (filepath.Join [modpath; "modules.json"]))) ;;
    wrap "failed to encode modules.json: "
         (call w (EEncode (filepath.Join [modpath; "modules.json"]) modules)).

Definition createGitConfig (a : App) (path : string) : M unit :=
    let content := "[url " +:+ dq +:+ "https://" +:+ token a +:+ "@github.com" +:+ dq +:+ "]"
                   +:+ nl +:+ tab +:+ "insteadOf = https://github.com" +:+ nl in
    wrap ("failed to write " +:+ path +:+ " -> ") (call w (EWriteFile path content)).

(** The text [createBackend] writes. *)
Definition backend_text (a : App) (creds : CredentialsValue) (name : string) : string :=
    let t3 := tab +:+ tab +:+ tab in
    let t4 := t3 +:+ tab in
    "terraform {" +:+ nl
    +:+ t3 +:+ "backend " +:+ dq +:+ "s3" +:+ dq +:+ " {" +:+ nl
    +:+ t4 +:+ "bucket     = " +:+ dq +:+ bucket a +:+ dq +:+ nl
    +:+ t4 +:+ "key        = " +:+ dq +:+ name +:+ ".tfstate" +:+ dq +:+ nl
    +:+ t4 +:+ "region     = " +:+ dq +:+ region a +:+ dq +:+ nl
    +:+ t4 +:+ "access_key = " +:+ dq +:+ cv_AccessKeyID creds +:+ dq +:+ nl
    +:+ t4 +:+ "secret_key = " +:+ dq +:+ cv_SecretAccessKey creds +:+ dq +:+ nl
    +:+ t4 +:+ "token      = " +:+ dq +:+ cv_SessionToken creds +:+ dq +:+ nl
    +:+ t3 +:+ "}" +:+ nl
    +:+ tab +:+ "}".

Definition createBackend (a : App) (creds : CredentialsValue) (path name : string)
    : M unit :=
    let p := filepath.Join [path; "backend.tf"] in
    wrap ("failed to write " +:+ p +:+ ": ")
         (call w (EWriteFile p (backend_text a creds name))).

Definition assumeRole (name role : string) : M StsCredentials :=
    wrap "failed to assume role: "
         (ask (EAssumeRole role name) (fun tr => w_assumeRole w tr role name)).

(** The goroutine [runTf] starts once the process runs: [readOutput] and,
    when that returns, [cmd.Wait]; both errors are only logged.  The job
    does not wait for this goroutine: [runTf] returns at once, and the
    event only records what the goroutine does in its own time. *)
Definition reader (name : string) (cmd : Cmd) : M unit :=
    fun tr =>
      let '(written, returned) :=
        readOutput name (w_stdout w tr cmd) (w_stderr w tr cmd) in
      let logs :=
        match returned with
        | None => []
        | Some rerr =>
            (match rerr with
             | Some e => ["[ERROR] " +:+ error_text e]
             | None => []
             end)
            ++ (match w_reader_wait w tr cmd with
                | Some e => ["[ERROR] " +:+ error_text e]
                | None => []
                end)
        end in
      (Ok tt, tr ++ [EReader cmd written logs]).

(** [runTf]; the arguments of the command are kept without the program
    name that [exec.Command] puts in front of them. *)
Definition runTf (a : App) (cwd : string) (req : Request) (env args : list string)
    : M Cmd :=
    let cmd := {| cmd_Path := tf a; cmd_Args := args; cmd_Env := env; cmd_Dir := cwd |} in
    wrap "failed to open stdout pipe: " (call w (EStdoutPipe cmd)) ;;
    wrap "failed to open stdout pipe: " (call w (EStderrPipe cmd)) ;;
    wrap ("failed to start process: " +:+ tf a +:+ " -> ") (call w (EStart cmd)) ;;
    reader (Name req) cmd ;;
    ret cmd.

(** [execute] runs terraform using the given request. *)
Definition execute (a : App) (req : Request) : M unit :=
    let path := filepath.Join ["/tmp"; Name req] in
    checkout a (repo a) path (Version req) ;;
    let* creds := wrap "failed to get AWS credentials: "
                       (ask EGetCredentials (w_credentials w)) in
    createBackend a creds path (Name req) ;;
    let roleArn := "arn:aws:iam::" +:+ ID req +:+ ":role/" +:+ role a in
    let* cred := assumeRole (Name req) roleArn in
    let pluginDir := filepath.Join ["/tmp"; "terraform.d"; "plugins"] in
    wrap "failed to create plugins directory: " (call w (EMkdirAll pluginDir)) ;;
    let modDir := filepath.Join [path; ".terraform"; "modules"] in
    wrap "failed to create .terraform/modules directory: " (call w (EMkdirAll modDir)) ;;
    getModules a (filepath.Join [path; "main.tf"]) ;;
    let env := getEnv lib (Variables req)
               ++ getCredEnv cred
               ++ ["TF_PLUGIN_CACHE_DIR=" +:+ pluginDir]
               ++ ["TF_LOG=" +:+ LogLevel req]
               ++ ["HOME=" +:+ path] in
    createGitConfig a (filepath.Join [path; ".git"; "config"]) ;;
    let* init := runTf a path req env ["init"; "-input=false"; "-no-color"] in
    call w (EWait init) ;;
    let* apply := runTf a path req env ["apply"; "-input=false"; "-auto-approve"; "-no-color"] in
    call w (EWait apply).

(** The goroutine [Run] starts for one request: [execute], its error only
    logged, then [wg.Done].  [job_body] is what that goroutine does; it is
    kept as the body of one [EGo] event of the caller. *)
Definition job_body (a : App) (req : Request) : Trace :=
    let '(r, body) := execute a req [] in
    match r with
    | Err e => body ++ [ELog ("failed to execute: " +:+ Name req +:+ " -> " +:+ error_text e)]
    | Ok _ => body
    end.

Definition go_execute (a : App) (req : Request) : M unit :=
    emit (EGo req (job_body a req)).

(** The loop of [Run] that starts the goroutines; [wg.Wait] then returns
    when every one of them has called [wg.Done]. *)
Fixpoint go_all (a : App) (requests : list Request) : M unit :=
    match requests with
    | [] => ret tt
    | req :: rest => go_execute a req ;; go_all a rest
    end.

Definition Run (a : App) (requests : list Request) : M unit :=
    let end0 := length requests in
    let* end_ :=
      if (cpus a <? end0)%nat then
        (* Execute no more than the number of CPUs,
           send the rest to a new Lambda invocation *)
        dispatch a (skipn (cpus a) requests) ;;
        ret (cpus a)
      else ret end0 in
    let* a' := prepTf a in
    go_all a' (firstn end_ requests) ;;
    ret tt.

End Program.

(* ================================================================== *)
(** * The earlier revision of the package                              *)
(* ================================================================== *)

(** How a call ends: it returns, or the goroutine panics. *)
Inductive outcome : Type :=
| Returned (r : result unit)
| Panicked (why : string).

Module Earlier.

(** [wrappedWriter.Write]: the lines of one chunk, each written to the
    process's stdout behind the time and the identifier; the count it
    returns is that of the bytes it wrote. *)
Definition Write (now ident : string) (b : string)
    : list string * (nat * option error) :=
    let '(tokens, too_long) := bufio.ScanLines b in
    let lines := map (fun text => "[" +:+ now +:+ "][" +:+ ident +:+ "]: " +:+ text +:+ nl)
                     tokens in
    (lines,
     (list_sum (map String.length lines),
      if too_long
      then Some (Wrap "failed when scanning for a new line: " (External "bufio.ErrTooLong"))
      else None)).

Section Program.

Variable w : World.
Variable lib : GoLib.

Definition dispatch (a : App) (requests : list Request) : M unit :=
      wrap "error marshalling requests: " (call w (EMarshal requests)) ;;
      wrap "failed to dispatch requests: " (call w (EInvoke requests)).

Definition checkout (a : App) (path version : string) : M unit :=
      wrap "failed clone repository: " (call w (EPlainClone path (repo a) (token a))) ;;
      wrap "failed to get worktree: " (call w (EWorktree path)) ;;
      wrap "failed to checkout branch: " (call w (ECheckout path ("refs/tags/" +:+ version))).

Definition backend_text (a : App) (name : string) : string :=
      let t2 := tab +:+ tab in
      let t3 := t2 +:+ tab in
      "terraform {" +:+ nl
      +:+ t2 +:+ "backend " +:+ dq +:+ "s3" +:+ dq +:+ " {" +:+ nl
      +:+ t3 +:+ "bucket = " +:+ dq +:+ bucket a +:+ dq +:+ nl
      +:+ t3 +:+ "key    = " +:+ dq +:+ name +:+ ".tfstate" +:+ dq +:+ nl
      +:+ t3 +:+ "region = " +:+ dq +:+ region a +:+ dq +:+ nl
      +:+ t2 +:+ "}" +:+ nl
      +:+ "}".

Definition createBackend (a : App) (path name : string) : M unit :=
      let p := filepath.Join [path; "backend.tf"] in
      wrap ("failed to write " +:+ p +:+ ": ") (call w (EWriteFile p (backend_text a name))).

    (** The copy of the process output into the [wrappedWriter]. *)
Fixpoint write_chunks (ident : string) (chunks : list string) : M unit :=
      match chunks with
      | [] => ret tt
      | b :: rest =>
          (fun tr => (Ok tt, tr ++ [EWrite (Write (w_now w tr) ident b).1])) ;;
          write_chunks ident rest
      end.

Definition execute (a : App) (req : Request) : M unit :=
      let path := filepath.Join ["/tmp"; Name req] in
      checkout a path (Version req) ;;
      createBackend a path (Name req) ;;
      let cmd := {| cmd_Path := "terraform";
                    cmd_Args := ["apply"; "-input=false"; "-auto-approve"];
                    cmd_Env := getEnv lib (Variables req);
                    cmd_Dir := "" |} in
      (fun tr => write_chunks (Name req) (w_chunks w tr cmd) tr) ;;
      wrap "failed to run terraform: " (call w (ERun cmd)).

    (** The loop of [Run]; [None] is a nil pointer, which [execute]
        dereferences. *)
Fixpoint run_each (a : App) (requests : list (option Request)) (tr : Trace)
      : outcome * Trace :=
      match requests with
      | [] => (Returned (Ok tt), tr)
      | None :: _ => (Panicked "invalid memory address or nil pointer dereference", tr)
      | Some req :: rest =>
          match execute a req tr with
          | (Err e, tr') => (Returned (Err e), tr')
          | (Ok _, tr') => run_each a rest tr'
          end
      end.

    (** [Run] on the outcome of [json.Unmarshal(raw, &requests)]:
        the requests decoded and the capacity of the slice that holds them
        ([length requests <= capacity]).  [requests[:a.cpus]] reaches into
        the spare capacity, where the pointers are nil, and panics beyond it. *)
Definition Run (a : App) (unmarshalled : result (list Request)) (capacity : nat)
               (tr : Trace) : outcome * Trace :=
      match unmarshalled with
      | Err e => (Returned (Err (Wrap "failed to unmarshal requests: " e)), tr)
      | Ok requests =>
          if (cpus a <? length requests)%nat then
            let '(r, tr') := dispatch a (skipn (cpus a) requests) tr in
            (Returned r, tr')
          else if (capacity <? cpus a)%nat then
            (Panicked "slice bounds out of range", tr)
          else
            run_each a (map Some requests ++ repeat None (cpus a - length requests)) tr
      end.

End Program.

End Earlier.

(* ================================================================== *)
(** * Observations on traces                                           *)
(* ================================================================== *)

(** The payloads handed to the fan-out invocation. *)
Definition handoffs (tr : Trace) : list (list Request) :=
  flat_map (fun e => match e with EInvoke payload => [payload] | _ => [] end) tr.

(** The requests for which a job goroutine was started, in order. *)
Definition jobs (tr : Trace) : list Request :=
  flat_map (fun e => match e with EGo req _ => [req] | _ => [] end) tr.

(** The body of every job goroutine. *)
Definition job_bodies (tr : Trace) : list (Request * Trace) :=
  flat_map (fun e => match e with EGo req body => [(req, body)] | _ => [] end) tr.

(** The processes started, by their arguments. *)
Definition started (tr : Trace) : list (list string) :=
  flat_map (fun e => match e with EStart cmd => [cmd_Args cmd] | _ => [] end) tr.

(** The clones made: destination and repository. *)
Definition clones (tr : Trace) : list (string * string) :=
  flat_map (fun e => match e with EPlainClone path u _ => [(path, u)] | _ => [] end) tr.

(** The repository operations of the Source Fetcher. *)
Definition is_fetch (e : Event) : bool :=
  match e with
  | ERemoveAll _ | EPlainClone _ _ _ | EWorktree _ | ECheckout _ _ => true
  | _ => false
  end.

(** Several goroutines write to one stream.  Each [Fprintf] and each
    [log.Printf] is one [Write] on the file, and the writes on one file
    are serialized, so the stream receives the writes whole, in any order
    that keeps the order of each goroutine. *)
Inductive merge {A : Type} : list (list A) -> list A -> Prop :=
| merge_done writers : Forall (fun writes => writes = []) writers -> merge writers []
| merge_write before x writes after out :
    merge (before ++ writes :: after) out ->
    merge (before ++ (x :: writes) :: after) (x :: out).

(** The relay goroutines a job started: what each of them writes. *)
Definition relays (body : Trace) : list Written :=
  flat_map (fun e => match e with EReader _ written _ => [written] | _ => [] end) body.

(** The two pipes each relay of a job reads, as the world has them when
    the relay is started; [pre] is the trace of the job before [body]. *)
Fixpoint relay_pipes (w : World) (pre body : Trace) : list (Pipe * Pipe) :=
  match body with
  | [] => []
  | e :: rest =>
      match e with
      | EReader cmd _ _ => [(w_stdout w pre cmd, w_stderr w pre cmd)]
      | _ => []
      end ++ relay_pipes w (pre ++ [e]) rest
  end.

(** The goroutines that write to the process's stdout, and to its stderr,
    on behalf of the jobs of a run: one per relay, with its writes. *)
Definition stdout_writers (tr : Trace) : list (list string) :=
  flat_map (fun job => map to_stdout (relays (snd job))) (job_bodies tr).

Definition stderr_writers (tr : Trace) : list (list string) :=
  flat_map (fun job => map to_stderr (relays (snd job))) (job_bodies tr).

(** The lines of a byte stream: the pieces its newlines end. *)
Definition stream_lines (bytes : string) : list string :=
  removelast (strings.Split bytes LF).

(** The bytes a sequence of writes leaves on a stream. *)
Definition stream_of (writes : list string) : string :=
  fold_right String.append "" writes.

(* ================================================================== *)
(** * Auxiliary notions used in the statements and proofs             *)
(* ================================================================== *)

(** [emits P m]: [m] only appends to the trace, and only events in [P]. *)
Definition emits {A} (P : Event -> Prop) (m : M A) : Prop :=
  forall tr r tr', m tr = (r, tr') -> exists ext, tr' = tr ++ ext /\ Forall P ext.

(** The goroutines of a batch, as events of the caller. *)
Definition spawned (w : World) (lib : GoLib) (a : App) (requests : list Request) : Trace :=
  map (fun req => EGo req (job_body w lib a req)) requests.

(** The tool installed: [a] with [tf] set. *)
Definition with_tf (a : App) (path : string) : App :=
  {| region := region a; bucket := bucket a; repo := repo a; token := token a;
     role := role a; tf := path; cpus := cpus a |}.

(** [Run] from the tool preparation on. *)
Definition run_local (w : World) (lib : GoLib) (a : App) (batch : list Request) : M unit :=
  let* a' := prepTf w a in
  go_all w lib a' batch ;;
  ret tt.

(* ================================================================== *)
(** * Concrete scenarios                                               *)
(* ================================================================== *)

Definition lib0 : GoLib :=
  {| json_Marshal := fun _ => None; fmt_verb_v := fun _ => "" |}.

(** A root module that declares one nested module. *)
Definition main_tf : string :=
  "module " +:+ dq +:+ "foo" +:+ dq +:+ " {" +:+ nl
  +:+ "  source = " +:+ dq
  +:+ "https://example.com/org/repo.git//modules/foo?ref=v2" +:+ dq +:+ nl
  +:+ "}" +:+ nl.

(** A world in which nothing fails. *)
Definition calm : World :=
  {| w_fails := fun _ _ => None;
     w_getTerraform := fun _ => Ok "/tmp/terraform";
     w_credentials := fun _ =>
       Ok {| cv_AccessKeyID := "AKIA"; cv_SecretAccessKey := "s"; cv_SessionToken := "t" |};
     w_assumeRole := fun _ _ _ =>
       Ok {| AccessKeyId := "ASIA"; SecretAccessKey := "s"; SessionToken := "t" |};
     w_readFile := fun _ _ => Ok main_tf;
     w_stdout := fun _ _ => {| p_bytes := "Apply complete!" +:+ nl; p_end := AtEOF |};
     w_stderr := fun _ _ => {| p_bytes := ""; p_end := AtEOF |};
     w_reader_wait := fun _ _ => Some (External "exec: Wait was already called");
     w_chunks := fun _ _ => [];
     w_now := fun _ => "15:04:05" |}.

(** The same world with the release server unreachable. *)
Definition offline : World :=
  {| w_fails := w_fails calm;
     w_getTerraform := fun _ => Err (External "failed to HEAD terraform repo");
     w_credentials := w_credentials calm;
     w_assumeRole := w_assumeRole calm;
     w_readFile := w_readFile calm;
     w_stdout := w_stdout calm;
     w_stderr := w_stderr calm;
     w_reader_wait := w_reader_wait calm;
     w_chunks := w_chunks calm;
     w_now := w_now calm |}.

(** The same world with [terraform init] exiting with an error. *)
Definition init_fails : World :=
  {| w_fails := fun _ e =>
       match e with
       | EWait cmd =>
           match cmd_Args cmd with
           | "init" :: _ => Some (External "exit status 1")
           | _ => None
           end
       | _ => None
       end;
     w_getTerraform := w_getTerraform calm;
     w_credentials := w_credentials calm;
     w_assumeRole := w_assumeRole calm;
     w_readFile := w_readFile calm;
     w_stdout := w_stdout calm;
     w_stderr := w_stderr calm;
     w_reader_wait := w_reader_wait calm;
     w_chunks := w_chunks calm;
     w_now := w_now calm |}.

Definition app2 : App :=
  {| region := "us-east-1"; bucket := "state"; repo := "https://example.com/root.git";
     token := ""; role := "OrganizationAccountAccessRole"; tf := ""; cpus := 2 |}.

Definition request (id name : string) (vars : gmap string GoValue) : Request :=
  {| ID := id; Name := name; Version := "v1.0.0"; LogLevel := ""; Variables := vars |}.

Definition acct1 : Request := request "111111111111" "acct-1" ∅.
Definition acct2 : Request := request "222222222222" "acct-2" ∅.
Definition acct3 : Request := request "333333333333" "acct-3" ∅.

Definition job_a : Request := request "111111111111" "a" ∅.
Definition job_b : Request := request "222222222222" "b" ∅.

(** [calm], with a warning on the stderr pipe of every command and the
    pipe closed under the reader ([cmd.Wait] closes it) in the middle of
    the next line. *)
Definition closing : World :=
  {| w_fails := w_fails calm;
     w_getTerraform := w_getTerraform calm;
     w_credentials := w_credentials calm;
     w_assumeRole := w_assumeRole calm;
     w_readFile := w_readFile calm;
     w_stdout := w_stdout calm;
     w_stderr := fun _ _ =>
       {| p_bytes := "Warning: deprecated" +:+ nl +:+ "Warn";
          p_end := ReadError (External "read |0: file already closed") |};
     w_reader_wait := w_reader_wait calm;
     w_chunks := w_chunks calm;
     w_now := w_now calm |}.

(** The arguments of the two terraform steps. *)
Definition init_args : list string := ["init"; "-input=false"; "-no-color"].
Definition apply_args : list string :=
  ["apply"; "-input=false"; "-auto-approve"; "-no-color"].

(** The events of starting and awaiting a subprocess. *)
Definition is_process_event (e : Event) : bool :=
  match e with
  | EStdoutPipe _ | EStderrPipe _ | EStart _ | EReader _ _ _ | EWait _ => true
  | _ => false
  end.

Definition quiet (e : Event) : Prop := is_process_event e = false.

(** Replaying a trace against the world: every event with the error, if
    any, that the world answered it with. *)
Fixpoint answers_from (w : World) (pre tr : Trace) : list (Event * option error) :=
  match tr with
  | [] => []
  | e :: rest => (e, w_fails w pre e) :: answers_from w (pre ++ [e]) rest
  end.

Definition answers (w : World) (tr : Trace) : list (Event * option error) :=
  answers_from w [] tr.

(** The steps of running a command to its end: the three of [runTf], then
    [Wait]. *)
Definition run_steps (cmd : Cmd) : list Event :=
  [EStdoutPipe cmd; EStderrPipe cmd; EStart cmd; EWait cmd].

(** The error [execute] returns when a step of a command fails with [err]. *)
Definition step_error (a : App) (e : Event) (err : error) : error :=
  match e with
  | EStdoutPipe _ | EStderrPipe _ => Wrap "failed to open stdout pipe: " err
  | EStart _ => Wrap ("failed to start process: " +:+ tf a +:+ " -> ") err
  | _ => err
  end.

(** [execute] from the initialization step on. *)
Definition terraform_steps (w : World) (a : App) (path : string) (req : Request)
           (env : list string) : M unit :=
  let* init := runTf w a path req env init_args in
  call w (EWait init) ;;
  let* apply := runTf w a path req env apply_args in
  call w (EWait apply).

(** The gate between the two terraform steps, on a finished run of
    [execute] with result [r] and trace [tr]: a started [apply] has an
    [init] before it that was started and awaited without error, and a
    failed step of [init] is the error returned, with no [apply] started. *)
Definition init_gate (w : World) (a : App) (r : result unit) (tr : Trace) : Prop :=
  (forall apply,
      In (EStart apply) tr -> cmd_Args apply = apply_args ->
      exists init, cmd_Args init = init_args
                   /\ In (EStart init, None) (answers w tr)
                   /\ In (EWait init, None) (answers w tr))
  /\ (forall init e err,
        cmd_Args init = init_args -> In e (run_steps init) ->
        In (e, Some err) (answers w tr) ->
        r = Err (step_error a e err)
        /\ forall apply, In (EStart apply) tr -> cmd_Args apply <> apply_args).

(** The [terraform init] command of the job for [acct1] under [app2]. *)
Definition acct1_init : Cmd :=
  {| cmd_Path := "";
     cmd_Args := init_args;
     cmd_Env := ["AWS_ACCESS_KEY_ID=ASIA"; "AWS_SECRET_ACCESS_KEY=s";
                 "AWS_SESSION_TOKEN=t";
                 "TF_PLUGIN_CACHE_DIR=/tmp/terraform.d/plugins";
                 "TF_LOG="; "HOME=/tmp/acct-1"];
     cmd_Dir := "/tmp/acct-1" |}.

(** The address of the worked example. *)
Definition example_address : string :=
  "https://example.com/org/repo.git//modules/foo?ref=v2".

(** The URL [url.Parse] reads from that address behind a [git::] prefix:
    an opaque one, without host or path. *)
Definition opaque_example : url.URL :=
  {| url.Scheme := "git";
     url.Opaque := ":https://example.com/org/repo.git//modules/foo";
     url.User := None; url.Host := ""; url.Path := ""; url.RawPath := "";
     url.ForceQuery := false; url.RawQuery := "ref=v2";
     url.Fragment := ""; url.RawFragment := "" |}.

(** A path element that [filepath.Clean] leaves alone: not empty, not [.]
    or [..], and without a separator. *)
Definition plain_element (s : string) : bool :=
  nonempty s && negb (String.eqb s ".") && negb (String.eqb s "..")
  && (strings.CountByte s "/" =? 0)%nat.

(** The address [getModules] clones for a module: its normalized source. *)
Definition clone_url (m : Module) : string :=
  match normalizedSource (Source m) with
  | Ok (u, _) => u
  | Err _ => ""
  end.

(** The directory under which [getModules] places the modules of the
    entry file at [path]. *)
Definition modules_root (path : string) : string :=
  filepath.Join [filepath.Dir path; ".terraform"; "modules"].

(** A root module without a nested module, and the calm world with that
    file in place of the other. *)
Definition resource_tf : string :=
  "resource " +:+ dq +:+ "aws_s3_bucket" +:+ dq +:+ " " +:+ dq +:+ "b" +:+ dq +:+ " {}" +:+ nl.

Definition calm_without_modules : World :=
  {| w_fails := w_fails calm;
     w_getTerraform := w_getTerraform calm;
     w_credentials := w_credentials calm;
     w_assumeRole := w_assumeRole calm;
     w_readFile := fun _ _ => Ok resource_tf;
     w_stdout := w_stdout calm;
     w_stderr := w_stderr calm;
     w_reader_wait := w_reader_wait calm;
     w_chunks := w_chunks calm;
     w_now := w_now calm |}.

(** The variables [{"enabled": true, "count": 3}] of the worked example,
    as the JSON text of a request carries them. *)
Definition example_variables : json :=
  JObject [("enabled", JBool true); ("count", JNumber false 3 0)].

(** The float64 value 3. *)
Definition float_three : float64 := S754_finite false 6755399441055744 (-51).

(** The map the decoder builds from them. *)
Definition example_decoded : gmap string GoValue :=
  <["count" := VFloat64 float_three]> (<["enabled" := VBool true]> ∅).

(** The state key line of the backend file of a job. *)
Definition state_key_line (name : string) : string :=
  "key        = " +:+ dq +:+ name +:+ ".tfstate" +:+ dq.

(** A text without a newline. *)
Definition no_LF (s : string) : Prop := strings.CountByte s LF = 0.

(** A line behind the tag of its job, without the newline that ends it. *)
Definition tagged (name text : string) : string := "[" +:+ name +:+ "]: " +:+ text.

(** The lines a scanner reads from a pipe of a job, behind the tag. *)
Definition tagged_lines (name : string) (p : Pipe) : list string :=
  map (tagged name) (fst (bufio.Scan p)).

(** The tagged lines of the stdout pipes, and of the stderr pipes, of the
    jobs of a run: one sequence per relay, as in [stdout_writers]. *)
Definition stdout_lines (w : World) (tr : Trace) : list (list string) :=
  flat_map (fun job => map (fun pipes => tagged_lines (Name (fst job)) (fst pipes))
                           (relay_pipes w [] (snd job)))
           (job_bodies tr).

Definition stderr_lines (w : World) (tr : Trace) : list (list string) :=
  flat_map (fun job => map (fun pipes => tagged_lines (Name (fst job)) (snd pipes))
                           (relay_pipes w [] (snd job)))
           (job_bodies tr).

(** An event that is not the start of a relay. *)
Definition no_relay (e : Event) : Prop :=
  match e with EReader _ _ _ => False | _ => True end.

(** [relaying w name m]: the relays [m] starts write what they read from
    the pipes of their command, under [name]. *)
Definition relaying {A} (w : World) (name : string) (m : M A) : Prop :=
  forall tr r tr', m tr = (r, tr') ->
    exists ext, tr' = tr ++ ext
      /\ relays ext
         = map (fun pipes => fst (readOutput name (fst pipes) (snd pipes)))
               (relay_pipes w tr ext).

(* ================================================================== *)
(** * Addresses of the usual shape                                     *)
(* ================================================================== *)

Fixpoint all_bytes (P : ascii -> bool) (s : string) : bool :=
  match s with
  | "" => true
  | String c rest => P c && all_bytes P rest
  end.

(** The bytes [getscheme] accepts after the first one. *)
Definition scheme_byte (c : ascii) : bool :=
  is_alpha c || is_digit c || one_of "+-." c.

Definition valid_scheme (s : string) : bool :=
  match s with
  | "" => false
  | String c rest => is_alpha c && all_bytes scheme_byte rest
  end.

(** The bytes a host holds as they are, an address literal apart. *)
Definition host_byte (c : ascii) : bool :=
  negb (url.shouldEscape c url.encodeHost) && negb (one_of "[]" c).

(** What follows the last colon of a host, if there is one, is a port. *)
Definition port_ok (host : string) : bool :=
  let i := strings.LastIndexByte host ":" in
  (i =? -1)%Z || url.validOptionalPort (slice_from host i).

(** The bytes a path holds as they are. *)
Definition path_byte (c : ascii) : bool := negb (url.shouldEscape c url.encodePath).

Definition is_ctl (c : ascii) : bool :=
  (nat_of_ascii c <? 32)%nat || (nat_of_ascii c =? 127)%nat.

(** The bytes of a raw query: anything printable but the fragment mark. *)
Definition query_byte (c : ascii) : bool := negb (is_ctl c) && negb (Ascii.eqb c "#").

(** [scheme://host/path], the host with an optional [:port], and an
    optional [?query]. *)
Definition query_part (q : option string) : string :=
  match q with
  | None => ""
  | Some query => "?" +:+ query
  end.

Definition assemble (scheme host path : string) (q : option string) : string :=
  scheme +:+ "://" +:+ host +:+ path +:+ query_part q.

Definition plain_address (scheme host path : string) (q : option string) : bool :=
  valid_scheme scheme
  && nonempty host && all_bytes host_byte host && port_ok host
  && all_bytes path_byte path
  && (String.eqb path "" || strings.HasPrefix path "/")
  && match q with
     | None => true
     | Some query => all_bytes query_byte query
     end.

(** A string none of whose bytes is [c]. *)
Definition lacks (c : ascii) (s : string) : bool :=
  all_bytes (fun d => negb (Ascii.eqb d c)) s.

(** Every byte, for the properties checked byte by byte. *)
Definition every_byte : list ascii := map ascii_of_nat (seq 0 256).

(** The URL an address of the usual shape parses to. *)
Definition plain_url (scheme host path : string) (q : option string) : url.URL :=
  {| url.Scheme := scheme; url.Opaque := ""; url.User := None; url.Host := host;
     url.Path := path; url.RawPath := "";
     url.ForceQuery := match q with Some "" => true | _ => false end;
     url.RawQuery := match q with Some query => query | None => "" end;
     url.Fragment := ""; url.RawFragment := "" |}.

(** The path of a repository: the path cut before the first [.git]. *)
Definition repository_path (path : string) : string :=
  let n := strings.Index path ".git" in
  if (-1 <? n)%Z then slice_to path n else path.

(** What is left of the query of an address once normalized: the bare
    question mark of an address that ends in one. *)
Definition forced (q : option string) : option string :=
  match q with
  | Some "" => Some ""
  | _ => None
  end.

(** The calm world with every terraform run of the earlier revision
    exiting with an error. *)
Definition run_fails : World :=
  {| w_fails := fun _ e =>
       match e with
       | ERun _ => Some (External "exit status 1")
       | _ => None
       end;
     w_getTerraform := w_getTerraform calm;
     w_credentials := w_credentials calm;
     w_assumeRole := w_assumeRole calm;
     w_readFile := w_readFile calm;
     w_stdout := w_stdout calm;
     w_stderr := w_stderr calm;
     w_reader_wait := w_reader_wait calm;
     w_chunks := w_chunks calm;
     w_now := w_now calm |}.

(* ================================================================== *)
(** * [setup.go]: installing the terraform release                     *)
(* ================================================================== *)

(** [strings.TrimLeft(s, cutset)] for a cutset of one byte. *)
Fixpoint strings_TrimLeft (s : string) (c : ascii) : string :=
  match s with
  | String d rest => if Ascii.eqb d c then strings_TrimLeft rest c else s
  | "" => ""
  end.

(** The two runes outside ASCII that fold to an ASCII letter, in UTF-8:
    U+017F (long s) and U+212A (the Kelvin sign). *)
Definition long_s : string :=
  String (ascii_of_nat 197) (String (ascii_of_nat 191) "").
Definition kelvin : string :=
  String (ascii_of_nat 226) (String (ascii_of_nat 132) (String (ascii_of_nat 170) "")).

(** Two ASCII bytes equal under simple case folding. *)
Definition fold_eq_byte (c d : ascii) : bool :=
  Ascii.eqb c d
  || (is_upper c && (nat_of_ascii d =? nat_of_ascii c + 32)%nat)
  || (is_upper d && (nat_of_ascii c =? nat_of_ascii d + 32)%nat).

(** [strings.EqualFold(s, t)] for a [t] of ASCII bytes: rune by rune,
    equal, or an upper and lower case pair, or one of the two runes above
    against the letter it folds to. *)
Fixpoint strings_EqualFold (s t : string) : bool :=
  match t with
  | "" => String.eqb s ""
  | String d t' =>
      match s with
      | "" => false
      | String c s' =>
          if (nat_of_ascii c <? 128)%nat then fold_eq_byte c d && strings_EqualFold s' t'
          else if strings.HasPrefix s long_s
          then fold_eq_byte "s" d && strings_EqualFold (strings.drop 2 s) t'
          else if strings.HasPrefix s kelvin
          then fold_eq_byte "k" d && strings_EqualFold (strings.drop 3 s) t'
          else false
      end
  end.

(** [filepath.Base]: the last element of the path, trailing separators
    removed first. *)
Fixpoint strip_trailing_separators (s : string) : string :=
  match s with
  | "" => ""
  | String c rest =>
      match strip_trailing_separators rest with
      | "" => if Ascii.eqb c "/" then "" else String c ""
      | kept => String c kept
      end
  end.

Definition filepath_Base (path : string) : string :=
  if String.eqb path "" then "."
  else
    let p := strip_trailing_separators path in
    let i := strings.LastIndexByte p "/" in
    let p := if (0 <=? i)%Z then slice_from p (i + 1) else p in
    if String.eqb p "" then "/" else p.

(** A file of a zip archive: its name, whether [FileInfo().IsDir()]
    holds, and the bytes [Open] yields. *)
Record ZipFile : Type := {
  zf_Name : string;
  zf_IsDir : bool;
  zf_data : string;
}.

(** What [setup.go] asks of the network and the file system, in order. *)
Inductive Sys : Type :=
| SHead (u : string)                        (* client.Head(u) *)
| SLocation                                 (* resp.Location() *)
| SGet (u : string)                         (* http.Get(u) *)
| SCloseBody                                (* resp.Body.Close() *)
| SOpenFile (path : string) (trunc : bool)  (* os.OpenFile, with or without O_TRUNC *)
| SCopy (path body : string)                (* io.Copy(f, resp.Body) *)
| SClose (path : string)
| SOpenReader (src : string)                (* zip.OpenReader(src) *)
| SCloseReader (src : string)
| SMkdirAll (path : string)
| SOpenEntry (name : string)                (* f.Open() *)
| SCopyN (path chunk : string)              (* io.CopyN(outFile, rc, 1024) *)
| SCloseEntry (name : string)               (* rc.Close() *)
| SRemove (path : string)
| SStat (path : string)
| SLog (msg : string).

(** The answers of the host. *)
Record Host : Type := {
(** the error, if any, of an operation that returns only an error *)
  h_fails : list Sys -> Sys -> option error;
(** [resp.Location()], printed *)
  h_location : list Sys -> result string;
(** the body of the response to a GET *)
  h_body : list Sys -> string -> string;
(** the files of the archive at a path *)
  h_archive : list Sys -> string -> result (list ZipFile);
(** [os.Stat] of a path, then [IsDir] *)
  h_isdir : list Sys -> string -> result bool;
}.

Module sys.

(** Computations over the host: as [M], on the trace of [Sys] calls. *)
Definition S (A : Type) : Type := list Sys -> result A * list Sys.

Definition ret {A} (a : A) : S A := fun tr => (Ok a, tr).

Definition bind {A B} (m : S A) (k : A -> S B) : S B :=
    fun tr =>
      match m tr with
      | (Ok a, tr') => k a tr'
      | (Err e, tr') => (Err e, tr')
      end.

Definition fail {A} (e : error) : S A := fun tr => (Err e, tr).

Definition call (h : Host) (e : Sys) : S unit :=
    fun tr =>
      match h_fails h tr e with
      | None => (Ok tt, tr ++ [e])
      | Some err => (Err err, tr ++ [e])
      end.

Definition ask {A} (e : Sys) (answer : list Sys -> result A) : S A :=
    fun tr => (answer tr, tr ++ [e]).

Definition wrap {A} (msg : string) (m : S A) : S A :=
    fun tr =>
      match m tr with
      | (Err e, tr') => (Err (Wrap msg e), tr')
      | ok => ok
      end.

(** [defer cleanup()]: [cleanup] runs when the function returns, whatever
    it returns; its own result is dropped. *)
Definition deferred {A} (cleanup : S unit) (m : S A) : S A :=
    fun tr =>
      let '(r, tr1) := m tr in
      (r, snd (cleanup tr1)).

(** [if err != nil { log.Printf(...) }] *)
Definition log_only (describe : error -> string) (m : S unit) : S unit :=
    fun tr =>
      match m tr with
      | (Err e, tr') => (Ok tt, tr' ++ [SLog (describe e)])
      | ok => ok
      end.

End sys.

Declare Scope sys_scope.
Notation "'let*' x ':=' m 'in' k" := (sys.bind m (fun x => k))
  (at level 20, x name, m at level 100, k at level 200) : sys_scope.
Notation "m ;; k" := (sys.bind m (fun _ => k))
  (at level 100, k at level 200, right associativity) : sys_scope.

Section Setup.

Variable h : Host.

#[local] Open Scope sys_scope.

(** [latest]: the version the release page redirects to. *)
Definition latest : sys.S string :=
    let u := "https://github.com/hashicorp/terraform/releases/latest" in
    sys.wrap "failed to HEAD terraform repo: " (sys.call h (SHead u)) ;;
    sys.deferred (sys.call h SCloseBody)
      (let* location :=
         sys.wrap "failed to get redirect location for terraform repo: "
                  (sys.ask SLocation (h_location h)) in
       sys.ret (strings_TrimLeft (filepath_Base location) "v")).

(** [downloadFile]: the body of the response to a GET, saved at [path].
    The file is opened without truncation; both closes are deferred and
    their errors only logged. *)
Definition downloadFile (u path : string) : sys.S unit :=
    sys.wrap "failed to download: " (sys.call h (SGet u)) ;;
    sys.deferred
      (sys.log_only (fun e => "failed to close HTTP response body: " +:+ error_text e)
                    (sys.call h SCloseBody))
      (sys.wrap ("failed to open " +:+ path +:+ ": ")
                (sys.call h (SOpenFile (filepath.Clean path) false)) ;;
       sys.deferred
         (sys.log_only (fun e => "failed to close " +:+ path +:+ " file handle: "
                                 +:+ error_text e)
                       (sys.call h (SClose (filepath.Clean path))))
         (sys.wrap "failed to save: "
                   (fun tr => sys.call h (SCopy (filepath.Clean path) (h_body h tr u)) tr))).

(** The copy loop of [unzip]: [io.CopyN] moves 1024 bytes at a time and
    answers [io.EOF], which ends the loop, once fewer were left; any other
    error is returned.  [fuel] bounds the number of rounds. *)
Fixpoint copy_rounds (fuel : nat) (fpath data : string) : sys.S unit :=
    match fuel with
    | O => sys.ret tt
    | S fuel' =>
        sys.call h (SCopyN fpath (strings.take 1024 data)) ;;
        if (String.length data <? 1024)%nat then sys.ret tt
        else copy_rounds fuel' fpath (strings.drop 1024 data)
    end.

Definition copy_all (fpath data : string) : sys.S unit :=
    copy_rounds (S (String.length data / 1024)) fpath data.

(** The body of the loop of [unzip] for a file that is not a directory. *)
Definition extract_file (f : ZipFile) (fpath : string) : sys.S unit :=
    sys.call h (SMkdirAll (filepath.Dir fpath)) ;;
    sys.call h (SOpenFile (filepath.Clean fpath) true) ;;
    sys.call h (SOpenEntry (zf_Name f)) ;;
    copy_all (filepath.Clean fpath) (zf_data f) ;;
    sys.wrap "failed to close outFile: " (sys.call h (SClose (filepath.Clean fpath))) ;;
    sys.wrap "failed to close zip file: " (sys.call h (SCloseEntry (zf_Name f))).

(** The loop of [unzip]: the names gathered so far and the error, as the
    function returns both. *)
Fixpoint unzip_files (dest : string) (files : list ZipFile) (filenames : list string)
    (tr : list Sys) : (list string * option error) * list Sys :=
    match files with
    | [] => ((filenames, None), tr)
    | f :: rest =>
        let fpath := filepath.Join [dest; zf_Name f] in
        (* the ZipSlip test *)
        if negb (strings.HasPrefix fpath (filepath.Clean dest +:+ "/")) then
          ((filenames, Some (Errorf (fpath +:+ ": illegal file path"))), tr)
        else
          let filenames := filenames ++ [fpath] in
          if zf_IsDir f then
            match sys.call h (SMkdirAll fpath) tr with
            | (Err e, tr') => (([], Some (Wrap "failed to create subdirectory: " e)), tr')
            | (Ok _, tr') => unzip_files dest rest filenames tr'
            end
          else
            match extract_file f fpath tr with
            | (Err e, tr') => ((filenames, Some e), tr')
            | (Ok _, tr') => unzip_files dest rest filenames tr'
            end
    end.

(** [unzip]: the paths of the files of the archive below [dest], and the
    error. *)
Definition unzip (src dest : string) (tr : list Sys)
    : (list string * option error) * list Sys :=
    match sys.ask (SOpenReader src) (fun tr => h_archive h tr src) tr with
    | (Err e, tr') => (([], Some e), tr')
    | (Ok files, tr') =>
        let '(out, tr'') := unzip_files dest files [] tr' in
        (out, snd (sys.call h (SCloseReader src) tr''))
    end.

(** The last loop of [getTerraform]. *)
Fixpoint find_terraform (files : list string) : sys.S string :=
    match files with
    | [] => sys.fail (Errorf "failed to find terraform binary in zip")
    | f :: rest =>
        let* isdir := sys.wrap ("failed to stat file " +:+ f +:+ " -> ")
                               (sys.ask (SStat f) (fun tr => h_isdir h tr f)) in
        if isdir : bool then find_terraform rest
        else if String.eqb (filepath_Base f) "terraform" then sys.ret f
        else find_terraform rest
    end.

Definition getTerraform (version : string) : sys.S string :=
    let* vers := if strings_EqualFold version "latest" then latest else sys.ret version in
    let u := "https://releases.hashicorp.com/terraform/" +:+ vers
             +:+ "/terraform_" +:+ vers +:+ "_linux_amd64.zip" in
    downloadFile u "/tmp/terraform.zip" ;;
    let* files :=
      (fun tr => match unzip "/tmp/terraform.zip" "/tmp" tr with
                 | ((names, None), tr') => (Ok names, tr')
                 | ((_, Some e), tr') => (Err e, tr')
                 end) in
    sys.wrap "failed to remove /tmp/terraform.zip: " (sys.call h (SRemove "/tmp/terraform.zip")) ;;
    find_terraform files.

End Setup.

(** A host on which nothing fails; the release page redirects to the tag
    [v1.0.5], and the archive holds the one binary. *)
Definition release_archive : list ZipFile :=
  [ {| zf_Name := "terraform"; zf_IsDir := false; zf_data := "ELF" |} ].

Definition plain_host : Host :=
  {| h_fails := fun _ _ => None;
     h_location := fun _ => Ok "https://github.com/hashicorp/terraform/releases/tag/v1.0.5";
     h_body := fun _ _ => "PK";
     h_archive := fun _ _ => Ok release_archive;
     h_isdir := fun _ _ => Ok false |}.

(** ** What the installer leaves on the file system *)

(** [below dest p]: [p] lies strictly below the cleaned [dest], the test
    [unzip] makes. *)
Definition below (dest p : string) : bool :=
  strings.HasPrefix p (filepath.Clean dest +:+ "/").

(** The calls [unzip] may make for an archive unpacked at [dest]: it
    opens and closes the archive and its entries, and creates, opens and
    writes only at [dest] or below it. *)
Definition confined (dest : string) (e : Sys) : Prop :=
  match e with
  | SOpenFile p _ | SCopyN p _ | SClose p => below dest p = true
  | SMkdirAll p => p = filepath.Clean dest \/ below dest p = true
  | SOpenReader _ | SCloseReader _ | SOpenEntry _ | SCloseEntry _ => True
  | _ => False
  end.

(** [sys_emits P m]: [m] only appends to the trace, and only calls in [P]. *)
Definition sys_emits {A} (P : Sys -> Prop) (m : sys.S A) : Prop :=
  forall tr r tr', m tr = (r, tr') -> exists ext, tr' = tr ++ ext /\ Forall P ext.

(** Any call at all. *)
Definition any_call (e : Sys) : Prop := True.

(** The bytes a trace leaves in a file it opened with truncation: what
    was copied to it since it was last opened so. *)
Definition write_step (p : string) (content : option string) (e : Sys) : option string :=
  match e with
  | SOpenFile q true => if String.eqb q p then Some "" else content
  | SCopyN q chunk =>
      if String.eqb q p then (fun c => c +:+ chunk) <$> content else content
  | _ => content
  end.

Definition file_written (p : string) (tr : list Sys) : option string :=
  fold_left (write_step p) tr None.

(** The path [unzip] gives a file of the archive. *)
Definition unzip_path (dest : string) (f : ZipFile) : string :=
  filepath.Join [dest; zf_Name f].

(** An archive with a directory and, in it, a binary of 2500 bytes. *)
Definition nested_archive : list ZipFile :=
  [ {| zf_Name := "bin/"; zf_IsDir := true; zf_data := "" |};
    {| zf_Name := "bin/terraform"; zf_IsDir := false;
       zf_data := string_of_list_ascii (repeat "x"%char 2500) |} ].

Definition nested_host : Host :=
  {| h_fails := fun _ _ => None;
     h_location := h_location plain_host;
     h_body := h_body plain_host;
     h_archive := fun _ _ => Ok nested_archive;
     h_isdir := fun _ p => Ok (String.eqb p "/tmp/bin") |}.

Definition is_stat (e : Sys) : Prop := exists p, e = SStat p.

(** The address of the release archive of a version. *)
Definition release_url (vers : string) : string :=
  "https://releases.hashicorp.com/terraform/" +:+ vers
  +:+ "/terraform_" +:+ vers +:+ "_linux_amd64.zip".

Definition releases_latest : string :=
  "https://github.com/hashicorp/terraform/releases/latest".

(** ** Cleaned paths *)

(** The elements [filepath.Clean] keeps as they are. *)
Definition plain_or_empty (e : string) : bool :=
  String.eqb e "" || plain_element e.

(** An element of a cleaned path: not empty, not [.], and without a
    separator. *)
Definition elem_ok (e : string) : bool :=
  nonempty e && negb (String.eqb e ".") && (strings.CountByte e "/" =? 0)%nat.

(** The element stack of a cleaned path, last element first: [..] only
    at the front of a relative path. *)
Fixpoint ok_stack (rooted : bool) (st : list string) : bool :=
  match st with
  | [] => true
  | e :: below =>
      elem_ok e
      && (if String.eqb e ".."
          then negb rooted && match below with
                              | [] => true
                              | t :: _ => String.eqb t ".."
                              end
          else true)
      && ok_stack rooted below
  end.

(** The path [filepath.Clean] prints for an element stack. *)
Definition render (rooted : bool) (st : list string) : string :=
  let out := (if rooted then "/" else "") +:+ strings.Join (rev st) "/" in
  if String.eqb out "" then "." else out.

(** ** Jobs, revisions and relayed lines *)

(** The working directory of a job, the role it assumes, and the
    environment of its terraform processes under credentials [cred]. *)
Definition job_dir (req : Request) : string := filepath.Join ["/tmp"; Name req].

Definition job_role (a : App) (req : Request) : string :=
  "arn:aws:iam::" +:+ ID req +:+ ":role/" +:+ role a.

Definition job_env (lib : GoLib) (req : Request) (cred : StsCredentials) : list string :=
  getEnv lib (Variables req)
  ++ getCredEnv cred
  ++ ["TF_PLUGIN_CACHE_DIR=/tmp/terraform.d/plugins";
      "TF_LOG=" +:+ LogLevel req;
      "HOME=" +:+ job_dir req].

(** The bytes of a revision written in a query as they are: no escape,
    no separator of query pieces. *)
Definition ref_byte (c : ascii) : bool :=
  query_byte c && negb (one_of "%+&;" c).

(** A line that fits the buffer of the scanner: it holds no newline and
    fewer bytes than the scanner's limit. *)
Definition fits (line : string) : bool :=
  lacks LF line && (Z.of_nat (String.length line) <? bufio.MaxScanTokenSize)%Z.

(** The stream made of [lines], each ended by a newline, and then of
    [tail]; and the tokens it is scanned into. *)
Definition framed (lines : list string) (tail : string) : string :=
  stream_of (map (fun line => line +:+ nl) lines) +:+ tail.

Definition scanned (lines : list string) (tail : string) : list string :=
  map bufio.dropCR lines ++ (if String.eqb tail "" then [] else [bufio.dropCR tail]).

(** The tokens of such a stream by the way its pipe ends: the last line
    without a newline is yielded once the pipe has ended, and waits in the
    buffer while the pipe is open. *)
Definition scanned_until (ending : reading) (lines : list string) (tail : string)
  : list string :=
  match ending with
  | Pending => map bufio.dropCR lines
  | _ => scanned lines tail
  end.

(** A line of 65536 bytes, one more than fits. *)
Definition oversize_line : string :=
  string_of_list_ascii (repeat "x"%char (Z.to_nat bufio.MaxScanTokenSize)).

(** The world in which the tool is installed by [getTerraform] on a host. *)
Definition installed_by (h : Host) (w : World) : World :=
  {| w_fails := w_fails w;
     w_getTerraform := fun _ => fst (getTerraform h "latest" []);
     w_credentials := w_credentials w;
     w_assumeRole := w_assumeRole w;
     w_readFile := w_readFile w;
     w_stdout := w_stdout w;
     w_stderr := w_stderr w;
     w_reader_wait := w_reader_wait w;
     w_chunks := w_chunks w;
     w_now := w_now w |}.

(** ** Module declarations *)

(** A module declaration as terraform's formatter writes it, up to the
    quote that closes the address; and a file made of such declarations,
    each followed by the end of its line, a closing brace and a newline. *)
Definition declaration (key source : string) : string :=
  "module " +:+ dq +:+ key +:+ dq +:+ " {" +:+ nl
  +:+ "  source = " +:+ dq +:+ source +:+ dq.

Fixpoint declarations (pairs : list (string * string)) : string :=
  match pairs with
  | [] => ""
  | (key, source) :: rest =>
      declaration key source +:+ nl +:+ "}" +:+ nl +:+ declarations rest
  end.

(** The submatches of a declaration. *)
Definition declared (pair : string * string) : list string :=
  [declaration pair.1 pair.2; pair.1; pair.2].

(** The continuation that ends a match: the end offset and the captures. *)
Definition last_k : string -> nat -> regexp.caps -> option (nat * regexp.caps) :=
  fun _ p' cs => Some (p', cs).

(** A name or an address that stays on its line. *)
Definition on_one_line (pair : string * string) : bool :=
  lacks LF pair.1 && lacks LF pair.2.

(** ** Addresses of every shape *)


Definition is_ascii (c : ascii) : bool := (nat_of_ascii c <? 128)%nat.



(** The bytes [unescape] leaves in a host, and in the zone of one. *)
Definition host_legal (c : ascii) : bool :=
  negb (is_ascii c) || Ascii.eqb c "%" || negb (url.shouldEscape c url.encodeHost).
















(* ################################################################## *)
(** * Properties                                                       *)
(* ################################################################## *)

(* ================================================================== *)
(** * Reasoning about goroutine computations                           *)
(* ================================================================== *)

Lemma bind_inv {A B} (m : M A) (k : A -> M B) tr r tr' :
  bind m k tr = (r, tr') ->
  (exists a tr1, m tr = (Ok a, tr1) /\ k a tr1 = (r, tr'))
  \/ (exists e, m tr = (Err e, tr') /\ r = Err e).
Proof.
  unfold bind. destruct (m tr) as [[a|e] tr1]; intros H.
  - left. eauto.
  - right. inversion H; subst. eauto.
Qed.

Lemma bind_ok {A B} (m : M A) (k : A -> M B) tr a tr1 :
  m tr = (Ok a, tr1) -> bind m k tr = k a tr1.
Proof. unfold bind. intros ->. reflexivity. Qed.

Lemma bind_err {A B} (m : M A) (k : A -> M B) tr e tr1 :
  m tr = (Err e, tr1) -> bind m k tr = (Err e, tr1).
Proof. unfold bind. intros ->. reflexivity. Qed.

Lemma emits_ret {A} P (a : A) : emits P (ret a).
Proof. intros tr r tr' H. inversion H; subst. exists []. rewrite app_nil_r. auto. Qed.

Lemma emits_fail {A} P e : emits P (@fail A e).
Proof. intros tr r tr' H. inversion H; subst. exists []. rewrite app_nil_r. auto. Qed.

Lemma emits_lift {A} P (x : result A) : emits P (lift x).
Proof. intros tr r tr' H. inversion H; subst. exists []. rewrite app_nil_r. auto. Qed.

Lemma emits_bind {A B} P (m : M A) (k : A -> M B) :
  emits P m -> (forall a, emits P (k a)) -> emits P (bind m k).
Proof.
  intros Hm Hk tr r tr' H. apply bind_inv in H as [(a & tr1 & H1 & H2)|(e & H1 & ->)].
  - apply Hm in H1 as (ext1 & -> & F1). apply Hk in H2 as (ext2 & -> & F2).
    exists (ext1 ++ ext2). rewrite app_assoc. split; [reflexivity|].
    apply Forall_app; auto.
  - apply Hm in H1. exact H1.
Qed.

Lemma emits_call P w e : P e -> emits P (call w e).
Proof.
  intros HP tr r tr' H. unfold call in H.
  exists [e]. destruct (w_fails w tr e); inversion H; subst; auto.
Qed.

Lemma emits_ask {A} P e (answer : Trace -> result A) : P e -> emits P (ask e answer).
Proof. intros HP tr r tr' H. inversion H; subst. exists [e]. auto. Qed.

Lemma emits_wrap {A} P msg (m : M A) : emits P m -> emits P (wrap msg m).
Proof.
  intros Hm tr r tr' H. unfold wrap in H.
  destruct (m tr) as [[a|e] tr1] eqn:E; inversion H; subst; eapply Hm; eauto.
Qed.

Lemma emits_log_only P describe (m : M unit) :
  emits P m -> (forall msg, P (ELog msg)) -> emits P (log_only describe m).
Proof.
  intros Hm Hl tr r tr' H. unfold log_only in H.
  destruct (m tr) as [[a|e] tr1] eqn:E; inversion H; subst.
  - eapply Hm; eauto.
  - apply Hm in E as (ext & -> & F). exists (ext ++ [ELog (describe e)]).
    rewrite app_assoc. split; [reflexivity|]. apply Forall_app; auto.
Qed.

Lemma emits_weaken {A} (P Q : Event -> Prop) (m : M A) :
  (forall e, P e -> Q e) -> emits P m -> emits Q m.
Proof.
  intros HPQ Hm tr r tr' H. apply Hm in H as (ext & -> & F).
  exists ext. split; [reflexivity|]. eapply Forall_impl; eauto.
Qed.

Create HintDb emits.
#[local] Hint Resolve emits_ret emits_fail emits_lift emits_call emits_ask
  emits_wrap emits_log_only : emits.

(** ** What each operation of the job may emit *)

Lemma checkout_emits w a repoURL path version :
  emits (fun e => is_fetch e = true \/ exists msg, e = ELog msg)
        (checkout w a repoURL path version).
Proof.
  unfold checkout.
  repeat (apply emits_bind; [|intros _]);
    repeat first [apply emits_wrap | apply emits_log_only | apply emits_call];
    simpl; eauto.
Qed.

Lemma checkout_clones w a repoURL path version tr r tr' :
  checkout w a repoURL path version tr = (r, tr') ->
  clones tr' = clones tr ++ [(path, repoURL)].
Proof.
  unfold checkout, bind, wrap, log_only, call, clones. intros H.
  destruct (w_fails w tr (ERemoveAll path));
    repeat match type of H with
           | context [w_fails ?w ?t ?e] => destruct (w_fails w t e)
           end;
    inversion H; subst; rewrite ?flat_map_app; simpl;
    rewrite ?app_nil_r, <- ?app_assoc; reflexivity.
Qed.

(* ================================================================== *)
(** * The dispatcher                                                   *)
(* ================================================================== *)

Section Dispatcher.

Variable w : World.
Variable lib : GoLib.

Lemma jobs_app tr1 tr2 : jobs (tr1 ++ tr2) = jobs tr1 ++ jobs tr2.
Proof. unfold jobs. apply flat_map_app. Qed.

Lemma handoffs_app tr1 tr2 : handoffs (tr1 ++ tr2) = handoffs tr1 ++ handoffs tr2.
Proof. unfold handoffs. apply flat_map_app. Qed.

Lemma job_bodies_app tr1 tr2 :
    job_bodies (tr1 ++ tr2) = job_bodies tr1 ++ job_bodies tr2.
Proof. unfold job_bodies. apply flat_map_app. Qed.

Lemma jobs_spawned a requests : jobs (spawned w lib a requests) = requests.
Proof. induction requests as [|req rest IH]; simpl; [|rewrite IH]; reflexivity. Qed.

Lemma handoffs_spawned a requests : handoffs (spawned w lib a requests) = [].
Proof. induction requests as [|req rest IH]; simpl; auto. Qed.

Lemma job_bodies_spawned a requests :
    job_bodies (spawned w lib a requests)
    = map (fun req => (req, job_body w lib a req)) requests.
Proof. induction requests as [|req rest IH]; simpl; [|rewrite IH]; reflexivity. Qed.

(** The loop starts every goroutine of the batch and never fails,
    whatever the jobs return. *)
Lemma go_all_spec a requests tr :
    go_all w lib a requests tr = (Ok tt, tr ++ spawned w lib a requests).
Proof.
    revert tr. induction requests as [|req rest IH]; intros tr; simpl.
    - unfold ret. rewrite app_nil_r. reflexivity.
    - unfold bind, go_execute, emit. rewrite IH, <- app_assoc. reflexivity.
Qed.

(** The three ways [dispatch] ends. *)
Lemma dispatch_cases a overflow tr :
    (exists e, dispatch w a overflow tr
               = (Err (Wrap "error marshaling requests: " e), tr ++ [EMarshal overflow]))
    \/ (exists e, dispatch w a overflow tr
                  = (Err (Wrap "failed to dispatch requests: " e),
                     tr ++ [EMarshal overflow; EInvoke overflow]))
    \/ dispatch w a overflow tr = (Ok tt, tr ++ [EMarshal overflow; EInvoke overflow]).
Proof.
    unfold dispatch, bind, wrap, call.
    destruct (w_fails w tr (EMarshal overflow)) as [e|]; [left; eauto|].
    right. rewrite <- app_assoc. simpl.
    destruct (w_fails w (tr ++ [EMarshal overflow]) (EInvoke overflow)) as [e|];
      [left; eauto | right; reflexivity].
Qed.

(** The three ways [prepTf] ends. *)
Lemma prepTf_cases a tr :
    (exists e, prepTf w a tr = (Err e, tr ++ [EGetTerraform "latest"])
               /\ w_getTerraform w tr = Err e)
    \/ (exists e path, prepTf w a tr
                  = (Err (Wrap "failed to make terraform executable: " e),
                     tr ++ [EGetTerraform "latest"; EChmod path])
                  /\ w_getTerraform w tr = Ok path)
    \/ (exists path, prepTf w a tr
                = (Ok (with_tf a path), tr ++ [EGetTerraform "latest"; EChmod path])
                /\ w_getTerraform w tr = Ok path).
Proof.
    unfold prepTf, bind, wrap, call, ask, ret.
    destruct (w_getTerraform w tr) as [path|e]; [|left; eauto].
    right. rewrite <- app_assoc. simpl.
    destruct (w_fails w (tr ++ [EGetTerraform "latest"]) (EChmod path)) as [e|];
      [left; eauto | right; eauto].
Qed.

Lemma run_local_cases a batch tr r tr' :
    run_local w lib a batch tr = (r, tr') ->
    (exists e, r = Err e /\ jobs tr' = jobs tr /\ handoffs tr' = handoffs tr
               /\ job_bodies tr' = job_bodies tr)
    \/ (exists path, r = Ok tt
                /\ tr' = tr ++ [EGetTerraform "latest"; EChmod path]
                            ++ spawned w lib (with_tf a path) batch).
Proof.
    unfold run_local. intros H.
    destruct (prepTf_cases a tr) as [(e & Hp & _)|[(e & path & Hp & _)|(path & Hp & _)]].
    - rewrite (bind_err _ _ _ _ _ Hp) in H. inversion H; subst. left. eexists.
      rewrite jobs_app, handoffs_app, job_bodies_app. simpl.
      rewrite !app_nil_r. auto.
    - rewrite (bind_err _ _ _ _ _ Hp) in H. inversion H; subst. left. eexists.
      rewrite jobs_app, handoffs_app, job_bodies_app. simpl.
      rewrite !app_nil_r. auto.
    - rewrite (bind_ok _ _ _ _ _ Hp) in H. unfold bind in H.
      rewrite go_all_spec in H. inversion H; subst. right. exists path.
      rewrite <- app_assoc. auto.
Qed.

Lemma Run_small a requests tr :
    length requests <= cpus a ->
    Run w lib a requests tr = run_local w lib a requests tr.
Proof.
    intros Hle. unfold Run, run_local.
    destruct (Nat.ltb_spec (cpus a) (length requests)) as [Hlt|_]; [lia|].
    unfold bind at 1. unfold ret at 1.
    rewrite firstn_all. reflexivity.
Qed.

Lemma Run_large a requests tr :
    cpus a < length requests ->
    Run w lib a requests tr
    = (dispatch w a (skipn (cpus a) requests) ;;
       run_local w lib a (firstn (cpus a) requests)) tr.
Proof.
    intros Hlt. unfold Run, run_local.
    destruct (Nat.ltb_spec (cpus a) (length requests)) as [_|Hle]; [|lia].
    unfold bind. destruct (dispatch w a (skipn (cpus a) requests) tr) as [[[]|e] tr1];
      reflexivity.
Qed.

(** What the goroutine of a job does, written out: the events of
    [execute], and the log line when it failed. *)
Lemma job_body_eq a req :
    job_body w lib a req
    = snd (execute w lib a req [])
      ++ match fst (execute w lib a req []) with
         | Err e => [ELog ("failed to execute: " +:+ Name req +:+ " -> " +:+ error_text e)]
         | Ok _ => []
         end.
Proof.
    unfold job_body. destruct (execute w lib a req []) as [[u|e] body]; simpl;
      [rewrite app_nil_r|]; reflexivity.
Qed.

(** The two ways [Run] ends: with an error before any goroutine was
    started, the overflow handed off or not; or with nil, the overflow
    handed off, the tool installed and one goroutine started for every
    request of the local batch. *)
Lemma Run_outcomes a requests r tr :
    Run w lib a requests [] = (r, tr) ->
    (exists e, r = Err e /\ jobs tr = [] /\ job_bodies tr = []
               /\ (handoffs tr = []
                   \/ (cpus a < length requests
                       /\ handoffs tr = [skipn (cpus a) requests])))
    \/ (exists path, r = Ok tt
          /\ tr = (if (cpus a <? length requests)%nat
                   then [EMarshal (skipn (cpus a) requests);
                         EInvoke (skipn (cpus a) requests)]
                   else [])
                  ++ [EGetTerraform "latest"; EChmod path]
                  ++ spawned w lib (with_tf a path) (firstn (cpus a) requests)).
Proof.
    intros HRun.
    destruct (Nat.ltb_spec (cpus a) (length requests)) as [Hlt|Hle].
    - rewrite Run_large in HRun by exact Hlt.
      apply bind_inv in HRun as [([] & tr1 & Hd & Hl)|(e & Hd & ->)].
      + assert (Htr1 : tr1 = [EMarshal (skipn (cpus a) requests);
                              EInvoke (skipn (cpus a) requests)]).
        { destruct (dispatch_cases a (skipn (cpus a) requests) [])
            as [(e & He)|[(e & He)|He]]; rewrite He in Hd; inversion Hd; reflexivity. }
        subst tr1.
        apply run_local_cases in Hl as [(e & -> & Hj & Hh & Hb)|(path & -> & ->)].
        * left. exists e. rewrite Hj, Hh, Hb. simpl.
          split; [reflexivity|]. split; [reflexivity|]. split; [reflexivity|].
          right. split; [exact Hlt|reflexivity].
        * right. exists path. auto.
      + left. exists e. split; [reflexivity|].
        destruct (dispatch_cases a (skipn (cpus a) requests) [])
          as [(e' & He)|[(e' & He)|He]]; rewrite He in Hd; inversion Hd; subst; simpl.
        * auto.
        * split; [reflexivity|]. split; [reflexivity|]. right. split; [exact Hlt|reflexivity].
    - rewrite Run_small in HRun by exact Hle.
      apply run_local_cases in HRun as [(e & -> & Hj & Hh & Hb)|(path & -> & ->)].
      + left. exists e. rewrite Hj, Hh, Hb. simpl. auto.
      + right. exists path. rewrite firstn_all2 by exact Hle. auto.
Qed.

End Dispatcher.

Section DispatcherClaims.

Variable w : World.
Variable lib : GoLib.

(** C1, as the code has it.  [Run] cuts the batch at the capacity [cpus].
    Nothing but [requests[cpus:]], in its order, is ever handed to the
    fan-out invocation, at most once, and never when the batch is not
    longer than [cpus].  When [Run] returns nil, that tail was handed off
    (if the batch is longer), the tool was installed, and the goroutines
    started are exactly those of [requests[:cpus]], in order, each doing
    the whole [execute] of its request and logging its error.  When [Run]
    returns an error, no request was executed here, although the tail may
    already have been handed off. *)
Theorem Run_partitions_at_capacity (a : App) (requests : list Request) r tr :
  Run w lib a requests [] = (r, tr) ->
  (length requests <= cpus a -> handoffs tr = [])
  /\ (cpus a < length requests ->
      handoffs tr = [] \/ handoffs tr = [skipn (cpus a) requests])
  /\ (r = Ok tt ->
      (cpus a < length requests -> handoffs tr = [skipn (cpus a) requests])
      /\ jobs tr = firstn (cpus a) requests
      /\ (length requests <= cpus a -> jobs tr = requests)
      /\ exists path,
          In (EChmod path) tr
          /\ job_bodies tr
             = map (fun req =>
                      (req,
                       snd (execute w lib (with_tf a path) req [])
                       ++ match fst (execute w lib (with_tf a path) req []) with
                          | Err e => [ELog ("failed to execute: " +:+ Name req
                                            +:+ " -> " +:+ error_text e)]
                          | Ok _ => []
                          end))
                   (firstn (cpus a) requests))
  /\ (forall e, r = Err e -> jobs tr = [] /\ job_bodies tr = []).
Proof.
  intros HRun.
  apply Run_outcomes in HRun
    as [(e & -> & Hj & Hb & Hh)|(path & -> & ->)].
  - split; [|split; [|split]].
    + intros Hle. destruct Hh as [Hh|[Hlt _]]; [exact Hh|lia].
    + intros _. destruct Hh as [Hh|[_ Hh]]; auto.
    + discriminate.
    + auto.
  - rewrite !handoffs_app, !jobs_app, !job_bodies_app.
    rewrite handoffs_spawned, jobs_spawned, job_bodies_spawned.
    destruct (Nat.ltb_spec (cpus a) (length requests)) as [Hlt|Hle]; simpl.
    + split; [lia|]. split; [auto|]. split; [|discriminate].
      split; [auto|]. split; [reflexivity|]. split; [lia|].
      exists path. split; [auto|].
      apply map_ext. intros req. rewrite job_body_eq. reflexivity.
    + split; [auto|]. split; [lia|]. split; [|discriminate].
      split; [lia|]. split; [reflexivity|].
      split; [intros _; apply firstn_all2; exact Hle|].
      exists path. split; [auto|].
      apply map_ext. intros req. rewrite job_body_eq. reflexivity.
Qed.

(** C2.  A failing job neither cancels its siblings nor fails the batch.
    [Run] returns an error only when no goroutine was started; once they
    are started, every request of the local batch has its goroutine, each
    goroutine runs its own [execute] to the end whatever the others return,
    and [Run] returns nil.  The error of a job appears in the log line that
    ends the job's own body and nowhere in the result of [Run]. *)
Theorem job_failure_is_isolated (a : App) (requests : list Request) r tr :
  Run w lib a requests [] = (r, tr) ->
  (forall e, r = Err e -> jobs tr = [])
  /\ (jobs tr <> [] ->
      r = Ok tt
      /\ jobs tr = firstn (cpus a) requests
      /\ exists path,
          job_bodies tr
          = map (fun req => (req, job_body w lib (with_tf a path) req))
                (firstn (cpus a) requests))
  /\ (forall a' req e body,
        execute w lib a' req [] = (Err e, body) ->
        job_body w lib a' req
        = body ++ [ELog ("failed to execute: " +:+ Name req +:+ " -> " +:+ error_text e)]).
Proof.
  intros HRun.
  assert (Hcases :
    (exists e, r = Err e /\ jobs tr = [])
    \/ (exists path, r = Ok tt /\ jobs tr = firstn (cpus a) requests
        /\ job_bodies tr = map (fun req => (req, job_body w lib (with_tf a path) req))
                               (firstn (cpus a) requests))).
  { destruct (Nat.lt_ge_cases (cpus a) (length requests)) as [Hlt|Hle].
    - rewrite Run_large in HRun by exact Hlt.
      apply bind_inv in HRun as [([] & tr1 & Hd & Hl)|(e & Hd & ->)].
      + assert (Htr1 : jobs tr1 = [] /\ job_bodies tr1 = []).
        { destruct (dispatch_cases w a (skipn (cpus a) requests) [])
            as [(e & He)|[(e & He)|He]]; rewrite He in Hd; inversion Hd; auto. }
        destruct Htr1 as [Hj1 Hb1].
        apply run_local_cases in Hl as [(e & -> & Hj & _ & _)|(path & -> & ->)].
        * left. exists e. rewrite Hj. auto.
        * right. exists path.
          rewrite !jobs_app, !job_bodies_app, Hj1, Hb1, jobs_spawned, job_bodies_spawned.
          simpl. auto.
      + left. exists e. split; [reflexivity|].
        destruct (dispatch_cases w a (skipn (cpus a) requests) [])
          as [(e' & He)|[(e' & He)|He]]; rewrite He in Hd; inversion Hd; reflexivity.
    - rewrite Run_small in HRun by exact Hle.
      apply run_local_cases in HRun as [(e & -> & Hj & _ & _)|(path & -> & ->)].
      + left. exists e. auto.
      + right. exists path.
        rewrite !jobs_app, !job_bodies_app, jobs_spawned, job_bodies_spawned.
        rewrite firstn_all2 by exact Hle. simpl. auto. }
  split; [|split].
  - intros e ->. destruct Hcases as [(e' & _ & Hj)|(path & Hr & _)]; [exact Hj|discriminate].
  - intros Hne. destruct Hcases as [(e' & _ & Hj)|(path & Hr & Hj & Hb)]; [contradiction|].
    eauto.
  - intros a' req e body He. unfold job_body. rewrite He. reflexivity.
Qed.

(** C9, as the code has it.  On the empty batch [Run] performs no hand-off
    and starts no goroutine, but it still prepares the terraform binary:
    its trace and its result are those of [prepTf], so it returns nil
    exactly when the preparation succeeds and the error of the preparation
    otherwise. *)
Theorem Run_empty_batch (a : App) :
  handoffs (snd (Run w lib a [] [])) = []
  /\ jobs (snd (Run w lib a [] [])) = []
  /\ Run w lib a [] [] = (prepTf w a ;; ret tt) [].
Proof.
  rewrite Run_small by (simpl; lia).
  unfold run_local, bind. simpl.
  destruct (prepTf_cases w a []) as [(e & Hp & _)|[(e & path & Hp & _)|(path & Hp & _)]];
    rewrite Hp; simpl; auto.
Qed.

End DispatcherClaims.

(** Three requests on two CPUs: the third is handed off, the first two run
    here, each to the end of its [execute]. *)
Lemma Run_partitions_at_capacity_witness :
  handoffs (snd (Run calm lib0 app2 [acct1; acct2; acct3] [])) = [[acct3]]
  /\ jobs (snd (Run calm lib0 app2 [acct1; acct2; acct3] [])) = [acct1; acct2]
  /\ map fst (job_bodies (snd (Run calm lib0 app2 [acct1; acct2; acct3] [])))
     = [acct1; acct2].
Proof.
  destruct (Run_partitions_at_capacity calm lib0 app2 [acct1; acct2; acct3] _ _
              (surjective_pairing _)) as (_ & _ & H & _).
  destruct H as (Hh & Hj & _ & path & _ & Hb); [vm_compute; reflexivity|].
  split; [apply Hh; simpl; lia|]. split; [exact Hj|].
  rewrite Hb. reflexivity.
Defined.

(** C1 as stated fails: with the release server unreachable, [Run] on
    three requests and two CPUs hands the third request off and then
    returns the error of the tool preparation; none of the first two is
    executed. *)
Lemma handoff_without_local_jobs :
  Run offline lib0 app2 [acct1; acct2; acct3] []
  = (Err (External "failed to HEAD terraform repo"),
     [EMarshal [acct3]; EInvoke [acct3]; EGetTerraform "latest"])
  /\ handoffs (snd (Run offline lib0 app2 [acct1; acct2; acct3] [])) = [[acct3]]
  /\ jobs (snd (Run offline lib0 app2 [acct1; acct2; acct3] [])) = []
  /\ firstn (cpus app2) [acct1; acct2; acct3] = [acct1; acct2].
Proof. vm_compute. auto. Qed.

(** Two jobs whose [terraform init] fails: both ran, and [Run] returned nil. *)
Lemma job_failure_is_isolated_witness :
  fst (Run init_fails lib0 app2 [acct1; acct2] []) = Ok tt
  /\ jobs (snd (Run init_fails lib0 app2 [acct1; acct2] [])) = [acct1; acct2].
Proof.
  destruct (job_failure_is_isolated init_fails lib0 app2 [acct1; acct2] _ _
              (surjective_pairing _)) as (_ & H & _).
  destruct H as (Hr & Hj & _); [vm_compute; discriminate|].
  split; [exact Hr | exact Hj].
Defined.

(** C9 as stated fails: with the release server unreachable, [Run] on the
    empty batch has tried to fetch the tool and returns the error. *)
Lemma Run_empty_batch_not_immediate :
  Run offline lib0 app2 [] []
  = (Err (External "failed to HEAD terraform repo"), [EGetTerraform "latest"])
  /\ fst (Run offline lib0 app2 [] []) <> Ok tt.
Proof. split; [vm_compute; reflexivity | vm_compute; discriminate]. Qed.

(* ================================================================== *)
(** * The job executor                                                 *)
(* ================================================================== *)


Lemma emits_step {A B} P (m : M A) (k : A -> M B) tr r tr' :
  emits P m -> Forall P tr -> bind m k tr = (r, tr') ->
  (exists a tr1, Forall P tr1 /\ k a tr1 = (r, tr'))
  \/ (exists e, r = Err e /\ Forall P tr').
Proof.
  intros Hm Htr H. apply bind_inv in H as [(a & tr1 & H1 & H2)|(e & H1 & ->)].
  - left. exists a, tr1. split; [|exact H2].
    apply Hm in H1 as (ext & -> & F). apply Forall_app; auto.
  - right. exists e. split; [reflexivity|].
    apply Hm in H1 as (ext & -> & F). apply Forall_app; auto.
Qed.

Lemma checkout_quiet w a repoURL path version :
  emits quiet (checkout w a repoURL path version).
Proof.
  eapply emits_weaken; [|apply checkout_emits].
  intros e [H|[msg ->]]; [destruct e; try discriminate; reflexivity | reflexivity].
Qed.

Lemma checkout_modules_quiet w a modpath modules :
  emits quiet (checkout_modules w a modpath modules).
Proof.
  induction modules as [|m rest IH]; simpl.
  - apply emits_ret.
  - apply emits_bind; [apply emits_lift|]. intros ur.
    apply emits_bind; [apply checkout_quiet|]. intros _. exact IH.
Qed.

Lemma getModules_quiet w a path : emits quiet (getModules w a path).
Proof.
  unfold getModules, readModules.
  apply emits_bind.
  { apply emits_bind; [apply emits_wrap, emits_ask; reflexivity|].
    intros content. apply emits_lift. }
  intros modules.
  apply emits_bind; [apply checkout_modules_quiet|]. intros _.
  apply emits_bind; [|intros _]; apply emits_wrap, emits_call; reflexivity.
Qed.

Lemma answers_from_app w pre tr1 tr2 :
  answers_from w pre (tr1 ++ tr2)
  = answers_from w pre tr1 ++ answers_from w (pre ++ tr1) tr2.
Proof.
  revert pre. induction tr1 as [|e tr1 IH]; intros pre; simpl.
  - rewrite app_nil_r. reflexivity.
  - rewrite IH, <- app_assoc. reflexivity.
Qed.

Lemma answers_from_event w pre tr e ans :
  In (e, ans) (answers_from w pre tr) -> In e tr.
Proof.
  revert pre. induction tr as [|x tr IH]; intros pre; simpl; [tauto|].
  intros [H|H]; [inversion H; auto | right; eauto].
Qed.

Lemma quiet_not_process tr e :
  Forall quiet tr -> In e tr -> is_process_event e = false.
Proof. intros F Hin. rewrite List.Forall_forall in F. apply F, Hin. Qed.

Ltac split_trace_membership H Hq :=
  apply in_app_or in H as [H|H];
  [ apply (quiet_not_process _ _ Hq) in H; discriminate H | simpl in H ].

Ltac normalize_answers :=
  unfold answers; rewrite answers_from_app; simpl;
  repeat (rewrite <- app_assoc; simpl).

Ltac use_answers :=
  repeat match goal with
         | E : w_fails _ _ _ = _ |- _ => rewrite E
         end.

(** The gate holds from the initialization step on, whatever came before
    it, as long as no subprocess event did. *)
Lemma terraform_steps_gate w a path req env tr0 r tr :
  Forall quiet tr0 ->
  terraform_steps w a path req env tr0 = (r, tr) ->
  init_gate w a r tr.
Proof.
  intros Hq H.
  unfold terraform_steps, runTf, bind, wrap, call, reader, ret in H.
  repeat match type of H with
         | context [w_fails ?w ?t ?e] =>
             let E := fresh "E" in destruct (w_fails w t e) eqn:E
         | context [readOutput ?n ?x ?y] => destruct (readOutput n x y)
         end.
  all: inversion H; subst; clear H.
  all: repeat rewrite <- app_assoc in *; simpl in *.
  all: split.
  all: try (intros apply Hin Hargs; split_trace_membership Hin Hq;
            repeat (destruct Hin as [Hin|Hin]; [try discriminate Hin|]); try contradiction;
            try (injection Hin as <-; try discriminate Hargs)).
  all: try (exists {| cmd_Path := tf a; cmd_Args := init_args; cmd_Env := env;
                      cmd_Dir := path |};
            split; [reflexivity|];
            normalize_answers; use_answers; split; apply in_or_app; right; simpl; tauto).
  all: intros init ev err Hargs Hsteps Hans.
  all: unfold answers in Hans; rewrite answers_from_app in Hans;
       apply in_app_or in Hans as [Hans|Hans];
       [ apply answers_from_event in Hans;
         apply (quiet_not_process _ _ Hq) in Hans;
         simpl in Hsteps; intuition (subst; discriminate)
       | ].
  all: simpl in Hans; repeat (rewrite <- app_assoc in Hans; simpl in Hans).
  all: repeat match goal with
         | E : w_fails _ _ _ = _ |- _ => rewrite E in Hans; clear E
         end.
  all: simpl in Hsteps.
  all: destruct Hsteps as [<-|[<-|[<-|[<-|[]]]]].
  all: repeat (destruct Hans as [Hans|Hans]; [try discriminate Hans|]); try contradiction.
  all: try (injection Hans as -> ->).
  all: try discriminate Hargs.
  all: split; [reflexivity|].
  all: intros apply Hin Hargs'; split_trace_membership Hin Hq.
  all: repeat (destruct Hin as [Hin|Hin]; [try discriminate Hin|]); try contradiction.
  all: injection Hin as Heq; subst.
  all: try (rewrite Hargs in Hargs'; discriminate Hargs').
  all: simpl in Hargs'; discriminate Hargs'.
Qed.

(** A run of [execute] that ends before the initialization step leaves a
    trace without subprocess events, on which the gate holds trivially. *)
Lemma quiet_gate w a e tr : Forall quiet tr -> init_gate w a (Err e) tr.
Proof.
  intros Hq. split.
  - intros apply Hin _. apply (quiet_not_process _ _ Hq) in Hin. discriminate Hin.
  - intros init ev err _ Hsteps Hans. unfold answers in Hans.
    apply answers_from_event in Hans. apply (quiet_not_process _ _ Hq) in Hans.
    simpl in Hsteps. intuition (subst; discriminate).
Qed.

(** On every finished run of [execute] the gate holds. *)
Lemma execute_init_gate w lib a req r tr :
  execute w lib a req [] = (r, tr) -> init_gate w a r tr.
Proof.
  intros H. unfold execute in H. cbv zeta in H.
  assert (Hq : Forall quiet (@nil Event)) by constructor.
  revert H Hq. generalize (@nil Event) as tr0. intros tr0 H Hq.
  repeat match type of H with
         | bind (runTf _ _ _ _ _ _) _ _ = _ => fail 1
         | bind ?m ?k ?t = _ =>
             let Hm := fresh "Hm" in
             assert (Hm : emits quiet m)
               by first [ apply checkout_quiet | apply getModules_quiet
                        | unfold createBackend, assumeRole, createGitConfig;
                          first [ apply emits_wrap, emits_call; reflexivity
                                | apply emits_wrap, emits_ask; reflexivity ] ];
             destruct (emits_step quiet m k t _ _ Hm Hq H)
               as [(? & ? & Hq' & H')|(? & -> & Hq')];
             clear H Hm;
             [ clear Hq; rename Hq' into Hq; rename H' into H
             | apply quiet_gate; exact Hq' ]
         end.
  eapply terraform_steps_gate; [exact Hq|exact H].
Qed.

(** C3.  The apply step runs only if the initialization step exited
    successfully: on every run of [execute], a started [apply] process has
    before it an [init] process that was started and awaited without
    error; and if a step of the [init] invocation (opening its pipes,
    starting it) or its [Wait] returned an error, [execute] returned that
    error and never started the [apply] process. *)
Theorem apply_only_after_init w lib a req r tr :
  execute w lib a req [] = (r, tr) ->
  (forall apply,
      In (EStart apply) tr -> cmd_Args apply = apply_args ->
      exists init, cmd_Args init = init_args
                   /\ In (EStart init, None) (answers w tr)
                   /\ In (EWait init, None) (answers w tr))
  /\ (forall init e err,
        cmd_Args init = init_args -> In e (run_steps init) ->
        In (e, Some err) (answers w tr) ->
        r = Err (step_error a e err)
        /\ forall apply, In (EStart apply) tr -> cmd_Args apply <> apply_args).
Proof. intros H. exact (execute_init_gate w lib a req r tr H). Qed.

(** A job whose [terraform init] exits with an error: [execute] returns
    that error and starts no [apply]. *)
Lemma apply_only_after_init_witness :
  fst (execute init_fails lib0 app2 acct1 []) = Err (External "exit status 1")
  /\ forall apply,
      In (EStart apply) (snd (execute init_fails lib0 app2 acct1 [])) ->
      cmd_Args apply <> apply_args.
Proof.
  destruct (apply_only_after_init init_fails lib0 app2 acct1 _ _
              (surjective_pairing _)) as [_ H].
  apply (H acct1_init (EWait acct1_init) (External "exit status 1")).
  - reflexivity.
  - simpl. tauto.
  - vm_compute. repeat (first [left; reflexivity | right]).
Defined.

(* ================================================================== *)
(** * The module resolver                                              *)
(* ================================================================== *)

Lemma append_nil_l (s : string) : "" +:+ s = s.
Proof. reflexivity. Qed.

Lemma append_cons (c : ascii) (s t : string) : String c s +:+ t = String c (s +:+ t).
Proof. reflexivity. Qed.

Lemma append_nil_r (s : string) : s +:+ "" = s.
Proof.
  induction s as [|c s IH]; [reflexivity|].
  rewrite append_cons, IH. reflexivity.
Qed.

Lemma append_assoc (s1 s2 s3 : string) : (s1 +:+ s2) +:+ s3 = s1 +:+ (s2 +:+ s3).
Proof.
  induction s1 as [|c s1 IH]; [reflexivity|].
  rewrite !append_cons, IH. reflexivity.
Qed.

Lemma Split_nonempty s sep : strings.Split s sep <> [].
Proof.
  destruct s as [|c s]; simpl; [discriminate|].
  destruct (Ascii.eqb c sep); [discriminate|].
  destruct (strings.Split s sep); discriminate.
Qed.

(** Splitting at the first separator. *)
Lemma Split_app_sep (s rest : string) (sep : ascii) :
  strings.CountByte s sep = 0 ->
  strings.Split (s +:+ String sep rest) sep = s :: strings.Split rest sep.
Proof.
  induction s as [|c s IH]; intros H.
  - rewrite append_nil_l. simpl. rewrite Ascii.eqb_refl. reflexivity.
  - rewrite append_cons. simpl in *.
    destruct (Ascii.eqb c sep) eqn:E; [discriminate|].
    rewrite IH by exact H. reflexivity.
Qed.

Lemma Split_app a b sep :
  strings.Split (a +:+ String sep b) sep = strings.Split a sep ++ strings.Split b sep.
Proof.
  induction a as [|c a IH].
  - rewrite append_nil_l. simpl. rewrite Ascii.eqb_refl. reflexivity.
  - rewrite append_cons. simpl. destruct (Ascii.eqb c sep); rewrite IH; [reflexivity|].
    pose proof (Split_nonempty a sep) as Hne.
    destruct (strings.Split a sep); [contradiction|reflexivity].
Qed.

Lemma Split_no_sep (s : string) (sep : ascii) :
  strings.CountByte s sep = 0 -> strings.Split s sep = [s].
Proof.
  induction s as [|c s IH]; simpl; intros H; [reflexivity|].
  destruct (Ascii.eqb c sep) eqn:E; [discriminate|].
  rewrite IH by exact H. reflexivity.
Qed.

Lemma plain_element_spec key :
  plain_element key = true ->
  key <> "" /\ String.eqb key "" = false /\ String.eqb key "." = false
  /\ String.eqb key ".." = false /\ strings.CountByte key "/" = 0.
Proof.
  unfold plain_element, nonempty. intros H.
  apply andb_prop in H as [H H4]. apply andb_prop in H as [H H3].
  apply andb_prop in H as [H1 H2].
  apply negb_true_iff in H1, H2, H3. apply Nat.eqb_eq in H4.
  repeat split; auto. intros ->. discriminate.
Qed.





(** The same descriptor, read from the text of an entry file. *)
Example readModules_example :
  readModules_content "/tmp/acct-1/main.tf" main_tf
  = Ok [ {| Key := "foo"; Source := example_address;
            Dir := ".terraform/modules/foo/modules/foo";
            RootDir := ".terraform/modules/foo" |} ].
Proof. vm_compute. reflexivity. Qed.

(** A literal prefix of a pattern must be a prefix of the input. *)
Lemma rmatch_lits_mismatch {R} (l : string) (r : regexp.regex) s p cs
      (k : string -> nat -> regexp.caps -> option R) :
  strings.HasPrefix s l = false ->
  regexp.rmatch (regexp.Cat (regexp.lits l) r) s p cs k = None.
Proof.
  simpl. revert s p. induction l as [|c l IH]; intros s p H; [destruct s; discriminate|].
  simpl. destruct s as [|d s]; [reflexivity|].
  simpl in H. rewrite Ascii.eqb_sym.
  destruct (Ascii.eqb d c); [|reflexivity].
  simpl in H. apply IH, H.
Qed.

Lemma index_from_eq i s substr :
  strings.index_from i s substr
  = if strings.HasPrefix s substr then Some i
    else match s with
         | "" => None
         | String _ s' => strings.index_from (S i) s' substr
         end.
Proof. destruct s; reflexivity. Qed.

Lemma index_from_None i s substr :
  strings.index_from i s substr = None ->
  forall q, strings.HasPrefix (strings.drop q s) substr = false.
Proof.
  revert i. induction s as [|c s IH]; intros i H q; rewrite index_from_eq in H.
  - destruct (strings.HasPrefix "" substr) eqn:E; [discriminate|].
    destruct q; exact E.
  - destruct (strings.HasPrefix (String c s) substr) eqn:E; [discriminate|].
    destruct q as [|q]; [exact E|]. simpl. eapply IH, H.
Qed.

(** An entry file in which the word module followed by a space and a
    quote does not occur holds no module declaration. *)
Lemma no_module_keyword_no_match content :
  strings.Contains content ("module " +:+ dq) = false ->
  regexp.FindAllStringSubmatch module_pattern 2 content = [].
Proof.
  unfold strings.Contains, strings.Index. intros H.
  destruct (strings.index_from 0 content ("module " +:+ dq)) as [i|] eqn:E.
  { apply Z.leb_gt in H. lia. }
  pose proof (index_from_None _ _ _ E) as Hno.
  assert (Hfind : forall fuel p, regexp.find_from module_pattern content p fuel = None).
  { induction fuel as [|fuel IH]; intros p; simpl;
      unfold regexp.match_at, module_pattern;
      rewrite rmatch_lits_mismatch by apply Hno; [reflexivity|apply IH]. }
  unfold regexp.FindAllStringSubmatch. simpl.
  rewrite Hfind. reflexivity.
Qed.

(** C5.  When the entry file holds no module declaration, module
    resolution fails with the error that no module was found, and all it
    has done is read the file: no repository is removed, cloned or checked
    out. *)
Theorem no_module_no_fetch w a path content tr :
  w_readFile w tr (filepath.Clean path) = Ok content ->
  regexp.FindAllStringSubmatch module_pattern 2 content = [] ->
  getModules w a path tr
  = (Err (Errorf ("failed to find a module in " +:+ path)),
     tr ++ [EReadFile (filepath.Clean path)])
  /\ clones (snd (getModules w a path tr)) = clones tr
  /\ List.filter is_fetch (snd (getModules w a path tr)) = List.filter is_fetch tr.
Proof.
  intros Hread Hnone.
  assert (E : getModules w a path tr
              = (Err (Errorf ("failed to find a module in " +:+ path)),
                 tr ++ [EReadFile (filepath.Clean path)])).
  { unfold getModules, readModules, bind, wrap, ask, lift, readModules_content.
    rewrite Hread, Hnone. reflexivity. }
  rewrite E. simpl. split; [reflexivity|]. split.
  - unfold clones. rewrite flat_map_app. simpl. apply app_nil_r.
  - rewrite List.filter_app. simpl. apply app_nil_r.
Qed.

(** A root module made of a single resource. *)
Lemma no_module_no_fetch_witness :
  getModules calm_without_modules app2 "/tmp/acct-1/main.tf" []
  = (Err (Errorf "failed to find a module in /tmp/acct-1/main.tf"),
     [EReadFile "/tmp/acct-1/main.tf"]).
Proof.
  apply (no_module_no_fetch calm_without_modules app2 "/tmp/acct-1/main.tf"
           resource_tf []).
  - reflexivity.
  - apply no_module_keyword_no_match. vm_compute. reflexivity.
Defined.

Lemma RootDir_of_read_modules matches modules :
  modules_of_matches matches = Ok modules ->
  Forall (fun m => RootDir m = ".terraform/modules/" +:+ Key m) modules.
Proof.
  revert modules. induction matches as [|mt rest IH]; intros modules H; simpl in H.
  - inversion H. constructor.
  - destruct (module_of_match (nth 1 mt "") (nth 2 mt "")) as [md|e] eqn:E; [|discriminate].
    destruct (modules_of_matches rest) as [mds|e]; [|discriminate].
    inversion H; subst. constructor; [|apply IH; reflexivity].
    unfold module_of_match in E. destruct (url.Parse (nth 2 mt "")); [|discriminate].
    inversion E. reflexivity.
Qed.

Lemma clones_app tr1 tr2 : clones (tr1 ++ tr2) = clones tr1 ++ clones tr2.
Proof. unfold clones. apply flat_map_app. Qed.

(** The loop of [getModules] clones module after module, each into the
    directory named by its key, until one fails. *)
Lemma checkout_modules_clones w a modpath modules tr r tr' :
  checkout_modules w a modpath modules tr = (r, tr') ->
  exists n,
    n <= length modules
    /\ clones tr'
       = clones tr
         ++ map (fun m => (filepath.Join [modpath; Key m], clone_url m)) (firstn n modules)
    /\ (r = Ok tt -> n = length modules).
Proof.
  revert tr. induction modules as [|m rest IH]; intros tr H; simpl in H.
  - inversion H; subst. exists 0. simpl. rewrite app_nil_r. auto.
  - unfold bind at 1 in H. unfold lift in H.
    destruct (normalizedSource (Source m)) as [[u ref]|e] eqn:En.
    + simpl in H. apply bind_inv in H as [([] & tr1 & Hc & Hrest)|(e & Hc & ->)].
      * apply checkout_clones in Hc. apply IH in Hrest as (n & Hn & Hcl & Hok).
        exists (S n). simpl. split; [lia|]. split.
        -- rewrite Hcl, Hc, <- app_assoc. unfold clone_url. rewrite En. reflexivity.
        -- intros Hr. rewrite (Hok Hr). reflexivity.
      * apply checkout_clones in Hc. exists 1. simpl. split; [lia|]. split.
        -- rewrite Hc. unfold clone_url. rewrite En. reflexivity.
        -- discriminate.
    + inversion H; subst. exists 0. simpl. rewrite app_nil_r.
      split; [lia|]. split; [reflexivity|discriminate].
Qed.

(** C10.  Every module is cloned into the directory of its key below the
    modules directory, [<modules-root>/<Key>], whatever sub-path its source
    names after the [.git] marker: the clones [getModules] makes are, in
    order, those of the modules read from the entry file (all of them when
    it succeeds), each from its normalized address into
    [filepath.Join(modpath, m.Key)], the directory its [RootDir] names
    below the job's working tree.  The sub-path only enters the [Dir] of
    the descriptor, which reaches the manifest and no clone. *)
Theorem modules_cloned_into_root w a path content modules tr r tr' :
  w_readFile w tr (filepath.Clean path) = Ok content ->
  readModules_content path content = Ok modules ->
  getModules w a path tr = (r, tr') ->
  exists n,
    n <= length modules
    /\ clones tr'
       = clones tr
         ++ map (fun m => (filepath.Join [modules_root path; Key m], clone_url m))
                (firstn n modules)
    /\ (r = Ok tt ->
        n = length modules
        /\ In (EEncode (filepath.Join [modules_root path; "modules.json"]) modules) tr')
    /\ Forall (fun m => RootDir m = ".terraform/modules/" +:+ Key m) modules.
Proof.
  intros Hread Hmods H.
  assert (Hroot : Forall (fun m => RootDir m = ".terraform/modules/" +:+ Key m) modules).
  { unfold readModules_content in Hmods.
    destruct (regexp.FindAllStringSubmatch module_pattern 2 content) as [|mt rest] eqn:E;
      [discriminate|].
    eapply RootDir_of_read_modules, Hmods. }
  unfold getModules in H.
  assert (Hrm : readModules w path tr
                = (Ok modules, tr ++ [EReadFile (filepath.Clean path)])).
  { unfold readModules, bind, wrap, ask, lift. rewrite Hread, Hmods. reflexivity. }
  rewrite (bind_ok _ _ _ _ _ Hrm) in H. fold (modules_root path) in H.
  apply bind_inv in H as [([] & tr1 & Hloop & Hrest)|(e & Hloop & ->)].
  - apply checkout_modules_clones in Hloop as (n & Hn & Hcl & Hok).
    rewrite clones_app in Hcl. simpl in Hcl. rewrite app_nil_r in Hcl.
    specialize (Hok eq_refl). subst n.
    exists (length modules). split; [lia|].
    unfold bind, wrap, call in Hrest.
    repeat match type of Hrest with
           | context [w_fails ?w ?t ?e] => destruct (w_fails w t e)
           end;
      inversion Hrest; subst; rewrite ?clones_app; simpl; rewrite ?app_nil_r;
      (split; [exact Hcl|]); (split; [|exact Hroot]); try discriminate.
    intros _. split; [reflexivity|]. apply in_or_app. right. left. reflexivity.
  - apply checkout_modules_clones in Hloop as (n & Hn & Hcl & Hok).
    rewrite clones_app in Hcl. simpl in Hcl. rewrite app_nil_r in Hcl.
    exists n. split; [exact Hn|]. split; [exact Hcl|]. split; [discriminate|exact Hroot].
Qed.

(** The module of the example: its source names the sub-path
    [modules/foo], its descriptor records it, and the clone goes to the
    directory of the key. *)
Lemma modules_cloned_into_root_witness :
  clones (snd (getModules calm app2 "/tmp/acct-1/main.tf" []))
  = [("/tmp/acct-1/.terraform/modules/foo", "https://example.com/org/repo")]
  /\ In (EEncode "/tmp/acct-1/.terraform/modules/modules.json"
           [ {| Key := "foo"; Source := example_address;
                Dir := ".terraform/modules/foo/modules/foo";
                RootDir := ".terraform/modules/foo" |} ])
        (snd (getModules calm app2 "/tmp/acct-1/main.tf" [])).
Proof.
  destruct (modules_cloned_into_root calm app2 "/tmp/acct-1/main.tf" main_tf _ []
              _ _ eq_refl readModules_example (surjective_pairing _))
    as (n & Hn & Hcl & Hok & _).
  destruct Hok as [-> Hin]; [vm_compute; reflexivity|].
  split; [rewrite Hcl; vm_compute; reflexivity | exact Hin].
Defined.

(* ================================================================== *)
(** * The execution environment and the backend file                   *)
(* ================================================================== *)

Lemma In_getEnv_range lib entries x :
  In x (getEnv_range lib entries)
  <-> exists k v, In (k, v) entries /\ In x (getEnv_entry lib k v).
Proof.
  unfold getEnv_range. rewrite in_flat_map. split.
  - intros ([k v] & Hin & Hx). eauto.
  - intros (k & v & Hin & Hx). exists (k, v). auto.
Qed.

Lemma example_decoded_entries k v :
  example_decoded !! k = Some v ->
  (k = "count" /\ v = VFloat64 float_three) \/ (k = "enabled" /\ v = VBool true).
Proof.
  unfold example_decoded. intros H.
  destruct (decide (k = "count")) as [->|Hc].
  - rewrite lookup_insert_eq in H. inversion H. auto.
  - rewrite lookup_insert_ne in H by congruence.
    destruct (decide (k = "enabled")) as [->|He].
    + rewrite lookup_insert_eq in H. inversion H. auto.
    + rewrite lookup_insert_ne in H by congruence. rewrite lookup_empty in H. discriminate.
Qed.

(** The type switch does render an [int64] in base 10. *)
Lemma getEnv_int64 lib k n : getEnv_entry lib k (VInt64 n) = [k +:+ "=" +:+ fmt.verb_d n].
Proof. reflexivity. Qed.

Example getEnv_int64_three lib : getEnv_entry lib "count" (VInt64 3) = ["count=3"].
Proof. reflexivity. Qed.

(** Whatever the order in which the map is ranged over. *)
Lemma getEnv_example_any_order lib (entries : list (string * GoValue)) :
  Permutation entries (map_to_list example_decoded) ->
  In "enabled=true" (getEnv_range lib entries)
  /\ In "count=3.000000" (getEnv_range lib entries)
  /\ ~ In "count=3" (getEnv_range lib entries).
Proof.
  intros Hperm.
  assert (Hin : forall k v, In (k, v) entries <-> example_decoded !! k = Some v).
  { intros k v. rewrite <- elem_of_map_to_list, <- list_elem_of_In.
    split; intros H; [rewrite <- Hperm | rewrite Hperm]; exact H. }
  repeat split.
  - apply In_getEnv_range. exists "enabled", (VBool true).
    split; [apply Hin; vm_compute; reflexivity | left; vm_compute; reflexivity].
  - apply In_getEnv_range. exists "count", (VFloat64 float_three).
    split; [apply Hin; vm_compute; reflexivity | left; vm_compute; reflexivity].
  - intros H. apply In_getEnv_range in H as (k & v & Hkv & Hx).
    apply Hin, example_decoded_entries in Hkv as [[-> ->]|[-> ->]];
      unfold getEnv_entry in Hx; destruct Hx as [Hx|[]];
      vm_compute in Hx; discriminate Hx.
Qed.

(** C7, on the request as it arrives.  The JSON number [3] is decoded to
    the float64 value 3, so the environment [getEnv] assembles holds
    [enabled=true] and [count=3.000000], and it does not hold [count=3]. *)
Theorem decoded_count_rendered_as_float (lib : GoLib) :
  encoding_json.decode_variables example_variables = Some example_decoded
  /\ In "enabled=true" (getEnv lib example_decoded)
  /\ In "count=3.000000" (getEnv lib example_decoded)
  /\ ~ In "count=3" (getEnv lib example_decoded).
Proof.
  split; [vm_compute; reflexivity|].
  apply getEnv_example_any_order. reflexivity.
Qed.

(** The state key of the backend file is the job name followed by
    [.tfstate], in the current revision and in the earlier one. *)
Lemma backend_state_key a creds name :
  exists before after,
    backend_text a creds name = before +:+ state_key_line name +:+ after.
Proof.
  exists ("terraform {" +:+ nl
          +:+ (tab +:+ tab +:+ tab) +:+ "backend " +:+ dq +:+ "s3" +:+ dq +:+ " {" +:+ nl
          +:+ ((tab +:+ tab +:+ tab) +:+ tab) +:+ "bucket     = " +:+ dq +:+ bucket a
          +:+ dq +:+ nl +:+ ((tab +:+ tab +:+ tab) +:+ tab)).
  exists (nl
          +:+ ((tab +:+ tab +:+ tab) +:+ tab) +:+ "region     = " +:+ dq +:+ region a
          +:+ dq +:+ nl
          +:+ ((tab +:+ tab +:+ tab) +:+ tab) +:+ "access_key = " +:+ dq
          +:+ cv_AccessKeyID creds +:+ dq +:+ nl
          +:+ ((tab +:+ tab +:+ tab) +:+ tab) +:+ "secret_key = " +:+ dq
          +:+ cv_SecretAccessKey creds +:+ dq +:+ nl
          +:+ ((tab +:+ tab +:+ tab) +:+ tab) +:+ "token      = " +:+ dq
          +:+ cv_SessionToken creds +:+ dq +:+ nl
          +:+ (tab +:+ tab +:+ tab) +:+ "}" +:+ nl
          +:+ tab +:+ "}").
  unfold backend_text, state_key_line. cbv zeta.
  rewrite !append_assoc. reflexivity.
Qed.

Example backend_state_key_acct1 creds :
  exists before after,
    backend_text app2 creds "acct-1"
    = before +:+ ("key        = " +:+ dq +:+ "acct-1.tfstate" +:+ dq) +:+ after.
Proof. apply (backend_state_key app2 creds "acct-1"). Qed.

(* ================================================================== *)
(** * The output multiplexer                                           *)
(* ================================================================== *)

Lemma CountByte_cons d s c :
  strings.CountByte (String d s) c
  = (if Ascii.eqb d c then 1 else 0) + strings.CountByte s c.
Proof. reflexivity. Qed.

Lemma CountByte_app s1 s2 c :
  strings.CountByte (s1 +:+ s2) c = strings.CountByte s1 c + strings.CountByte s2 c.
Proof.
  induction s1 as [|d s1 IH]; [reflexivity|].
  rewrite append_cons. simpl. rewrite IH. lia.
Qed.

Lemma CountByte_rev_app s1 s2 c :
  strings.CountByte (String.rev_app s1 s2) c
  = strings.CountByte s1 c + strings.CountByte s2 c.
Proof.
  revert s2. induction s1 as [|d s1 IH]; intros s2; [reflexivity|].
  simpl. rewrite IH. simpl. lia.
Qed.

Lemma no_LF_rev s : no_LF s -> no_LF (String.rev s).
Proof.
  unfold no_LF, String.rev. intros H. rewrite CountByte_rev_app, H. reflexivity.
Qed.

Lemma no_LF_dropCR s : no_LF s -> no_LF (bufio.dropCR s).
Proof.
  unfold no_LF. induction s as [|c s IH]; [auto|].
  intros H. simpl in H.
  assert (Hc : (if Ascii.eqb c LF then 1 else 0) = 0) by lia.
  assert (Hs : strings.CountByte s LF = 0) by lia.
  destruct s as [|d s'].
  - simpl. destruct (Ascii.eqb c CR); [reflexivity|]. simpl. lia.
  - change (bufio.dropCR (String c (String d s')))
      with (String c (bufio.dropCR (String d s'))).
    rewrite CountByte_cons, (IH Hs). lia.
Qed.

(** No token of the scanner holds a newline. *)
Lemma scan_lines_no_LF stream cur n :
  no_LF cur -> Forall no_LF (fst (bufio.scan_lines stream cur n)).
Proof.
  revert cur n. induction stream as [|c rest IH]; intros cur n Hcur; simpl.
  - destruct (n =? 0)%nat; [constructor|].
    destruct (bufio.MaxScanTokenSize <=? Z.of_nat n)%Z; constructor; [|constructor].
    apply no_LF_dropCR, no_LF_rev, Hcur.
  - destruct (Ascii.eqb c LF) eqn:E.
    + destruct (bufio.MaxScanTokenSize <=? Z.of_nat n)%Z; [constructor|].
      specialize (IH "" 0 eq_refl).
      destruct (bufio.scan_lines rest "" 0) as [toks err]. simpl in *.
      constructor; [|exact IH]. apply no_LF_dropCR, no_LF_rev, Hcur.
    + apply IH. unfold no_LF in *. simpl. rewrite E. exact Hcur.
Qed.

Lemma ScanLines_no_LF stream : Forall no_LF (fst (bufio.ScanLines stream)).
Proof. apply scan_lines_no_LF. reflexivity. Qed.

Lemma tagged_no_LF name text : no_LF name -> no_LF text -> no_LF (tagged name text).
Proof.
  unfold no_LF, tagged. intros Hn Ht.
  rewrite !CountByte_app, Hn, Ht. reflexivity.
Qed.

(** One write of [wrapOutput] is a tagged line and its newline. *)
Lemma wrapOutput_tagged name tokens :
  wrapOutput name tokens = map (fun line => line +:+ nl) (map (tagged name) tokens).
Proof.
  unfold wrapOutput, tagged. rewrite map_map. apply map_ext. intros text.
  rewrite !append_assoc. reflexivity.
Qed.

Lemma scan_open_no_LF stream cur n :
  no_LF cur -> Forall no_LF (fst (bufio.scan_open stream cur n)).
Proof.
  revert cur n. induction stream as [|c rest IH]; intros cur n Hcur; simpl.
  - constructor.
  - destruct (Ascii.eqb c LF) eqn:E.
    + destruct (bufio.MaxScanTokenSize <=? Z.of_nat n)%Z; [constructor|].
      specialize (IH "" 0 eq_refl).
      destruct (bufio.scan_open rest "" 0) as [toks err]. simpl in *.
      constructor; [|exact IH]. apply no_LF_dropCR, no_LF_rev, Hcur.
    + apply IH. unfold no_LF in *. simpl. rewrite E. exact Hcur.
Qed.

(** No token of a scanner holds a newline, however its pipe ends. *)
Lemma Scan_no_LF p : Forall no_LF (fst (bufio.Scan p)).
Proof.
  unfold bufio.Scan. destruct (p_end p).
  - pose proof (ScanLines_no_LF (p_bytes p)) as H.
    destruct (bufio.ScanLines (p_bytes p)); exact H.
  - pose proof (ScanLines_no_LF (p_bytes p)) as H.
    destruct (bufio.ScanLines (p_bytes p)); exact H.
  - pose proof (scan_open_no_LF (p_bytes p) "" 0 eq_refl) as H.
    destruct (bufio.scan_open (p_bytes p) "" 0); exact H.
Qed.

(** Each relay writes the lines its scanners read, tagged and ended by a
    newline: those of the stdout pipe to stdout, those of the stderr pipe
    to stderr. *)
Lemma readOutput_writes name stdout stderr :
  to_stdout (fst (readOutput name stdout stderr))
  = map (fun line => line +:+ nl) (tagged_lines name stdout)
  /\ to_stderr (fst (readOutput name stdout stderr))
     = map (fun line => line +:+ nl) (tagged_lines name stderr).
Proof.
  unfold readOutput, tagged_lines.
  destruct (bufio.Scan stdout) as [ot oe], (bufio.Scan stderr) as [et ee].
  simpl. rewrite !wrapOutput_tagged. auto.
Qed.

Lemma tagged_lines_no_LF name p :
  no_LF name -> Forall no_LF (tagged_lines name p).
Proof.
  intros Hn. unfold tagged_lines. apply List.Forall_map.
  eapply List.Forall_impl; [|apply Scan_no_LF].
  intros text Ht. apply tagged_no_LF; assumption.
Qed.

Lemma HasPrefix_app p s : strings.HasPrefix (p +:+ s) p = true.
Proof.
  induction p as [|c p IH]; [destruct s; reflexivity|].
  rewrite append_cons. simpl. rewrite Ascii.eqb_refl. exact IH.
Qed.

Lemma tagged_prefix name text :
  strings.HasPrefix (tagged name text) ("[" +:+ name +:+ "]: ") = true.
Proof.
  unfold tagged.
  replace ("[" +:+ name +:+ "]: " +:+ text) with (("[" +:+ name +:+ "]: ") +:+ text)
    by (rewrite !append_assoc; reflexivity).
  apply HasPrefix_app.
Qed.

(** ** The lines of a stream of whole writes *)

Lemma removelast_app_nonempty {A} (l1 l2 : list A) :
  l2 <> [] -> removelast (l1 ++ l2) = l1 ++ removelast l2.
Proof. intros H. apply removelast_app. exact H. Qed.

(** A write that ends in a newline keeps its lines apart from what
    follows it on the stream. *)
Lemma stream_lines_app text rest :
  stream_lines ((text +:+ nl) +:+ rest)
  = stream_lines (text +:+ nl) ++ stream_lines rest.
Proof.
  unfold stream_lines, nl.
  rewrite append_assoc, append_cons, append_nil_l, !Split_app.
  rewrite removelast_app_nonempty by apply Split_nonempty.
  change (strings.Split "" LF) with [""].
  rewrite removelast_last. reflexivity.
Qed.

Lemma stream_lines_whole writes :
  Forall (fun write => exists text, write = text +:+ nl) writes ->
  stream_lines (stream_of writes) = concat (map stream_lines writes).
Proof.
  induction 1 as [|write rest (text & ->) _ IH]; [reflexivity|].
  simpl. rewrite stream_lines_app, IH. reflexivity.
Qed.

Lemma stream_lines_line line : no_LF line -> stream_lines (line +:+ nl) = [line].
Proof.
  intros H. unfold stream_lines, nl.
  rewrite Split_app_sep by exact H. reflexivity.
Qed.

(** Writes of whole lines leave exactly those lines on the stream. *)
Lemma stream_lines_of_writes lines :
  Forall no_LF lines ->
  stream_lines (stream_of (map (fun line => line +:+ nl) lines)) = lines.
Proof.
  intros H. rewrite stream_lines_whole.
  - induction H as [|line rest Hline _ IH]; [reflexivity|].
    simpl. rewrite stream_lines_line by exact Hline. rewrite IH. reflexivity.
  - apply List.Forall_map. apply List.Forall_forall. intros line _. eauto.
Qed.

Lemma ends_with_inv c s : ends_with c s = true -> exists text, s = text +:+ String c "".
Proof.
  induction s as [|d s IH]; [discriminate|].
  destruct s as [|d' s'].
  - simpl. intros H. apply Ascii.eqb_eq in H. subst. exists "". reflexivity.
  - intros H. change (ends_with c (String d' s') = true) in H.
    destruct (IH H) as (text & E). exists (String d text).
    rewrite append_cons, <- E. reflexivity.
Qed.

(** A log write ends in a newline. *)
Lemma log_Output_whole message : exists text, log_Output message = text +:+ nl.
Proof.
  unfold log_Output. destruct (ends_with LF message) eqn:E.
  - apply ends_with_inv in E. exact E.
  - eauto.
Qed.

(** ** Merged writes *)

Lemma merge_In {A} (writers : list (list A)) out x :
  merge writers out -> In x out -> exists writes, In writes writers /\ In x writes.
Proof.
  induction 1 as [writers H|before y writes after out H IH]; [intros []|].
  intros [->|Hin].
  - exists (x :: writes). split; [apply in_elt|left; reflexivity].
  - destruct (IH Hin) as (ws & Hws & Hx).
    apply in_app_or in Hws as [Hws|[<-|Hws]].
    + exists ws. split; [apply in_or_app; auto|exact Hx].
    + exists (y :: writes). split; [apply in_elt|right; exact Hx].
    + exists ws. split; [apply in_or_app; right; right; exact Hws|exact Hx].
Qed.

Lemma merge_map {A B} (f : A -> B) writers out :
  merge writers out -> merge (map (map f) writers) (map f out).
Proof.
  induction 1 as [writers H|before y writes after out H IH].
  - apply merge_done. apply List.Forall_map.
    eapply List.Forall_impl; [|exact H]. intros ws ->. reflexivity.
  - rewrite map_app in *. simpl in *. apply merge_write. exact IH.
Qed.

Lemma merge_map_inv {A B} (f : A -> B) writers out :
  merge (map (map f) writers) out ->
  exists out', out = map f out' /\ merge writers out'.
Proof.
  remember (map (map f) writers) as mapped eqn:E. intros H. revert writers E.
  induction H as [mapped H|before y writes after out H IH]; intros writers E.
  - exists []. split; [reflexivity|]. apply merge_done. subst mapped.
    apply List.Forall_map in H.
    eapply List.Forall_impl; [|exact H]. intros ws Hws.
    destruct ws; [reflexivity|discriminate].
  - symmetry in E. apply map_eq_app in E as (before' & rest' & -> & <- & E).
    apply map_eq_cons in E as (ws & after' & -> & E & <-).
    destruct ws as [|x ws]; [discriminate|]. injection E as <- <-.
    destruct (IH (before' ++ ws :: after')) as (out' & -> & Hout').
    { rewrite map_app. reflexivity. }
    exists (x :: out'). split; [reflexivity|]. apply merge_write. exact Hout'.
Qed.

(** ** The relays of a job *)

Lemma relays_app tr1 tr2 : relays (tr1 ++ tr2) = relays tr1 ++ relays tr2.
Proof. unfold relays. apply flat_map_app. Qed.

Lemma relay_pipes_app w pre tr1 tr2 :
  relay_pipes w pre (tr1 ++ tr2)
  = relay_pipes w pre tr1 ++ relay_pipes w (pre ++ tr1) tr2.
Proof.
  revert pre. induction tr1 as [|e tr1 IH]; intros pre.
  - rewrite app_nil_r. reflexivity.
  - simpl. rewrite IH, <- !app_assoc. reflexivity.
Qed.

Lemma no_relay_trace w pre ext :
  Forall no_relay ext -> relays ext = [] /\ relay_pipes w pre ext = [].
Proof.
  intros H. revert pre. induction H as [|e ext He _ IH]; intros pre; [auto|].
  destruct (IH (pre ++ [e])) as [E1 E2]. unfold relays in *.
  destruct e; try contradiction; simpl; rewrite E1, E2; auto.
Qed.

Lemma relaying_emits {A} w name (m : M A) : emits no_relay m -> relaying w name m.
Proof.
  intros Hm tr r tr' H. apply Hm in H as (ext & -> & F).
  exists ext. split; [reflexivity|].
  destruct (no_relay_trace w tr ext F) as [-> ->]. reflexivity.
Qed.

Lemma relaying_quiet {A} w name (m : M A) : emits quiet m -> relaying w name m.
Proof.
  intros Hm. apply relaying_emits. eapply emits_weaken; [|exact Hm].
  intros e He. destruct e; try exact I. discriminate He.
Qed.

Lemma relaying_bind {A B} w name (m : M A) (k : A -> M B) :
  relaying w name m -> (forall x, relaying w name (k x)) -> relaying w name (bind m k).
Proof.
  intros Hm Hk tr r tr' H.
  apply bind_inv in H as [(x & tr1 & H1 & H2)|(e & H1 & ->)].
  - apply Hm in H1 as (ext1 & -> & E1). apply Hk in H2 as (ext2 & -> & E2).
    exists (ext1 ++ ext2). split; [rewrite app_assoc; reflexivity|].
    rewrite relays_app, relay_pipes_app, map_app, E1, E2. reflexivity.
  - apply Hm in H1. exact H1.
Qed.

Lemma relaying_call w name e : no_relay e -> relaying w name (call w e).
Proof. intros He. apply relaying_emits, emits_call. exact He. Qed.

Lemma relaying_reader w name cmd : relaying w name (reader w name cmd).
Proof.
  intros tr r tr' H. unfold reader in H.
  destruct (readOutput name (w_stdout w tr cmd) (w_stderr w tr cmd))
    as [written returned] eqn:E.
  inversion H; subst. eexists. split; [reflexivity|].
  simpl. rewrite E. reflexivity.
Qed.

Lemma relaying_runTf w a cwd req env args :
  relaying w (Name req) (runTf w a cwd req env args).
Proof.
  unfold runTf. cbv zeta.
  repeat match goal with
         | |- relaying _ _ (bind _ _) => apply relaying_bind; [|intros ?]
         end.
  all: match goal with
       | |- relaying _ _ (reader _ _ _) => apply relaying_reader
       | |- relaying _ _ (ret _) => apply relaying_emits, emits_ret
       | |- _ => apply relaying_emits, emits_wrap, emits_call; exact I
       end.
Qed.

(** Every relay [execute] starts for a request relays the pipes of its
    command under the name of the request. *)
Lemma relaying_execute w lib a req : relaying w (Name req) (execute w lib a req).
Proof.
  unfold execute. cbv zeta.
  repeat match goal with
         | |- relaying _ _ (bind _ _) => apply relaying_bind; [|intros ?]
         end.
  all: match goal with
       | |- relaying _ _ (runTf _ _ _ _ _ _) => apply relaying_runTf
       | |- relaying _ _ (call _ _) => apply relaying_call; exact I
       | |- _ =>
           apply relaying_quiet;
           first [ apply checkout_quiet | apply getModules_quiet
                 | unfold createBackend, assumeRole, createGitConfig;
                   first [ apply emits_wrap, emits_call; reflexivity
                         | apply emits_wrap, emits_ask; reflexivity ] ]
       end.
Qed.

Lemma job_body_relays w lib a req :
  relays (job_body w lib a req)
  = map (fun pipes => fst (readOutput (Name req) (fst pipes) (snd pipes)))
        (relay_pipes w [] (job_body w lib a req)).
Proof.
  unfold job_body. destruct (execute w lib a req []) as [r body] eqn:E.
  apply relaying_execute in E as (ext & -> & E). simpl in *.
  destruct r as [u|e]; [exact E|].
  rewrite relays_app, relay_pipes_app, map_app, E. reflexivity.
Qed.

(** The jobs of a run are those of one batch taken from the requests,
    each with the body of its goroutine. *)
Lemma Run_batch w lib a requests r tr :
  Run w lib a requests [] = (r, tr) ->
  exists a' batch,
    job_bodies tr = map (fun req => (req, job_body w lib a' req)) batch
    /\ jobs tr = batch /\ incl batch requests.
Proof.
  intros H. apply Run_outcomes in H as [(e & -> & Hj & Hb & _)|(path & -> & ->)].
  - exists a, []. rewrite Hj, Hb. split; [reflexivity|]. split; [reflexivity|].
    intros x [].
  - exists (with_tf a path), (firstn (cpus a) requests).
    rewrite !job_bodies_app, !jobs_app, job_bodies_spawned, jobs_spawned.
    split; [destruct (cpus a <? length requests)%nat; reflexivity|].
    split; [destruct (cpus a <? length requests)%nat; reflexivity|].
    intros x Hx. rewrite <- (firstn_skipn (cpus a) requests).
    apply in_or_app. left. exact Hx.
Qed.

(** The writers of a run write the tagged lines of their pipes, each
    ended by a newline. *)
Lemma writers_of_batch w lib a batch :
  let bodies := map (fun req => (req, job_body w lib a req)) batch in
  flat_map (fun job => map to_stdout (relays (snd job))) bodies
  = map (map (fun line => line +:+ nl))
        (flat_map (fun job => map (fun pipes => tagged_lines (Name (fst job)) (fst pipes))
                                  (relay_pipes w [] (snd job))) bodies)
  /\ flat_map (fun job => map to_stderr (relays (snd job))) bodies
     = map (map (fun line => line +:+ nl))
           (flat_map (fun job => map (fun pipes => tagged_lines (Name (fst job)) (snd pipes))
                                     (relay_pipes w [] (snd job))) bodies).
Proof.
  induction batch as [|req rest [IH1 IH2]]; [auto|].
  cbn zeta in *. simpl. rewrite IH1, IH2, !map_app, job_body_relays, !map_map.
  split; f_equal; apply map_ext; intros pipes;
    destruct (readOutput_writes (Name req) (fst pipes) (snd pipes)) as [E1 E2]; auto.
Qed.

(** The tagged lines of a batch hold no newline and start with the tag of
    a request of the batch, when the names hold no newline. *)
Lemma lines_of_batch w (bodies : list (Request * Trace)) project lines line :
  Forall (fun job => no_LF (Name (fst job))) bodies ->
  In lines (flat_map (fun job => map (fun pipes => tagged_lines (Name (fst job))
                                                               (project pipes))
                                     (relay_pipes w [] (snd job))) bodies) ->
  In line lines ->
  no_LF line
  /\ exists job, In job bodies
       /\ strings.HasPrefix line ("[" +:+ Name (fst job) +:+ "]: ") = true.
Proof.
  intros Hnames Hlines Hline.
  apply in_flat_map in Hlines as (job & Hjob & Hlines).
  apply in_map_iff in Hlines as (pipes & <- & _).
  rewrite List.Forall_forall in Hnames. specialize (Hnames job Hjob).
  split.
  - pose proof (tagged_lines_no_LF (Name (fst job)) (project pipes) Hnames) as F.
    rewrite List.Forall_forall in F. auto.
  - exists job. split; [exact Hjob|].
    unfold tagged_lines in Hline. apply in_map_iff in Hline as (text & <- & _).
    apply tagged_prefix.
Qed.

(** The streams of a run, for every order in which the writes of its
    relays, and the log writes, reach them. *)
Lemma streams_of_run w lib a requests r tr :
  Run w lib a requests [] = (r, tr) ->
  stdout_writers tr = map (map (fun line => line +:+ nl)) (stdout_lines w tr)
  /\ stderr_writers tr = map (map (fun line => line +:+ nl)) (stderr_lines w tr)
  /\ (Forall (fun req => no_LF (Name req)) (jobs tr) ->
      (forall on_stdout,
         merge (stdout_writers tr) on_stdout ->
         merge (stdout_lines w tr) (stream_lines (stream_of on_stdout))
         /\ Forall (fun line =>
                      exists req, In req (jobs tr)
                        /\ strings.HasPrefix line ("[" +:+ Name req +:+ "]: ") = true)
                   (stream_lines (stream_of on_stdout)))
      /\ (forall messages on_stderr,
            merge (stderr_writers tr
                   ++ map (fun message => [log_Output message]) messages) on_stderr ->
            exists chunks,
              merge (map (map (fun line => [line])) (stderr_lines w tr)
                     ++ map (fun message => [stream_lines (log_Output message)]) messages)
                    chunks
              /\ stream_lines (stream_of on_stderr) = concat chunks)).
Proof.
  intros HRun.
  destruct (Run_batch w lib a requests r tr HRun) as (a' & batch & Hb & Hj & _).
  destruct (writers_of_batch w lib a' batch) as [Wout Werr]. cbn zeta in Wout, Werr.
  assert (Eout : stdout_writers tr
                 = map (map (fun line => line +:+ nl)) (stdout_lines w tr)).
  { unfold stdout_writers, stdout_lines. rewrite Hb. exact Wout. }
  assert (Eerr : stderr_writers tr
                 = map (map (fun line => line +:+ nl)) (stderr_lines w tr)).
  { unfold stderr_writers, stderr_lines. rewrite Hb. exact Werr. }
  split; [exact Eout|]. split; [exact Eerr|]. intros Hnames.
  assert (Hbodies : Forall (fun job : Request * Trace => no_LF (Name (fst job)))
                           (job_bodies tr)).
  { rewrite Hb. apply List.Forall_map. rewrite Hj in Hnames. exact Hnames. }
  assert (Hjobs : forall job, In job (job_bodies tr) -> In (fst job) (jobs tr)).
  { intros job Hjob. rewrite Hb in Hjob. apply in_map_iff in Hjob as (req & <- & Hreq).
    rewrite Hj. exact Hreq. }
  split.
  - intros on_stdout Hout.
    rewrite Eout in Hout. apply merge_map_inv in Hout as (lines & -> & Hlines).
    assert (Nlines : forall line, In line lines ->
               no_LF line
               /\ exists job, In job (job_bodies tr)
                    /\ strings.HasPrefix line ("[" +:+ Name (fst job) +:+ "]: ") = true).
    { intros line Hline. destruct (merge_In _ _ _ Hlines Hline) as (ws & Hws & Hin).
      exact (lines_of_batch w (job_bodies tr) fst ws line Hbodies Hws Hin). }
    rewrite stream_lines_of_writes
      by (apply List.Forall_forall; intros line Hline; apply Nlines, Hline).
    split; [exact Hlines|].
    apply List.Forall_forall. intros line Hline.
    destruct (Nlines line Hline) as (_ & job & Hjob & Hp). eauto.
  - intros messages on_stderr Herr.
    exists (map stream_lines on_stderr). split.
    + apply (merge_map stream_lines) in Herr.
      rewrite map_app, Eerr, !map_map in Herr.
      assert (E : map (map (fun line => [line])) (stderr_lines w tr)
                  = map (fun ws => map stream_lines (map (fun line => line +:+ nl) ws))
                        (stderr_lines w tr)).
      { apply map_ext_in. intros ws Hws. rewrite map_map.
        apply map_ext_in. intros line Hline. symmetry. apply stream_lines_line.
        exact (proj1 (lines_of_batch w (job_bodies tr) snd ws line Hbodies Hws Hline)). }
      rewrite E. exact Herr.
    + apply stream_lines_whole. apply List.Forall_forall. intros write Hwrite.
      destruct (merge_In _ _ _ Herr Hwrite) as (ws & Hws & Hin).
      apply in_app_or in Hws as [Hws|Hws].
      * rewrite Eerr in Hws. apply in_map_iff in Hws as (ls & <- & _).
        apply in_map_iff in Hin as (line & <- & _). eauto.
      * apply in_map_iff in Hws as (message & <- & _).
        destruct Hin as [<-|[]]. apply log_Output_whole.
Qed.

(** C6, as the code has it.  On every run, each relay of each job writes
    the lines it reads from the job's stdout pipe to the process's stdout
    and those it reads from the job's stderr pipe to the process's stderr,
    every line in one write, behind the tag [[<job-name>]: ] and ended by
    a newline.  When no job name holds a newline, then in whatever order
    the writes reach the streams: the lines of the process's stdout are
    exactly those tagged lines, each relay's in its own order, so every
    one starts with the tag of one job of the run and none holds
    fragments of two; the process's stderr holds, beside them, the lines
    of the log writes, each tagged line and each log write whole. *)
Theorem lines_tagged_per_stream
        (w : World) (lib : GoLib) (a : App) (requests : list Request) r tr :
  Run w lib a requests [] = (r, tr) ->
  stdout_writers tr = map (map (fun line => line +:+ nl)) (stdout_lines w tr)
  /\ stderr_writers tr = map (map (fun line => line +:+ nl)) (stderr_lines w tr)
  /\ (Forall (fun req => no_LF (Name req)) (jobs tr) ->
      (forall on_stdout,
         merge (stdout_writers tr) on_stdout ->
         merge (stdout_lines w tr) (stream_lines (stream_of on_stdout))
         /\ Forall (fun line =>
                      exists req, In req (jobs tr)
                        /\ strings.HasPrefix line ("[" +:+ Name req +:+ "]: ") = true)
                   (stream_lines (stream_of on_stdout)))
      /\ (forall messages on_stderr,
            merge (stderr_writers tr
                   ++ map (fun message => [log_Output message]) messages) on_stderr ->
            exists chunks,
              merge (map (map (fun line => [line])) (stderr_lines w tr)
                     ++ map (fun message => [stream_lines (log_Output message)]) messages)
                    chunks
              /\ stream_lines (stream_of on_stderr) = concat chunks)).
Proof. apply streams_of_run. Qed.

(** Jobs [a] and [b], each with its [init] and its [apply], in a world
    that closes the stderr pipes under their readers: the lines of the
    process's stdout, in one of the orders the four relays can produce,
    start with [[a]: ] or [[b]: ]; on the process's stderr a log line
    stands whole between their tagged lines. *)
Lemma lines_tagged_per_stream_witness :
  Forall (fun line =>
            exists req, In req [job_a; job_b]
              /\ strings.HasPrefix line ("[" +:+ Name req +:+ "]: ") = true)
         (stream_lines
            (stream_of ["[a]: Apply complete!" +:+ nl; "[b]: Apply complete!" +:+ nl;
                        "[b]: Apply complete!" +:+ nl; "[a]: Apply complete!" +:+ nl]))
  /\ stream_lines
       (stream_of ["[a]: Warning: deprecated" +:+ nl; "[a]: Warn" +:+ nl;
                   "[b]: Warning: deprecated" +:+ nl; "failed to execute" +:+ nl;
                   "[a]: Warning: deprecated" +:+ nl; "[b]: Warn" +:+ nl;
                   "[b]: Warning: deprecated" +:+ nl; "[b]: Warn" +:+ nl;
                   "[a]: Warn" +:+ nl])
     = ["[a]: Warning: deprecated"; "[a]: Warn"; "[b]: Warning: deprecated";
        "failed to execute"; "[a]: Warning: deprecated"; "[b]: Warn";
        "[b]: Warning: deprecated"; "[b]: Warn"; "[a]: Warn"].
Proof.
  destruct (lines_tagged_per_stream closing lib0 app2 [job_a; job_b] _ _
              (surjective_pairing _)) as (_ & _ & H).
  assert (Hnames : Forall (fun req => no_LF (Name req))
                          (jobs (snd (Run closing lib0 app2 [job_a; job_b] []))))
    by (vm_compute; repeat constructor).
  destruct (H Hnames) as [Hout Herr]. clear H Hnames.
  split.
  - refine (proj2 (Hout _ _)). vm_compute.
    apply (merge_write [] _ _ [_; _; _]).
    apply (merge_write [_; _] _ _ [_]).
    apply (merge_write [_; _; _] _ _ []).
    apply (merge_write [_] _ _ [_; _]).
    apply merge_done. repeat constructor.
  - destruct (Herr ["failed to execute"]
                ["[a]: Warning: deprecated" +:+ nl; "[a]: Warn" +:+ nl;
                 "[b]: Warning: deprecated" +:+ nl; "failed to execute" +:+ nl;
                 "[a]: Warning: deprecated" +:+ nl; "[b]: Warn" +:+ nl;
                 "[b]: Warning: deprecated" +:+ nl; "[b]: Warn" +:+ nl;
                 "[a]: Warn" +:+ nl]) as (chunks & _ & E).
    + vm_compute.
      apply (merge_write [] _ _ [_; _; _; _]).
      apply (merge_write [] _ _ [_; _; _; _]).
      apply (merge_write [_; _] _ _ [_; _]).
      apply (merge_write [_; _; _; _] _ _ []).
      apply (merge_write [_] _ _ [_; _; _]).
      apply (merge_write [_; _] _ _ [_; _]).
      apply (merge_write [_; _; _] _ _ [_]).
      apply (merge_write [_; _; _] _ _ [_]).
      apply (merge_write [_] _ _ [_; _; _]).
      apply merge_done. repeat constructor.
    + vm_compute. reflexivity.
Defined.

(** C6 as stated fails: a line read from the stderr pipe of a job is not
    written to the process's stdout, it goes to the process's stderr;
    the lines the log package writes there carry no tag; and a job name
    that holds a newline cuts its tag in two lines. *)
Lemma stderr_line_not_on_stdout :
  fst (bufio.Scan {| p_bytes := "oops" +:+ nl; p_end := AtEOF |}) = ["oops"]
  /\ to_stdout (fst (readOutput "a" {| p_bytes := ""; p_end := AtEOF |}
                                    {| p_bytes := "oops" +:+ nl; p_end := AtEOF |})) = []
  /\ to_stderr (fst (readOutput "a" {| p_bytes := ""; p_end := AtEOF |}
                                    {| p_bytes := "oops" +:+ nl; p_end := AtEOF |}))
     = ["[a]: oops" +:+ nl]
  /\ stream_lines (log_Output "failed to execute: a -> exit status 1")
     = ["failed to execute: a -> exit status 1"]
  /\ stream_lines
       (stream_of
          (to_stdout (fst (readOutput ("a" +:+ nl +:+ "b")
                                      {| p_bytes := "x" +:+ nl; p_end := AtEOF |}
                                      {| p_bytes := ""; p_end := AtEOF |}))))
     = ["[a"; "b]: x"].
Proof. vm_compute. auto 6. Qed.

(** The earlier revision sent both pipes of the job to the process's
    stdout, each line behind the time and then the identifier. *)
Example Earlier_Write_example :
  fst (Earlier.Write "15:04:05" "a" ("init" +:+ nl +:+ "done" +:+ nl))
  = ["[15:04:05][a]: init" +:+ nl; "[15:04:05][a]: done" +:+ nl].
Proof. vm_compute. reflexivity. Qed.

(* ================================================================== *)
(** * Address normalization                                            *)
(* ================================================================== *)

Lemma every_byte_complete (c : ascii) : In c every_byte.
Proof.
  assert (H : existsb (Ascii.eqb c) every_byte = true)
    by (destruct c as [[] [] [] [] [] [] [] []]; vm_compute; reflexivity).
  apply existsb_exists in H as (d & Hin & Heq).
  apply Ascii.eqb_eq in Heq. subst. exact Hin.
Qed.

(** A property of bytes that holds of each of the 256 holds of all. *)
Lemma for_every_byte (P : ascii -> bool) :
  forallb P every_byte = true -> forall c, P c = true.
Proof.
  intros H c. rewrite forallb_forall in H. apply H, every_byte_complete.
Qed.

(** ** Bytes *)

Lemma all_bytes_impl (P Q : ascii -> bool) s :
  (forall c, P c = true -> Q c = true) -> all_bytes P s = true -> all_bytes Q s = true.
Proof.
  intros HPQ. induction s as [|c s IH]; [reflexivity|]. simpl.
  intros H. apply andb_prop in H as [Hc Hs]. rewrite (HPQ c Hc), (IH Hs). reflexivity.
Qed.

Lemma all_bytes_app P s1 s2 :
  all_bytes P (s1 +:+ s2) = all_bytes P s1 && all_bytes P s2.
Proof.
  induction s1 as [|c s1 IH]; [reflexivity|].
  rewrite append_cons. simpl. rewrite IH, andb_assoc. reflexivity.
Qed.

Lemma lacks_from (P : ascii -> bool) c s :
  P c = false -> all_bytes P s = true -> lacks c s = true.
Proof.
  intros Hc. apply all_bytes_impl. intros d Hd.
  destruct (Ascii.eqb d c) eqn:E; [|reflexivity].
  apply Ascii.eqb_eq in E. subst. congruence.
Qed.


Lemma lacks_CountByte c s : lacks c s = true -> strings.CountByte s c = 0.
Proof.
  induction s as [|d s IH]; [reflexivity|]. simpl.
  intros H. apply andb_prop in H as [Hd Hs].
  apply negb_true_iff in Hd. rewrite Hd, (IH Hs). reflexivity.
Qed.

Lemma index_byte_from_lacks i s c :
  lacks c s = true -> strings.index_byte_from i s c = None.
Proof.
  revert i. induction s as [|d s IH]; intros i; [reflexivity|]. simpl.
  intros H. apply andb_prop in H as [Hd Hs].
  apply negb_true_iff in Hd. rewrite Hd. apply IH, Hs.
Qed.

Lemma IndexByte_lacks s c : lacks c s = true -> strings.IndexByte s c = (-1)%Z.
Proof. intros H. unfold strings.IndexByte. rewrite index_byte_from_lacks by exact H. reflexivity. Qed.

Lemma index_byte_from_app i s1 s2 c :
  lacks c s1 = true ->
  strings.index_byte_from i (s1 +:+ String c s2) c = Some (i + String.length s1).
Proof.
  revert i. induction s1 as [|d s1 IH]; intros i H.
  - rewrite append_nil_l. simpl. rewrite Ascii.eqb_refl. f_equal. lia.
  - rewrite append_cons. simpl in *. apply andb_prop in H as [Hd Hs].
    apply negb_true_iff in Hd. rewrite Hd, IH by exact Hs. f_equal. lia.
Qed.

Lemma IndexByte_app s1 s2 c :
  lacks c s1 = true ->
  strings.IndexByte (s1 +:+ String c s2) c = Z.of_nat (String.length s1).
Proof.
  intros H. unfold strings.IndexByte. rewrite index_byte_from_app by exact H. reflexivity.
Qed.

Lemma last_index_byte_from_lacks i s c :
  lacks c s = true -> strings.last_index_byte_from i s c = None.
Proof.
  revert i. induction s as [|d s IH]; intros i; [reflexivity|]. simpl.
  intros H. apply andb_prop in H as [Hd Hs].
  apply negb_true_iff in Hd. rewrite Hd, IH by exact Hs. reflexivity.
Qed.

Lemma LastIndexByte_lacks s c : lacks c s = true -> strings.LastIndexByte s c = (-1)%Z.
Proof.
  intros H. unfold strings.LastIndexByte.
  rewrite last_index_byte_from_lacks by exact H. reflexivity.
Qed.

Lemma take_app s1 s2 : strings.take (String.length s1) (s1 +:+ s2) = s1.
Proof.
  induction s1 as [|c s1 IH]; [destruct s2; reflexivity|].
  rewrite append_cons. simpl. rewrite IH. reflexivity.
Qed.

Lemma drop_app s1 s2 : strings.drop (String.length s1) (s1 +:+ s2) = s2.
Proof.
  induction s1 as [|c s1 IH]; [reflexivity|].
  rewrite append_cons. simpl. exact IH.
Qed.

Lemma slice_to_app s1 s2 : slice_to (s1 +:+ s2) (Z.of_nat (String.length s1)) = s1.
Proof. unfold slice_to. rewrite Nat2Z.id. apply take_app. Qed.

Lemma slice_from_app s1 s2 : slice_from (s1 +:+ s2) (Z.of_nat (String.length s1)) = s2.
Proof. unfold slice_from. rewrite Nat2Z.id. apply drop_app. Qed.

Lemma length_append s1 s2 :
  String.length (s1 +:+ s2) = String.length s1 + String.length s2.
Proof.
  induction s1 as [|c s1 IH]; [reflexivity|].
  rewrite append_cons. simpl. rewrite IH. reflexivity.
Qed.

(** [split] at a separator that is there, and at one that is not. *)
Lemma split_at s1 s2 c cutc :
  lacks c s1 = true ->
  url.split (s1 +:+ String c s2) c cutc = (s1, if cutc then s2 else String c s2).
Proof.
  intros H. unfold url.split. rewrite IndexByte_app by exact H.
  destruct (Z.ltb_spec (Z.of_nat (String.length s1)) 0) as [Hlt|_]; [lia|].
  rewrite slice_to_app, slice_from_app.
  destruct cutc; [|reflexivity].
  unfold slice_from.
  replace (Z.to_nat (Z.of_nat (String.length s1) + 1)) with (String.length (s1 +:+ String c ""))
    by (rewrite length_append; simpl; lia).
  replace (s1 +:+ String c s2) with ((s1 +:+ String c "") +:+ s2)
    by (rewrite append_assoc; reflexivity).
  rewrite drop_app. reflexivity.
Qed.

Lemma split_none s c cutc : lacks c s = true -> url.split s c cutc = (s, "").
Proof. intros H. unfold url.split. rewrite IndexByte_lacks by exact H. reflexivity. Qed.

(** ** Escaping leaves plain bytes alone *)

Lemma unescape_path_byte c rest :
  path_byte c = true ->
  url.unescape (String c rest) url.encodePath
  = String c <$> url.unescape rest url.encodePath.
Proof.
  destruct c as [[] [] [] [] [] [] [] []]; intros H; try discriminate H; reflexivity.
Qed.

Lemma unescape_host_byte c rest :
  host_byte c = true ->
  url.unescape (String c rest) url.encodeHost
  = String c <$> url.unescape rest url.encodeHost.
Proof.
  destruct c as [[] [] [] [] [] [] [] []]; intros H; try discriminate H; reflexivity.
Qed.

Lemma unescape_plain_path s :
  all_bytes path_byte s = true -> url.unescape s url.encodePath = Some s.
Proof.
  induction s as [|c s IH]; [reflexivity|]. simpl all_bytes.
  intros H. apply andb_prop in H as [Hc Hs].
  rewrite unescape_path_byte by exact Hc. rewrite (IH Hs). reflexivity.
Qed.

Lemma unescape_plain_host s :
  all_bytes host_byte s = true -> url.unescape s url.encodeHost = Some s.
Proof.
  induction s as [|c s IH]; [reflexivity|]. simpl all_bytes.
  intros H. apply andb_prop in H as [Hc Hs].
  rewrite unescape_host_byte by exact Hc. rewrite (IH Hs). reflexivity.
Qed.

Lemma escape_plain s mode :
  all_bytes (fun c => negb (url.shouldEscape c mode)) s = true -> url.escape s mode = s.
Proof.
  induction s as [|c s IH]; [reflexivity|]. simpl.
  intros H. apply andb_prop in H as [Hc Hs]. apply negb_true_iff in Hc.
  rewrite Hc, (IH Hs). reflexivity.
Qed.

Lemma host_byte_plain s :
  all_bytes host_byte s = true ->
  all_bytes (fun c => negb (url.shouldEscape c url.encodeHost)) s = true.
Proof.
  apply all_bytes_impl. intros c H. unfold host_byte in H.
  apply andb_prop in H as [H _]. exact H.
Qed.

(** What the bytes of each part are not. *)
Lemma scheme_byte_facts c :
  scheme_byte c = true ->
  is_ctl c = false /\ Ascii.eqb c "#" = false /\ Ascii.eqb c ":" = false
  /\ Ascii.eqb c "*" = false.
Proof.
  revert c.
  assert (H : forall c, (negb (scheme_byte c)
                         || (negb (is_ctl c) && negb (Ascii.eqb c "#")
                             && negb (Ascii.eqb c ":") && negb (Ascii.eqb c "*"))) = true)
    by (apply for_every_byte; vm_compute; reflexivity).
  intros c Hc. specialize (H c). rewrite Hc in H. simpl in H.
  repeat (apply andb_prop in H as [H ?]).
  repeat split; apply negb_true_iff; assumption.
Qed.

Lemma host_byte_facts c :
  host_byte c = true ->
  is_ctl c = false /\ Ascii.eqb c "#" = false
  /\ Ascii.eqb c "?" = false /\ Ascii.eqb c "/" = false /\ Ascii.eqb c "@" = false
  /\ Ascii.eqb c "[" = false.
Proof.
  revert c.
  assert (H : forall c, (negb (host_byte c)
                         || (negb (is_ctl c) && negb (Ascii.eqb c "#")
                             && negb (Ascii.eqb c "?")
                             && negb (Ascii.eqb c "/") && negb (Ascii.eqb c "@")
                             && negb (Ascii.eqb c "["))) = true)
    by (apply for_every_byte; vm_compute; reflexivity).
  intros c Hc. specialize (H c). rewrite Hc in H. simpl in H.
  repeat (apply andb_prop in H as [H ?]).
  repeat split; apply negb_true_iff; assumption.
Qed.

Lemma path_byte_facts c :
  path_byte c = true ->
  is_ctl c = false /\ Ascii.eqb c "#" = false /\ Ascii.eqb c "?" = false.
Proof.
  revert c.
  assert (H : forall c, (negb (path_byte c)
                         || (negb (is_ctl c) && negb (Ascii.eqb c "#")
                             && negb (Ascii.eqb c "?"))) = true)
    by (apply for_every_byte; vm_compute; reflexivity).
  intros c Hc. specialize (H c). rewrite Hc in H. simpl in H.
  repeat (apply andb_prop in H as [H ?]).
  repeat split; apply negb_true_iff; assumption.
Qed.

Lemma query_byte_facts c :
  query_byte c = true -> is_ctl c = false /\ Ascii.eqb c "#" = false.
Proof.
  unfold query_byte. intros H. apply andb_prop in H as [H1 H2].
  split; apply negb_true_iff; assumption.
Qed.

Lemma is_alpha_scheme_byte c : is_alpha c = true -> scheme_byte c = true.
Proof. unfold scheme_byte. intros ->. reflexivity. Qed.

(** ** Parsing an address of the usual shape *)

Lemma no_ctl s :
  all_bytes (fun c => negb (is_ctl c)) s = true -> url.stringContainsCTLByte s = false.
Proof.
  induction s as [|c s IH]; [reflexivity|]. simpl.
  intros H. apply andb_prop in H as [Hc Hs]. apply negb_true_iff in Hc.
  unfold is_ctl in Hc. rewrite Hc, (IH Hs). reflexivity.
Qed.

Lemma getscheme_from_valid rawurl rest sch i :
  all_bytes scheme_byte sch = true ->
  (i = 0 -> match sch with String c _ => is_alpha c = true | "" => False end) ->
  url.getscheme_from i rawurl (sch +:+ String ":" rest)
  = Some (strings.take (i + String.length sch) rawurl, rest).
Proof.
  revert i. induction sch as [|c sch IH]; intros i Hall Hfirst.
  - rewrite append_nil_l. simpl. destruct i as [|i]; [destruct (Hfirst eq_refl)|].
    rewrite Nat.add_0_r. reflexivity.
  - rewrite append_cons. simpl in Hall. apply andb_prop in Hall as [Hc Hs].
    simpl url.getscheme_from.
    assert (Hnext : url.getscheme_from (S i) rawurl (sch +:+ String ":" rest)
                    = Some (strings.take (i + String.length (String c sch)) rawurl, rest)).
    { rewrite IH; [|exact Hs|discriminate].
      replace (S i + String.length sch) with (i + String.length (String c sch))
        by (simpl; lia). reflexivity. }
    destruct (is_alpha c) eqn:Ea; [exact Hnext|].
    unfold scheme_byte in Hc. rewrite Ea in Hc. simpl in Hc. rewrite Hc.
    destruct i as [|i]; [|exact Hnext].
    specialize (Hfirst eq_refl). simpl in Hfirst. congruence.
Qed.

Lemma getscheme_valid scheme rest :
  valid_scheme scheme = true ->
  url.getscheme (scheme +:+ String ":" rest) = Some (scheme, rest).
Proof.
  intros H. unfold url.getscheme.
  destruct scheme as [|c sch]; [discriminate|]. simpl in H.
  apply andb_prop in H as [Hc Hs].
  rewrite getscheme_from_valid.
  - rewrite Nat.add_0_l, take_app. reflexivity.
  - simpl. rewrite (is_alpha_scheme_byte c Hc), Hs. reflexivity.
  - intros _. exact Hc.
Qed.

Lemma ToLower_nonempty s : nonempty s = true -> nonempty (strings.ToLower s) = true.
Proof. destruct s; [discriminate|reflexivity]. Qed.

Lemma drop_add p s k :
  strings.drop (String.length p + k) (p +:+ s) = strings.drop k s.
Proof.
  induction p as [|c p IH]; [reflexivity|].
  rewrite append_cons. simpl. exact IH.
Qed.

(** The last byte of a string that lacks [c] is not [c]. *)
Lemma last_byte_lacks c q :
  lacks c q = true -> q <> "" ->
  String.eqb (strings.drop (String.length q - 1) q) (String c "") = false.
Proof.
  induction q as [|d q IH]; [congruence|]. intros H _.
  simpl in H. apply andb_prop in H as [Hd Hq].
  destruct q as [|e q'].
  - simpl. apply negb_true_iff in Hd. rewrite Hd. reflexivity.
  - replace (String.length (String d (String e q')) - 1)
      with (S (String.length (String e q') - 1)) by (simpl; lia).
    simpl strings.drop at 1. apply IH; [exact Hq|discriminate].
Qed.

Lemma HasSuffix_lacks c p q :
  lacks c q = true -> q <> "" ->
  strings.HasSuffix (p +:+ q) (String c "") = false.
Proof.
  intros Hq Hne. unfold strings.HasSuffix.
  replace (String.length (p +:+ q) - String.length (String c ""))
    with (String.length p + (String.length q - 1)).
  - rewrite drop_add, last_byte_lacks by assumption. apply andb_false_r.
  - rewrite length_append. destruct q; [congruence|]. simpl. lia.
Qed.

Lemma HasSuffix_last c p :
  strings.HasSuffix (p +:+ String c "") (String c "") = true.
Proof.
  unfold strings.HasSuffix.
  replace (String.length (p +:+ String c "") - String.length (String c ""))
    with (String.length p) by (rewrite length_append; simpl; lia).
  rewrite drop_app, String.eqb_refl, length_append. simpl.
  destruct (String.length p + 1) eqn:E; [lia|reflexivity].
Qed.

Lemma plain_address_parts scheme host path q :
  plain_address scheme host path q = true ->
  valid_scheme scheme = true /\ nonempty host = true /\ all_bytes host_byte host = true
  /\ port_ok host = true
  /\ all_bytes path_byte path = true
  /\ (path = "" \/ exists p, path = String "/" p)
  /\ match q with None => True | Some query => all_bytes query_byte query = true end.
Proof.
  unfold plain_address. intros H.
  repeat (apply andb_prop in H as [H ?]).
  repeat split; try assumption.
  - match goal with Hs : _ || _ = true |- _ => rename Hs into H1 end.
    apply orb_prop in H1 as [H1|H1].
    + left. apply String.eqb_eq in H1. exact H1.
    + right. destruct path as [|c p]; [discriminate|]. simpl in H1.
      apply andb_prop in H1 as [H1 _]. apply Ascii.eqb_eq in H1. subst. eauto.
  - destruct q; [assumption|exact I].
Qed.

Lemma valid_scheme_bytes scheme :
  valid_scheme scheme = true -> all_bytes scheme_byte scheme = true.
Proof.
  destruct scheme as [|c s]; [discriminate|]. simpl.
  intros H. apply andb_prop in H as [Hc Hs].
  rewrite (is_alpha_scheme_byte c Hc), Hs. reflexivity.
Qed.

(** The part of an address between the scheme and the query. *)
Lemma hier_part_facts host path :
  all_bytes host_byte host = true -> all_bytes path_byte path = true ->
  lacks "?" ("//" +:+ host +:+ path) = true
  /\ lacks "#" ("//" +:+ host +:+ path) = true
  /\ all_bytes (fun c => negb (is_ctl c)) ("//" +:+ host +:+ path) = true.
Proof.
  intros Hh Hp.
  assert (F : forall x, (forall c, host_byte c = true -> Ascii.eqb c x = false) ->
                        (forall c, path_byte c = true -> Ascii.eqb c x = false) ->
                        lacks x "//" = true ->
                        lacks x ("//" +:+ host +:+ path) = true).
  { intros x Fh Fp Fs. unfold lacks in *.
    rewrite !all_bytes_app, Fs.
    rewrite (all_bytes_impl host_byte _ host), (all_bytes_impl path_byte _ path);
      auto; intros c Hc; apply negb_true_iff; auto. }
  split; [|split].
  - apply F; [intros c Hc; apply host_byte_facts in Hc; tauto
             |intros c Hc; apply path_byte_facts in Hc; tauto|reflexivity].
  - apply F; [intros c Hc; apply host_byte_facts in Hc; tauto
             |intros c Hc; apply path_byte_facts in Hc; tauto|reflexivity].
  - rewrite !all_bytes_app.
    rewrite (all_bytes_impl host_byte _ host), (all_bytes_impl path_byte _ path);
      auto; intros c Hc; apply negb_true_iff;
      [apply path_byte_facts in Hc|apply host_byte_facts in Hc]; tauto.
Qed.

Lemma CountByte_lacks_false c s : lacks c s = false -> strings.CountByte s c <> 0.
Proof.
  unfold lacks. induction s as [|e s IH]; [discriminate|]. simpl.
  destruct (Ascii.eqb e c); simpl; [lia|]. intros H. apply IH in H. lia.
Qed.

(** How [parse] cuts the query off. *)
Lemma query_cut hier q :
  lacks "?" hier = true ->
  let rest0 := hier +:+ query_part q in
  let force := strings.HasSuffix rest0 "?" && (strings.CountByte rest0 "?" =? 1)%nat in
  force = match q with Some "" => true | _ => false end
  /\ (if force then (strings.take (String.length rest0 - 1) rest0, "")
      else url.split rest0 "?" true)
     = (hier, match q with Some query => query | None => "" end).
Proof.
  intros Hl. pose proof (lacks_CountByte _ _ Hl) as Hc.
  destruct q as [[|d query]|]; cbv zeta; unfold query_part.
  - (* a bare question mark *)
    assert (E : strings.HasSuffix (hier +:+ "?" +:+ "") "?"
                && (strings.CountByte (hier +:+ "?" +:+ "") "?" =? 1)%nat = true).
    { rewrite append_nil_r, HasSuffix_last, CountByte_app, Hc. reflexivity. }
    rewrite E. split; [reflexivity|].
    rewrite append_nil_r, length_append. simpl String.length.
    replace (String.length hier + 1 - 1) with (String.length hier) by lia.
    rewrite take_app. reflexivity.
  - (* a query *)
    assert (E : strings.HasSuffix (hier +:+ "?" +:+ String d query) "?"
                && (strings.CountByte (hier +:+ "?" +:+ String d query) "?" =? 1)%nat
                = false).
    { destruct (lacks "?" (String d query)) eqn:Eq.
      - replace (hier +:+ "?" +:+ String d query)
          with ((hier +:+ "?") +:+ String d query) by (rewrite append_assoc; reflexivity).
        rewrite HasSuffix_lacks by (exact Eq || discriminate). reflexivity.
      - apply andb_false_iff. right. apply Nat.eqb_neq.
        rewrite !CountByte_app, Hc. simpl (strings.CountByte "?" "?").
        pose proof (CountByte_lacks_false _ _ Eq). lia. }
    rewrite E. split; [reflexivity|].
    change ("?" +:+ String d query) with (String "?" (String d query)).
    rewrite split_at by exact Hl. reflexivity.
  - (* no query *)
    rewrite append_nil_r, Hc. rewrite andb_false_r. split; [reflexivity|].
    apply split_none, Hl.
Qed.

Lemma not_star scheme rest :
  valid_scheme scheme = true -> String.eqb (scheme +:+ rest) "*" = false.
Proof.
  destruct scheme as [|c sch]; [discriminate|]. simpl valid_scheme.
  intros H. apply andb_prop in H as [Hc _].
  apply is_alpha_scheme_byte, scheme_byte_facts in Hc as (_ & _ & _ & Hstar).
  rewrite append_cons. simpl. rewrite Hstar. reflexivity.
Qed.

Lemma query_part_facts q :
  match q with None => True | Some query => all_bytes query_byte query = true end ->
  lacks "#" (query_part q) = true
  /\ all_bytes (fun c => negb (is_ctl c)) (query_part q) = true.
Proof.
  destruct q as [query|]; [|split; reflexivity]. intros H. unfold query_part, lacks.
  rewrite !all_bytes_app.
  rewrite (all_bytes_impl query_byte (fun d => negb (Ascii.eqb d "#")) query),
          (all_bytes_impl query_byte (fun c => negb (is_ctl c)) query); auto;
    intros c Hc; apply query_byte_facts in Hc as [? ?]; apply negb_true_iff; assumption.
Qed.

Lemma scheme_facts scheme :
  valid_scheme scheme = true ->
  lacks "#" scheme = true /\ all_bytes (fun c => negb (is_ctl c)) scheme = true.
Proof.
  intros H. apply valid_scheme_bytes in H. unfold lacks.
  rewrite (all_bytes_impl scheme_byte (fun d => negb (Ascii.eqb d "#")) scheme),
          (all_bytes_impl scheme_byte (fun c => negb (is_ctl c)) scheme); auto;
    intros c Hc; apply scheme_byte_facts in Hc; apply negb_true_iff; tauto.
Qed.

Lemma all_bytes_cons P c s : all_bytes P (String c s) = P c && all_bytes P s.
Proof. reflexivity. Qed.

Lemma host_lacks host c :
  all_bytes host_byte host = true -> host_byte c = false -> lacks c host = true.
Proof. intros Hh Hc. exact (lacks_from host_byte c host Hc Hh). Qed.

Lemma parseHost_plain host :
  all_bytes host_byte host = true -> port_ok host = true ->
  url.parseHost host = Some host.
Proof.
  intros Hh Hport. unfold url.parseHost.
  assert (Hb : strings.HasPrefix host "[" = false).
  { destruct host as [|c h]; [reflexivity|]. simpl in Hh.
    apply andb_prop in Hh as [Hc _]. apply host_byte_facts in Hc.
    simpl. destruct Hc as (_ & _ & _ & _ & _ & Hc). rewrite Hc. reflexivity. }
  rewrite Hb. unfold port_ok in Hport. cbv zeta in Hport.
  destruct (strings.LastIndexByte host ":" =? -1)%Z;
    [|simpl in Hport; rewrite Hport]; apply unescape_plain_host, Hh.
Qed.

Lemma parseAuthority_plain host :
  all_bytes host_byte host = true -> port_ok host = true ->
  url.parseAuthority host = Some (None, host).
Proof.
  intros Hh Hport. unfold url.parseAuthority.
  rewrite (LastIndexByte_lacks host "@") by (apply host_lacks; [exact Hh|reflexivity]).
  simpl. rewrite parseHost_plain by assumption. reflexivity.
Qed.

Lemma split_authority host path :
  all_bytes host_byte host = true ->
  (path = "" \/ exists p, path = String "/" p) ->
  url.split (host +:+ path) "/" false = (host, path).
Proof.
  intros Hh [->|[p ->]].
  - rewrite append_nil_r. apply split_none, host_lacks; [exact Hh|reflexivity].
  - apply split_at, host_lacks; [exact Hh|reflexivity].
Qed.

Lemma path_byte_plain s :
  all_bytes path_byte s = true ->
  all_bytes (fun c => negb (url.shouldEscape c url.encodePath)) s = true.
Proof. intros H. exact H. Qed.

Lemma setPath_plain u path :
  all_bytes path_byte path = true ->
  url.setPath u path
  = Some {| url.Scheme := url.Scheme u; url.Opaque := url.Opaque u;
            url.User := url.User u; url.Host := url.Host u;
            url.Path := path; url.RawPath := "";
            url.ForceQuery := url.ForceQuery u; url.RawQuery := url.RawQuery u;
            url.Fragment := url.Fragment u; url.RawFragment := url.RawFragment u |}.
Proof.
  intros Hp. unfold url.setPath.
  rewrite unescape_plain_path by exact Hp.
  rewrite escape_plain by exact Hp. rewrite String.eqb_refl. reflexivity.
Qed.

Lemma Parse_plain scheme host path q :
  plain_address scheme host path q = true ->
  url.Parse (assemble scheme host path q)
  = Some (plain_url (strings.ToLower scheme) host path q).
Proof.
  intros H. apply plain_address_parts in H as (Hs & Hne & Hh & Hport & Hp & Hshape & Hq).
  destruct (hier_part_facts host path Hh Hp) as (Lq & Lh & Lc).
  destruct (query_part_facts q Hq) as (Qh & Qc).
  destruct (scheme_facts scheme Hs) as (Sh & Sc).
  unfold assemble.
  set (hier := "//" +:+ host +:+ path) in *.
  replace (scheme +:+ "://" +:+ host +:+ path +:+ query_part q)
    with (scheme +:+ String ":" (hier +:+ query_part q))
    by (unfold hier; rewrite !append_assoc; reflexivity).
  assert (Rh : lacks "#" (scheme +:+ String ":" (hier +:+ query_part q)) = true).
  { unfold lacks in *. rewrite all_bytes_app, Sh, all_bytes_cons.
    rewrite all_bytes_app, Lh, Qh. reflexivity. }
  assert (Rc : url.stringContainsCTLByte (scheme +:+ String ":" (hier +:+ query_part q))
               = false).
  { apply no_ctl. rewrite all_bytes_app, Sc, all_bytes_cons.
    rewrite all_bytes_app, Lc, Qc. reflexivity. }
  unfold url.Parse. rewrite (split_none _ _ _ Rh).
  unfold url.parse. rewrite Rc, (not_star _ _ Hs), (getscheme_valid _ _ Hs).
  destruct (query_cut hier q Lq) as [Hforce Hcut]. cbv zeta in Hforce, Hcut.
  rewrite Hforce in Hcut. cbv zeta. rewrite Hforce, Hcut.
  assert (P1 : strings.HasPrefix hier "/" = true) by reflexivity.
  assert (P2 : strings.HasPrefix hier "//" = true) by reflexivity.
  assert (P3 : strings.drop 2 hier = host +:+ path) by reflexivity.
  assert (P4 : nonempty (strings.ToLower scheme) = true).
  { apply ToLower_nonempty. destruct scheme; [discriminate|reflexivity]. }
  rewrite P1, P2, P3, P4. cbn [negb andb orb].
  rewrite (split_authority host path Hh Hshape), (parseAuthority_plain host Hh Hport).
  rewrite setPath_plain by exact Hp. reflexivity.
Qed.

(** ** Printing, and cutting at the repository boundary *)

Lemma HasPrefix_take m t sub :
  strings.HasPrefix (strings.take m t) sub = true -> strings.HasPrefix t sub = true.
Proof.
  revert m t. induction sub as [|c sub IH]; intros m t H; [reflexivity|].
  destruct m as [|m]; [discriminate|]. destruct t as [|d t]; [discriminate|].
  simpl in *. apply andb_prop in H as [H1 H2]. rewrite H1. simpl. eapply IH, H2.
Qed.

Lemma index_from_ge i s sub j : strings.index_from i s sub = Some j -> i <= j.
Proof.
  revert i. induction s as [|c s IH]; intros i H; rewrite index_from_eq in H.
  - destruct (strings.HasPrefix "" sub); inversion H. lia.
  - destruct (strings.HasPrefix (String c s) sub); [inversion H; lia|].
    apply IH in H. lia.
Qed.

(** Before its first occurrence, a text does not occur. *)
Lemma index_from_take i s sub k :
  sub <> "" ->
  strings.index_from i s sub = Some (i + k) ->
  strings.index_from i (strings.take k s) sub = None.
Proof.
  intros Hsub. revert i k. induction s as [|c s IH]; intros i k H.
  - destruct k; rewrite index_from_eq; destruct sub; try congruence; reflexivity.
  - rewrite index_from_eq in H.
    destruct (strings.HasPrefix (String c s) sub) eqn:E.
    + assert (k = 0) by (inversion H; lia). subst k.
      rewrite index_from_eq. destruct sub; [congruence|reflexivity].
    + pose proof (index_from_ge _ _ _ _ H) as Hge.
      destruct k as [|k]; [lia|].
      replace (i + S k) with (S i + k) in H by lia.
      simpl strings.take. rewrite index_from_eq.
      destruct (strings.HasPrefix (String c (strings.take k s)) sub) eqn:E'.
      * apply (HasPrefix_take (S k) (String c s)) in E'. congruence.
      * apply IH, H.
Qed.

Lemma all_bytes_take P k s : all_bytes P s = true -> all_bytes P (strings.take k s) = true.
Proof.
  revert k. induction s as [|c s IH]; intros k H; destruct k; try reflexivity.
  simpl in *. apply andb_prop in H as [Hc Hs]. rewrite Hc, (IH _ Hs). reflexivity.
Qed.

(** The repository path of a plain path is plain, keeps its leading
    separator, and holds no [.git]. *)
Lemma repository_path_facts path :
  all_bytes path_byte path = true ->
  (path = "" \/ exists p, path = String "/" p) ->
  all_bytes path_byte (repository_path path) = true
  /\ (repository_path path = "" \/ exists p, repository_path path = String "/" p)
  /\ strings.Index (repository_path path) ".git" = (-1)%Z.
Proof.
  intros Hp Hshape. unfold repository_path, strings.Index.
  destruct (strings.index_from 0 path ".git") as [k|] eqn:E.
  - destruct (Z.ltb_spec (-1) (Z.of_nat k)) as [_|Hlt]; [|lia].
    unfold slice_to. rewrite Nat2Z.id.
    split; [apply all_bytes_take, Hp|]. split.
    + destruct Hshape as [->|[p ->]]; [destruct k; auto|].
      destruct k as [|k]; [|right; simpl; eauto].
      rewrite index_from_eq in E. simpl in E. apply index_from_ge in E. lia.
    + rewrite (index_from_take 0 path ".git" k); [reflexivity|discriminate|exact E].
  - simpl. rewrite E. auto.
Qed.

Lemma String_plain host path q :
  nonempty host = true -> all_bytes host_byte host = true ->
  all_bytes path_byte path = true ->
  (path = "" \/ exists p, path = String "/" p) ->
  url.String_ (plain_url "https" host path (forced q))
  = assemble "https" host path (forced q).
Proof.
  intros Hne Hh Hp Hshape. unfold url.String_, plain_url, assemble.
  cbn [url.Scheme url.Opaque url.User url.Host url.Path url.RawPath url.ForceQuery
       url.RawQuery url.Fragment url.RawFragment].
  assert (Epath : url.EscapedPath (plain_url "https" host path (forced q)) = path).
  { unfold url.EscapedPath, plain_url.
    cbn [url.Path url.RawPath]. cbn [nonempty String.eqb negb andb].
    rewrite escape_plain by exact Hp.
    destruct Hshape as [->|[p ->]]; reflexivity. }
  unfold plain_url in Epath. rewrite Epath. clear Epath.
  rewrite Hne, (escape_plain host url.encodeHost (host_byte_plain host Hh)).
  assert (Hslash : nonempty path && negb (strings.HasPrefix path "/") = false)
    by (destruct Hshape as [->|[p ->]]; reflexivity).
  rewrite Hslash.
  cbn [nonempty String.eqb Ascii.eqb Bool.eqb negb andb orb url.has_user url.User].
  assert (Hq : (match forced q with Some "" => true | _ => false end
                || nonempty (match forced q with Some query => query | None => "" end))
               = match forced q with Some _ => true | None => false end
             /\ query_part (forced q)
                = match forced q with
                  | Some _ => "?" +:+ match forced q with Some query => query | None => "" end
                  | None => ""
                  end).
  { destruct q as [[|c query]|]; split; reflexivity. }
  destruct Hq as [Hq1 Hq2]. rewrite Hq2.
  destruct (forced q) as [query|] eqn:Ef.
  - rewrite Hq1. rewrite !append_assoc. reflexivity.
  - rewrite !append_assoc, ?append_nil_r. reflexivity.
Qed.

Lemma plain_address_intro scheme host path q :
  valid_scheme scheme = true -> nonempty host = true ->
  all_bytes host_byte host = true -> port_ok host = true ->
  all_bytes path_byte path = true ->
  (path = "" \/ exists p, path = String "/" p) ->
  match q with None => True | Some query => all_bytes query_byte query = true end ->
  plain_address scheme host path q = true.
Proof.
  intros Hs Hne Hh Hport Hp Hshape Hq. unfold plain_address.
  rewrite Hs, Hne, Hh, Hport, Hp.
  assert (E : String.eqb path "" || strings.HasPrefix path "/" = true)
    by (destruct Hshape as [->|[p ->]]; reflexivity).
  rewrite E. destruct q; [rewrite Hq|]; reflexivity.
Qed.

(** The first normalization of an address of the usual shape. *)
Lemma normalizedSource_plain scheme host path q :
  plain_address scheme host path q = true ->
  normalizedSource (assemble scheme host path q)
  = Ok (assemble "https" host (repository_path path) (forced q),
        match url.Query_get (plain_url (strings.ToLower scheme) host path q) "ref" with
        | v0 :: _ => v0
        | [] => ""
        end).
Proof.
  intros H. unfold normalizedSource. rewrite (Parse_plain _ _ _ _ H).
  apply plain_address_parts in H as (Hs & Hne & Hh & Hport & Hp & Hshape & Hq).
  destruct (repository_path_facts path Hp Hshape) as (Hp' & Hshape' & _).
  rewrite <- (String_plain host (repository_path path) q Hne Hh Hp' Hshape').
  unfold plain_url, repository_path.
  cbn [url.Scheme url.Opaque url.User url.Host url.Path url.RawPath url.ForceQuery
       url.RawQuery url.Fragment url.RawFragment].
  destruct q as [[|c query]|]; reflexivity.
Qed.

(** An address with a port and a pinned revision. *)
Example normalization_with_port :
  plain_address "git" "git.example.com:8443" "/org/repo.git" (Some "ref=v1.2.0") = true
  /\ normalizedSource "git://git.example.com:8443/org/repo.git?ref=v1.2.0"
     = Ok ("https://git.example.com:8443/org/repo", "v1.2.0")
  /\ normalizedSource "https://git.example.com:8443/org/repo"
     = Ok ("https://git.example.com:8443/org/repo", "").
Proof. vm_compute. auto. Qed.

(* ================================================================== *)
(** * The earlier revision of the dispatcher                           *)
(* ================================================================== *)

(** The earlier [Run] returned as soon as it had handed the overflow off:
    with more requests than CPUs it ran none of them. *)
Lemma Earlier_Run_overflow w lib a requests capacity tr :
  cpus a < length requests ->
  Earlier.Run w lib a (Ok requests) capacity tr
  = (Returned (fst (Earlier.dispatch w a (skipn (cpus a) requests) tr)),
     snd (Earlier.dispatch w a (skipn (cpus a) requests) tr)).
Proof.
  intros Hlt. unfold Earlier.Run.
  destruct (Nat.ltb_spec (cpus a) (length requests)) as [_|Hle]; [|lia].
  destruct (Earlier.dispatch w a (skipn (cpus a) requests) tr). reflexivity.
Qed.

Example Earlier_Run_overflow_example :
  Earlier.Run calm lib0 app2 (Ok [acct1; acct2; acct3]) 4 []
  = (Returned (Ok tt), [EMarshal [acct3]; EInvoke [acct3]]).
Proof. vm_compute. reflexivity. Qed.

(** It sliced the batch at the number of CPUs without clamping: a batch
    shorter than that, the empty one included, made it panic. *)
Lemma Earlier_Run_short_batch w lib a requests capacity tr :
  length requests <= cpus a -> capacity < cpus a ->
  Earlier.Run w lib a (Ok requests) capacity tr
  = (Panicked "slice bounds out of range", tr).
Proof.
  intros Hle Hcap. unfold Earlier.Run.
  destruct (Nat.ltb_spec (cpus a) (length requests)) as [Hlt|_]; [lia|].
  destruct (Nat.ltb_spec capacity (cpus a)) as [_|Hge]; [reflexivity|lia].
Qed.

(** It ran the jobs one after the other and stopped at the first error. *)
Example Earlier_Run_fail_fast :
  fst (Earlier.Run run_fails lib0 app2 (Ok [acct1; acct2]) 2 [])
  = Returned (Err (Wrap "failed to run terraform: " (External "exit status 1")))
  /\ clones (snd (Earlier.Run run_fails lib0 app2 (Ok [acct1; acct2]) 2 []))
     = [("/tmp/acct-1", "https://example.com/root.git")].
Proof. vm_compute. auto. Qed.

(* ================================================================== *)
(** * Cleaned paths                                                   *)
(* ================================================================== *)

Lemma Split_slash_free s sep :
  Forall (fun e => strings.CountByte e sep = 0) (strings.Split s sep).
Proof.
  induction s as [|c s IH]; simpl.
  - constructor; [reflexivity|constructor].
  - destruct (Ascii.eqb c sep) eqn:E.
    + constructor; [reflexivity|exact IH].
    + destruct (strings.Split s sep) as [|piece pieces].
      * constructor; [simpl; rewrite E; reflexivity|constructor].
      * inversion IH; subst. constructor; [simpl; rewrite E; assumption|assumption].
Qed.

Lemma Split_Join l sep :
  l <> [] ->
  Forall (fun e => strings.CountByte e sep = 0) l ->
  strings.Split (strings.Join l (String sep "")) sep = l.
Proof.
  intros Hne H. induction H as [|e rest He Hrest IH]; [contradiction|].
  destruct rest as [|e' rest'].
  - simpl. apply Split_no_sep, He.
  - change (strings.Join (e :: e' :: rest') (String sep ""))
      with (e +:+ String sep "" +:+ strings.Join (e' :: rest') (String sep "")).
    rewrite append_cons, append_nil_l.
    rewrite Split_app_sep by exact He. rewrite IH by discriminate. reflexivity.
Qed.

Lemma clean_step_plain rooted stack e :
  plain_element e = true -> filepath.clean_step rooted stack e = e :: stack.
Proof.
  intros H. apply plain_element_spec in H as (_ & H0 & H1 & H2 & _).
  unfold filepath.clean_step. rewrite H0, H1, H2. reflexivity.
Qed.

Lemma fold_clean_plain rooted l stack :
  Forall (fun e => plain_or_empty e = true) l ->
  fold_left (filepath.clean_step rooted) l stack
  = rev (List.filter nonempty l) ++ stack.
Proof.
  intros H. revert stack. induction H as [|e rest He Hrest IH]; intros stack; [reflexivity|].
  simpl. unfold plain_or_empty in He. apply orb_prop in He as [He|He].
  - apply String.eqb_eq in He. subst e. simpl. apply IH.
  - rewrite clean_step_plain by exact He. rewrite IH.
    apply plain_element_spec in He as (_ & H0 & _). unfold nonempty. rewrite H0. simpl.
    rewrite <- app_assoc. reflexivity.
Qed.

Lemma Clean_render_fold path :
  filepath.Clean path
  = render (strings.HasPrefix path "/")
           (fold_left (filepath.clean_step (strings.HasPrefix path "/"))
                      (strings.Split path "/") []).
Proof. reflexivity. Qed.

Lemma elem_ok_spec e :
  elem_ok e = true ->
  String.eqb e "" = false /\ String.eqb e "." = false /\ strings.CountByte e "/" = 0.
Proof.
  unfold elem_ok, nonempty. intros H.
  apply andb_prop in H as [H H3]. apply andb_prop in H as [H1 H2].
  apply negb_true_iff in H1, H2. apply Nat.eqb_eq in H3. auto.
Qed.

Lemma ok_stack_cons rooted e below :
  ok_stack rooted (e :: below)
  = elem_ok e
    && (if String.eqb e ".."
        then negb rooted && match below with
                            | [] => true
                            | t :: _ => String.eqb t ".."
                            end
        else true)
    && ok_stack rooted below.
Proof. reflexivity. Qed.

Lemma clean_step_ok rooted st e :
  ok_stack rooted st = true -> strings.CountByte e "/" = 0 ->
  ok_stack rooted (filepath.clean_step rooted st e) = true.
Proof.
  intros Hst He. unfold filepath.clean_step.
  destruct (String.eqb e "") eqn:E0; [exact Hst|].
  destruct (String.eqb e ".") eqn:E1; [exact Hst|]. cbn [orb].
  assert (Hok : elem_ok e = true).
  { unfold elem_ok, nonempty. rewrite E0, E1, He. reflexivity. }
  destruct (String.eqb e "..") eqn:E2.
  - destruct st as [|top below].
    + destruct rooted; [reflexivity|]. rewrite ok_stack_cons, Hok, E2. reflexivity.
    + pose proof Hst as Hall. rewrite ok_stack_cons in Hst.
      apply andb_prop in Hst as [Hst Hb]. apply andb_prop in Hst as [Ht Hr].
      destruct (String.eqb top "..") eqn:Et; [|exact Hb].
      apply andb_prop in Hr as [Hr _].
      rewrite ok_stack_cons, Hok, E2, Hr, Et, Hall. reflexivity.
  - rewrite ok_stack_cons, Hok, E2, Hst. reflexivity.
Qed.

Lemma fold_clean_ok rooted l st :
  ok_stack rooted st = true ->
  Forall (fun e => strings.CountByte e "/" = 0) l ->
  ok_stack rooted (fold_left (filepath.clean_step rooted) l st) = true.
Proof.
  intros Hst H. revert st Hst. induction H as [|e rest He Hrest IH]; intros st Hst; [exact Hst|].
  simpl. apply IH, clean_step_ok; assumption.
Qed.

(** Pushing the elements of a clean stack back rebuilds it. *)
Lemma fold_clean_rev rooted st :
  ok_stack rooted st = true ->
  fold_left (filepath.clean_step rooted) (rev st) [] = st.
Proof.
  induction st as [|e below IH]; intros H; [reflexivity|].
  rewrite ok_stack_cons in H.
  apply andb_prop in H as [H Hb]. apply andb_prop in H as [He Hd].
  simpl. rewrite fold_left_app, (IH Hb). simpl.
  apply elem_ok_spec in He as (E0 & E1 & _).
  unfold filepath.clean_step. rewrite E0, E1. cbn [orb].
  destruct (String.eqb e "..") eqn:E2; [|reflexivity].
  apply andb_prop in Hd as [Hr Ht]. apply negb_true_iff in Hr. subst rooted.
  destruct below as [|t below']; [reflexivity|]. rewrite Ht. reflexivity.
Qed.

Lemma ok_stack_elems rooted st :
  ok_stack rooted st = true -> Forall (fun e => elem_ok e = true) st.
Proof.
  induction st as [|e below IH]; intros H; [constructor|].
  rewrite ok_stack_cons in H.
  apply andb_prop in H as [H Hb]. apply andb_prop in H as [He _].
  constructor; auto.
Qed.

Lemma Join_cons_cons e e' rest sep :
  strings.Join (e :: e' :: rest) sep = e +:+ sep +:+ strings.Join (e' :: rest) sep.
Proof. reflexivity. Qed.

Lemma HasPrefix_slash_free e rest :
  elem_ok e = true -> strings.HasPrefix (e +:+ rest) "/" = false.
Proof.
  intros H. apply elem_ok_spec in H as (E0 & _ & Hc).
  destruct e as [|c e]; [discriminate|].
  rewrite append_cons. simpl in *. 
  destruct (Ascii.eqb c "/"); [discriminate|reflexivity].
Qed.

Lemma Join_nonempty_head e rest sep :
  String.eqb e "" = false -> String.eqb (strings.Join (e :: rest) sep) "" = false.
Proof.
  intros H. destruct e as [|c e]; [discriminate|].
  destruct rest; [reflexivity|]. rewrite Join_cons_cons, append_cons. reflexivity.
Qed.

Lemma Join_head_prefix e rest sep :
  exists tail, strings.Join (e :: rest) sep = e +:+ tail.
Proof.
  destruct rest as [|e' rest].
  - exists "". simpl. rewrite append_nil_r. reflexivity.
  - exists (sep +:+ strings.Join (e' :: rest) sep). reflexivity.
Qed.

Lemma rev_cons_head {A} (x : A) (l : list A) :
  exists y l', rev (x :: l) = y :: l'.
Proof.
  destruct (rev (x :: l)) as [|y l'] eqn:E; [|eauto].
  apply (f_equal (@length A)) in E. rewrite length_rev in E. discriminate.
Qed.

(** A cleaned path is a fixed point of [filepath.Clean]. *)
Lemma Clean_render rooted st :
  ok_stack rooted st = true ->
  filepath.Clean (render rooted st) = render rooted st.
Proof.
  intros Hok. pose proof (ok_stack_elems _ _ Hok) as Helems.
  destruct st as [|e below].
  { destruct rooted; reflexivity. }
  destruct (rev_cons_head e below) as (y & l' & Hrev).
  assert (Hl : Forall (fun x => elem_ok x = true) (y :: l')).
  { rewrite <- Hrev. apply Forall_rev. exact Helems. }
  assert (Hy : elem_ok y = true) by (inversion Hl; assumption).
  assert (Hfree : Forall (fun x => strings.CountByte x "/" = 0) (y :: l')).
  { eapply List.Forall_impl; [|exact Hl]. intros x Hx. apply elem_ok_spec in Hx. tauto. }
  destruct (Join_head_prefix y l' "/") as (tail & Htail).
  assert (Hjne : String.eqb (strings.Join (y :: l') "/") "" = false).
  { apply Join_nonempty_head. apply elem_ok_spec in Hy. tauto. }
  assert (Hfold : fold_left (filepath.clean_step rooted) (y :: l') [] = e :: below).
  { rewrite <- Hrev. apply fold_clean_rev, Hok. }
  assert (Hr : render rooted (e :: below)
               = (if rooted then "/" else "") +:+ strings.Join (y :: l') "/").
  { unfold render. rewrite Hrev. destruct rooted.
    - reflexivity.
    - rewrite append_nil_l, Hjne. reflexivity. }
  rewrite Hr, Clean_render_fold.
  destruct rooted.
  - assert (Hp : strings.HasPrefix ("/" +:+ strings.Join (y :: l') "/") "/" = true)
      by reflexivity.
    rewrite Hp.
    assert (Hs : strings.Split ("/" +:+ strings.Join (y :: l') "/") "/" = "" :: y :: l').
    { change ("/" +:+ strings.Join (y :: l') "/")
        with ("" +:+ String "/" (strings.Join (y :: l') "/")).
      rewrite Split_app_sep by reflexivity.
      rewrite (Split_Join (y :: l') "/") by (discriminate || exact Hfree). reflexivity. }
    rewrite Hs.
    assert (Hfold' : fold_left (filepath.clean_step true) ("" :: y :: l') [] = e :: below)
      by exact Hfold.
    rewrite Hfold'. exact Hr.
  - rewrite append_nil_l.
    assert (Hp : strings.HasPrefix (strings.Join (y :: l') "/") "/" = false).
    { rewrite Htail. apply HasPrefix_slash_free, Hy. }
    rewrite Hp, (Split_Join (y :: l') "/") by (discriminate || exact Hfree).
    rewrite Hfold, Hr. reflexivity.
Qed.

Lemma Clean_is_render path :
  exists st,
    ok_stack (strings.HasPrefix path "/") st = true
    /\ filepath.Clean path = render (strings.HasPrefix path "/") st.
Proof.
  eexists. split; [|apply Clean_render_fold].
  apply fold_clean_ok; [reflexivity|apply Split_slash_free].
Qed.

(** [filepath.Clean] is idempotent. *)
Lemma Clean_idempotent path : filepath.Clean (filepath.Clean path) = filepath.Clean path.
Proof.
  destruct (Clean_is_render path) as (st & Hok & ->). apply Clean_render, Hok.
Qed.

Lemma Split_snoc s sep :
  strings.Split (s +:+ String sep "") sep = strings.Split s sep ++ [""].
Proof.
  induction s as [|c s IH].
  - simpl. rewrite Ascii.eqb_refl. reflexivity.
  - rewrite append_cons. simpl. destruct (Ascii.eqb c sep); rewrite IH.
    + reflexivity.
    + pose proof (Split_nonempty s sep) as Hne.
      destruct (strings.Split s sep); [contradiction|reflexivity].
Qed.

Lemma clean_step_empty rooted st : filepath.clean_step rooted st "" = st.
Proof. reflexivity. Qed.

Lemma HasPrefix_append_nonempty x rest p :
  String.eqb x "" = false ->
  strings.HasPrefix (x +:+ rest) (String p "") = strings.HasPrefix x (String p "").
Proof. destruct x as [|c x]; [discriminate|]. intros _. rewrite append_cons. reflexivity. Qed.

(** A trailing separator does not change the cleaned path. *)
Lemma Clean_trailing_separator x :
  String.eqb x "" = false -> filepath.Clean (x +:+ "/") = filepath.Clean x.
Proof.
  intros Hx. rewrite !Clean_render_fold.
  rewrite (HasPrefix_append_nonempty x "/" "/" Hx), Split_snoc, fold_left_app.
  reflexivity.
Qed.

Lemma last_index_byte_from_last i x y c :
  lacks c y = true ->
  strings.last_index_byte_from i (x +:+ String c y) c = Some (i + String.length x).
Proof.
  intros Hy. revert i. induction x as [|d x IH]; intros i.
  - rewrite append_nil_l. simpl.
    rewrite (last_index_byte_from_lacks (S i) y c Hy), Ascii.eqb_refl.
    f_equal. lia.
  - rewrite append_cons. simpl. rewrite IH. f_equal. lia.
Qed.

Lemma LastIndexByte_last x y c :
  lacks c y = true ->
  strings.LastIndexByte (x +:+ String c y) c = Z.of_nat (String.length x).
Proof.
  intros Hy. unfold strings.LastIndexByte.
  rewrite (last_index_byte_from_last 0 x y c Hy). reflexivity.
Qed.

Lemma lacks_of_count c s : strings.CountByte s c = 0 -> lacks c s = true.
Proof.
  induction s as [|d s IH]; [reflexivity|]. simpl.
  destruct (Ascii.eqb d c) eqn:E; [discriminate|]. intros H.
  unfold lacks in *. simpl. rewrite E. apply IH, H.
Qed.

Lemma HasPrefix_needs_separator y d :
  lacks "/" y = true -> strings.HasPrefix y (d +:+ "/") = false.
Proof.
  revert y. induction d as [|c d IH]; intros y Hy.
  - rewrite append_nil_l. destruct y as [|a y]; [reflexivity|].
    unfold lacks in Hy. simpl in Hy. apply andb_prop in Hy as [Ha _].
    simpl. apply negb_true_iff in Ha. rewrite Ha. reflexivity.
  - rewrite append_cons. destruct y as [|a y]; [reflexivity|].
    unfold lacks in Hy. simpl in Hy. apply andb_prop in Hy as [_ Hy].
    simpl. rewrite (IH y Hy). apply andb_false_r.
Qed.

(** A prefix that ends in a separator ends at or before the last one. *)
Lemma prefix_before_last_separator x y d :
  lacks "/" y = true ->
  strings.HasPrefix (x +:+ String "/" y) (d +:+ "/") = true ->
  d = x \/ strings.HasPrefix x (d +:+ "/") = true.
Proof.
  intros Hy. revert d. induction x as [|a x IH]; intros d H.
  - rewrite append_nil_l in H. destruct d as [|c d]; [left; reflexivity|].
    rewrite append_cons in H. simpl in H. apply andb_prop in H as [_ H].
    rewrite (HasPrefix_needs_separator y d Hy) in H. discriminate.
  - rewrite append_cons in H. destruct d as [|c d].
    + right. exact H.
    + rewrite append_cons in *. simpl in H. apply andb_prop in H as [Hc H].
      apply Ascii.eqb_eq in Hc. subst c.
      destruct (IH d H) as [->|Hp]; [left; reflexivity|].
      right. simpl. rewrite Ascii.eqb_refl. exact Hp.
Qed.

Lemma Join_snoc l y sep :
  l <> [] -> strings.Join (l ++ [y]) sep = strings.Join l sep +:+ sep +:+ y.
Proof.
  intros Hne. induction l as [|e rest IH]; [contradiction|].
  destruct rest as [|e' rest'].
  - reflexivity.
  - change ((e :: e' :: rest') ++ [y]) with (e :: e' :: (rest' ++ [y])).
    rewrite !Join_cons_cons.
    change (e' :: rest' ++ [y]) with ((e' :: rest') ++ [y]).
    rewrite IH by discriminate. rewrite !append_assoc. reflexivity.
Qed.

Lemma render_nonempty_stack rooted e below :
  ok_stack rooted (e :: below) = true ->
  render rooted (e :: below)
  = (if rooted then "/" else "") +:+ strings.Join (rev (e :: below)) "/"
  /\ String.eqb (render rooted (e :: below)) "" = false.
Proof.
  intros Hok. pose proof (ok_stack_elems _ _ Hok) as Helems.
  destruct (rev_cons_head e below) as (y & l' & Hrev).
  assert (Hl : Forall (fun x => elem_ok x = true) (y :: l')).
  { rewrite <- Hrev. apply Forall_rev. exact Helems. }
  assert (Hy : elem_ok y = true) by (inversion Hl; assumption).
  assert (Hjne : String.eqb (strings.Join (y :: l') "/") "" = false).
  { apply Join_nonempty_head. apply elem_ok_spec in Hy. tauto. }
  unfold render. rewrite Hrev. destruct rooted.
  - split; reflexivity.
  - rewrite append_nil_l, Hjne. auto.
Qed.

(** The directory of a cleaned path below [d] is [d] or below it. *)
Lemma Dir_below path d :
  strings.HasPrefix (filepath.Clean path) (d +:+ "/") = true ->
  filepath.Dir (filepath.Clean path) = d
  \/ strings.HasPrefix (filepath.Dir (filepath.Clean path)) (d +:+ "/") = true.
Proof.
  destruct (Clean_is_render path) as (st & Hok & ->).
  generalize (strings.HasPrefix path "/") as rooted, Hok. clear Hok. intros rooted Hok H.
  destruct st as [|y st'].
  { destruct rooted.
    - right. exact H.
    - exfalso. destruct d as [|c d]; [discriminate|].
      rewrite append_cons in H. 
      assert (E : render false [] = ".") by reflexivity. rewrite E in H.
      simpl in H. apply andb_prop in H as [_ H]. 
      destruct d; discriminate. }
  destruct (render_nonempty_stack _ _ _ Hok) as [Hr _].
  pose proof Hok as Hok0. rewrite ok_stack_cons in Hok.
  apply andb_prop in Hok as [Hok Hst']. apply andb_prop in Hok as [Hy _].
  assert (Hyfree : lacks "/" y = true).
  { apply lacks_of_count. apply elem_ok_spec in Hy. tauto. }
  destruct st' as [|z st''].
  - (* a single element *)
    destruct rooted.
    + assert (E : render true [y] = "" +:+ String "/" y) by (rewrite Hr; reflexivity).
      rewrite E in *. 
      destruct (prefix_before_last_separator "" y d Hyfree H) as [->|Hp];
        [|destruct d; discriminate].
      right. unfold filepath.Dir. rewrite (LastIndexByte_last "" y "/" Hyfree). reflexivity.
    + exfalso. assert (E : render false [y] = y).
      { rewrite Hr. simpl. reflexivity. }
      rewrite E in H. rewrite (HasPrefix_needs_separator y d Hyfree) in H. discriminate.
  - destruct (render_nonempty_stack _ _ _ Hst') as [Hr' Hne'].
    assert (E : render rooted (y :: z :: st'')
                = render rooted (z :: st'') +:+ String "/" y).
    { rewrite Hr, Hr'. change (rev (y :: z :: st'')) with (rev (z :: st'') ++ [y]).
      rewrite Join_snoc.
      - rewrite !append_assoc. reflexivity.
      - intros Hnil. apply (f_equal (@length string)) in Hnil.
        rewrite length_rev in Hnil. discriminate. }
    clear Hr Hr'. set (x := render rooted (z :: st'')) in *.
    rewrite E in *.
    assert (HD : filepath.Dir (x +:+ String "/" y) = x).
    { unfold filepath.Dir. rewrite (LastIndexByte_last x y "/" Hyfree).
      replace (Z.of_nat (String.length x) + 1)%Z with (Z.of_nat (String.length (x +:+ "/"))).
      - replace (x +:+ String "/" y) with ((x +:+ "/") +:+ y)
          by (rewrite append_assoc; reflexivity).
        rewrite slice_to_app, (Clean_trailing_separator x Hne').
        apply Clean_render, Hst'.
      - rewrite length_append. simpl. lia. }
    rewrite HD.
    destruct (prefix_before_last_separator x y d Hyfree H) as [->|Hp]; auto.
Qed.

(* ================================================================== *)
(** * The installer                                                   *)
(* ================================================================== *)

Lemma sys_bind_inv {A B} (m : sys.S A) (k : A -> sys.S B) tr r tr' :
  sys.bind m k tr = (r, tr') ->
  (exists a tr1, m tr = (Ok a, tr1) /\ k a tr1 = (r, tr'))
  \/ (exists e, m tr = (Err e, tr') /\ r = Err e).
Proof.
  unfold sys.bind. destruct (m tr) as [[a|e] tr1]; intros H.
  - left. eauto.
  - right. inversion H; subst. eauto.
Qed.

Lemma sys_emits_ret {A} P (a : A) : sys_emits P (sys.ret a).
Proof. intros tr r tr' H. inversion H; subst. exists []. rewrite app_nil_r. auto. Qed.

Lemma sys_emits_fail {A} P e : sys_emits P (@sys.fail A e).
Proof. intros tr r tr' H. inversion H; subst. exists []. rewrite app_nil_r. auto. Qed.

Lemma sys_emits_bind {A B} P (m : sys.S A) (k : A -> sys.S B) :
  sys_emits P m -> (forall a, sys_emits P (k a)) -> sys_emits P (sys.bind m k).
Proof.
  intros Hm Hk tr r tr' H.
  apply sys_bind_inv in H as [(a & tr1 & H1 & H2)|(e & H1 & ->)].
  - apply Hm in H1 as (ext1 & -> & F1). apply Hk in H2 as (ext2 & -> & F2).
    exists (ext1 ++ ext2). rewrite app_assoc. split; [reflexivity|].
    apply Forall_app; auto.
  - apply Hm in H1. exact H1.
Qed.

Lemma sys_emits_call P h e : P e -> sys_emits P (sys.call h e).
Proof.
  intros He tr r tr' H. unfold sys.call in H.
  destruct (h_fails h tr e); inversion H; subst; exists [e]; auto.
Qed.

Lemma sys_emits_ask {A} P e (answer : list Sys -> result A) :
  P e -> sys_emits P (sys.ask e answer).
Proof. intros He tr r tr' H. inversion H; subst. exists [e]. auto. Qed.

Lemma sys_emits_wrap {A} P msg (m : sys.S A) : sys_emits P m -> sys_emits P (sys.wrap msg m).
Proof.
  intros Hm tr r tr' H. unfold sys.wrap in H.
  destruct (m tr) as [[a|e] tr1] eqn:E; inversion H; subst; eapply Hm; exact E.
Qed.

Lemma sys_emits_deferred {A} P (cleanup : sys.S unit) (m : sys.S A) :
  sys_emits P cleanup -> sys_emits P m -> sys_emits P (sys.deferred cleanup m).
Proof.
  intros Hc Hm tr r tr' H. unfold sys.deferred in H.
  destruct (m tr) as [r1 tr1] eqn:E1. destruct (cleanup tr1) as [r2 tr2] eqn:E2.
  simpl in H. inversion H; subst.
  apply Hm in E1 as (ext1 & -> & F1). apply Hc in E2 as (ext2 & -> & F2).
  exists (ext1 ++ ext2). rewrite app_assoc. split; [reflexivity|apply Forall_app; auto].
Qed.

Lemma sys_emits_log_only P describe (m : sys.S unit) :
  sys_emits P m -> (forall msg, P (SLog msg)) -> sys_emits P (sys.log_only describe m).
Proof.
  intros Hm Hlog tr r tr' H. unfold sys.log_only in H.
  destruct (m tr) as [[a|e] tr1] eqn:E; inversion H; subst.
  - eapply Hm; exact E.
  - apply Hm in E as (ext & -> & F). exists (ext ++ [SLog (describe e)]).
    rewrite app_assoc. split; [reflexivity|]. apply Forall_app. auto.
Qed.

Lemma copy_rounds_emits P h fuel fpath data :
  (forall chunk, P (SCopyN fpath chunk)) ->
  sys_emits P (copy_rounds h fuel fpath data).
Proof.
  intros HP. revert data. induction fuel as [|fuel IH]; intros data; simpl.
  - apply sys_emits_ret.
  - apply sys_emits_bind; [apply sys_emits_call, HP|]. intros _.
    destruct (String.length data <? 1024)%nat; [apply sys_emits_ret|apply IH].
Qed.

Lemma Join_is_clean l :
  filepath.Join l = "" \/ exists p, filepath.Join l = filepath.Clean p.
Proof.
  induction l as [|e rest IH]; [left; reflexivity|].
  simpl. destruct (nonempty e); [right; eauto|exact IH].
Qed.

Lemma HasPrefix_empty d : strings.HasPrefix "" (d +:+ "/") = false.
Proof. destruct d; reflexivity. Qed.

(** What passes the test of [unzip] is a cleaned path, and its directory
    is [dest] or below it. *)
Lemma below_Join dest name :
  below dest (filepath.Join [dest; name]) = true ->
  filepath.Clean (filepath.Join [dest; name]) = filepath.Join [dest; name]
  /\ (filepath.Dir (filepath.Join [dest; name]) = filepath.Clean dest
      \/ below dest (filepath.Dir (filepath.Join [dest; name])) = true).
Proof.
  unfold below. intros H.
  destruct (Join_is_clean [dest; name]) as [E|[p E]]; rewrite E in *.
  - rewrite HasPrefix_empty in H. discriminate.
  - split; [apply Clean_idempotent|]. apply Dir_below, H.
Qed.

Lemma extract_file_confined h dest f :
  below dest (filepath.Join [dest; zf_Name f]) = true ->
  sys_emits (confined dest) (extract_file h f (filepath.Join [dest; zf_Name f])).
Proof.
  intros H. destruct (below_Join dest (zf_Name f) H) as [Hc Hd].
  unfold extract_file. rewrite Hc.
  apply sys_emits_bind; [apply sys_emits_call; exact Hd|]. intros _.
  apply sys_emits_bind; [apply sys_emits_call; exact H|]. intros _.
  apply sys_emits_bind; [apply sys_emits_call; exact I|]. intros _.
  apply sys_emits_bind; [apply copy_rounds_emits; intros chunk; exact H|]. intros _.
  apply sys_emits_bind; [apply sys_emits_wrap, sys_emits_call; exact H|]. intros _.
  apply sys_emits_wrap, sys_emits_call. exact I.
Qed.

Lemma unzip_files_cons h dest f rest filenames tr :
  unzip_files h dest (f :: rest) filenames tr
  = let fpath := filepath.Join [dest; zf_Name f] in
    if negb (below dest fpath) then
      ((filenames, Some (Errorf (fpath +:+ ": illegal file path"))), tr)
    else if zf_IsDir f then
      match sys.call h (SMkdirAll fpath) tr with
      | (Err e, tr') => (([], Some (Wrap "failed to create subdirectory: " e)), tr')
      | (Ok _, tr') => unzip_files h dest rest (filenames ++ [fpath]) tr'
      end
    else
      match extract_file h f fpath tr with
      | (Err e, tr') => ((filenames ++ [fpath], Some e), tr')
      | (Ok _, tr') => unzip_files h dest rest (filenames ++ [fpath]) tr'
      end.
Proof. reflexivity. Qed.

Lemma unzip_files_confined h dest files names0 tr out tr' :
  Forall (fun p => below dest p = true) names0 ->
  unzip_files h dest files names0 tr = (out, tr') ->
  exists ext, tr' = tr ++ ext /\ Forall (confined dest) ext
              /\ Forall (fun p => below dest p = true) (fst out).
Proof.
  revert names0 tr. induction files as [|f rest IH]; intros names0 tr Hn H.
  - inversion H; subst. exists []. rewrite app_nil_r. auto.
  - rewrite unzip_files_cons in H. cbv zeta in H.
    destruct (below dest (filepath.Join [dest; zf_Name f])) eqn:Hb; cbn [negb] in H.
    + assert (Hn' : Forall (fun p => below dest p = true)
                           (names0 ++ [filepath.Join [dest; zf_Name f]])).
      { apply Forall_app. auto. }
      destruct (zf_IsDir f).
      * destruct (sys.call h (SMkdirAll (filepath.Join [dest; zf_Name f])) tr)
          as [[[]|e] tr1] eqn:Ec;
          apply (sys_emits_call (confined dest)) in Ec as (ext1 & -> & F1);
          try (right; exact Hb).
        -- apply IH in H as (ext2 & -> & F2 & Fn); [|exact Hn'].
           exists (ext1 ++ ext2). rewrite app_assoc. split; [reflexivity|].
           split; [apply Forall_app; auto|exact Fn].
        -- inversion H; subst. exists ext1. simpl. auto.
      * destruct (extract_file h f (filepath.Join [dest; zf_Name f]) tr)
          as [[[]|e] tr1] eqn:Ec;
          apply (extract_file_confined h dest f Hb) in Ec as (ext1 & -> & F1).
        -- apply IH in H as (ext2 & -> & F2 & Fn); [|exact Hn'].
           exists (ext1 ++ ext2). rewrite app_assoc. split; [reflexivity|].
           split; [apply Forall_app; auto|exact Fn].
        -- inversion H; subst. exists ext1. simpl. auto.
    + inversion H; subst. exists []. rewrite app_nil_r. simpl. auto.
Qed.

Lemma unzip_confined h src dest tr names err tr' :
  unzip h src dest tr = ((names, err), tr') ->
  exists ext,
    tr' = tr ++ ext
    /\ Forall (confined dest) ext
    /\ Forall (fun p => below dest p = true) names.
Proof.
  unfold unzip, sys.ask. intros H.
  destruct (h_archive h tr src) as [files|e].
  - destruct (unzip_files h dest files [] (tr ++ [SOpenReader src])) as [out tr1] eqn:E.
    apply unzip_files_confined in E as (ext & -> & F & Fn); [|constructor].
    inversion H; subst. unfold sys.call.
    exists ((SOpenReader src :: ext) ++ [SCloseReader src]).
    split.
    + destruct (h_fails h _ _); simpl; rewrite <- !app_assoc; reflexivity.
    + split; [|exact Fn]. apply Forall_app. split; constructor; simpl; auto.
  - inversion H; subst. exists [SOpenReader src]. split; [reflexivity|].
    split; constructor; simpl; auto.
Qed.

(** X1.  [unzip] never leaves [dest]: whatever the archive holds and
    whatever fails, every path it returns lies below the cleaned [dest],
    and all it does is open and close the archive and its entries, create
    directories at [dest] or below it, and open, write and close files
    below it. *)
Theorem unzip_stays_below_dest h src dest tr :
  exists ext,
    snd (unzip h src dest tr) = tr ++ ext
    /\ Forall (confined dest) ext
    /\ Forall (fun p => below dest p = true) (fst (fst (unzip h src dest tr))).
Proof.
  destruct (unzip h src dest tr) as [[names err] tr'] eqn:E.
  apply unzip_confined in E. exact E.
Qed.

Lemma take_drop_string n s : strings.take n s +:+ strings.drop n s = s.
Proof.
  revert s. induction n as [|n IH]; intros s; [reflexivity|].
  destruct s as [|c s]; [reflexivity|]. simpl. rewrite append_cons, IH. reflexivity.
Qed.

Lemma take_all_string n s : String.length s <= n -> strings.take n s = s.
Proof.
  revert s. induction n as [|n IH]; intros s H.
  - destruct s; [reflexivity|simpl in H; lia].
  - destruct s as [|c s]; [reflexivity|]. simpl in *. rewrite IH by lia. reflexivity.
Qed.

Lemma length_drop_string n s : String.length (strings.drop n s) = String.length s - n.
Proof.
  revert s. induction n as [|n IH]; intros s; [simpl; lia|].
  destruct s as [|c s]; [reflexivity|]. simpl. apply IH.
Qed.

Lemma copy_rounds_S h fuel p data :
  copy_rounds h (S fuel) p data
  = sys.bind (sys.call h (SCopyN p (strings.take 1024 data)))
      (fun _ => if (String.length data <? 1024)%nat then sys.ret tt
                else copy_rounds h fuel p (strings.drop 1024 data)).
Proof. reflexivity. Qed.

Lemma write_step_copy p c0 chunk :
  write_step p (Some c0) (SCopyN p chunk) = Some (c0 +:+ chunk).
Proof. unfold write_step. rewrite String.eqb_refl. reflexivity. Qed.

Lemma write_step_copy_other q p c chunk :
  q <> p -> write_step q c (SCopyN p chunk) = c.
Proof.
  intros H. unfold write_step. apply String.eqb_neq in H.
  rewrite String.eqb_sym, H. reflexivity.
Qed.

Lemma write_step_open p c : write_step p c (SOpenFile p true) = Some "".
Proof. unfold write_step. rewrite String.eqb_refl. reflexivity. Qed.

Lemma write_step_open_other q p c t :
  q <> p -> write_step q c (SOpenFile p t) = c.
Proof.
  intros H. unfold write_step. apply String.eqb_neq in H.
  rewrite String.eqb_sym, H. destruct t; reflexivity.
Qed.

(** The copy loop, run to its end, has copied the data whole, and touched
    no other file. *)
Lemma copy_rounds_content h fuel p data tr tr' :
  String.length data / 1024 < fuel ->
  copy_rounds h fuel p data tr = (Ok tt, tr') ->
  exists ext,
    tr' = tr ++ ext
    /\ (forall c0, fold_left (write_step p) ext (Some c0) = Some (c0 +:+ data))
    /\ (forall q c, q <> p -> fold_left (write_step q) ext c = c).
Proof.
  revert data tr. induction fuel as [|fuel IH]; intros data tr Hfuel H; [lia|].
  rewrite copy_rounds_S in H.
  apply sys_bind_inv in H as [([] & tr1 & Hc & H)|(e & _ & He)]; [|discriminate].
  unfold sys.call in Hc. destruct (h_fails h tr _); inversion Hc; subst; clear Hc.
  destruct (Nat.ltb_spec (String.length data) 1024) as [Hlt|Hge].
  - inversion H; subst. exists [SCopyN p (strings.take 1024 data)].
    split; [reflexivity|]. split.
    + intros c0. cbn [fold_left]. rewrite write_step_copy.
      rewrite take_all_string by lia. reflexivity.
    + intros q c Hq. cbn [fold_left]. apply write_step_copy_other, Hq.
  - apply IH in H as (ext & -> & Hw & Hframe).
    + exists (SCopyN p (strings.take 1024 data) :: ext).
      split; [rewrite <- app_assoc; reflexivity|]. split.
      * intros c0. cbn [fold_left]. rewrite write_step_copy.
        rewrite Hw, append_assoc, take_drop_string. reflexivity.
      * intros q c Hq. cbn [fold_left]. rewrite write_step_copy_other by exact Hq.
        apply Hframe, Hq.
    + rewrite length_drop_string.
      assert (E : String.length data = 1 * 1024 + (String.length data - 1024)) by lia.
      rewrite E, Nat.div_add_l in Hfuel by lia. lia.
Qed.

Lemma extract_file_content h f fpath tr tr' :
  extract_file h f fpath tr = (Ok tt, tr') ->
  exists ext,
    tr' = tr ++ ext
    /\ (forall c, fold_left (write_step (filepath.Clean fpath)) ext c = Some (zf_data f))
    /\ (forall q c, q <> filepath.Clean fpath -> fold_left (write_step q) ext c = c).
Proof.
  unfold extract_file. intros H.
  apply sys_bind_inv in H as [([] & tr1 & Hc1 & H)|(e & _ & He)]; [|discriminate].
  apply sys_bind_inv in H as [([] & tr2 & Hc2 & H)|(e & _ & He)]; [|discriminate].
  apply sys_bind_inv in H as [([] & tr3 & Hc3 & H)|(e & _ & He)]; [|discriminate].
  apply sys_bind_inv in H as [([] & tr4 & Hc4 & H)|(e & _ & He)]; [|discriminate].
  apply sys_bind_inv in H as [([] & tr5 & Hc5 & H)|(e & _ & He)]; [|discriminate].
  unfold sys.wrap, sys.call in *.
  destruct (h_fails h tr _); inversion Hc1; subst; clear Hc1.
  destruct (h_fails h _ (SOpenFile _ _)); inversion Hc2; subst; clear Hc2.
  destruct (h_fails h _ (SOpenEntry _)); inversion Hc3; subst; clear Hc3.
  destruct (h_fails h _ (SClose _)); inversion Hc5; subst; clear Hc5.
  destruct (h_fails h _ (SCloseEntry _)); inversion H; subst; clear H.
  unfold copy_all in Hc4.
  apply copy_rounds_content in Hc4 as (ext & -> & Hw & Hframe); [|lia].
  exists ([SMkdirAll (filepath.Dir fpath); SOpenFile (filepath.Clean fpath) true;
           SOpenEntry (zf_Name f)] ++ ext
          ++ [SClose (filepath.Clean fpath); SCloseEntry (zf_Name f)]).
  split; [rewrite <- !app_assoc; reflexivity|]. split.
  - intros c. rewrite !fold_left_app. cbn [fold_left write_step].
    rewrite String.eqb_refl, Hw. reflexivity.
  - intros q c Hq. rewrite !fold_left_app. cbn [fold_left write_step].
    pose proof Hq as Hq'. apply String.eqb_neq in Hq'. rewrite String.eqb_sym, Hq'.
    rewrite Hframe by exact Hq. reflexivity.
Qed.

Lemma unzip_files_content h dest files names0 tr names tr' :
  unzip_files h dest files names0 tr = ((names, None), tr') ->
  names = names0 ++ map (unzip_path dest) files
  /\ exists ext,
      tr' = tr ++ ext
      /\ (forall q c, ~ In q (map (unzip_path dest) files) ->
                      fold_left (write_step q) ext c = c)
      /\ (List.NoDup (map (unzip_path dest) files) ->
          forall f c, In f files -> zf_IsDir f = false ->
                      fold_left (write_step (unzip_path dest f)) ext c = Some (zf_data f)).
Proof.
  revert names0 tr. induction files as [|f rest IH]; intros names0 tr H.
  - inversion H; subst. split; [rewrite app_nil_r; reflexivity|].
    exists []. rewrite app_nil_r. split; [reflexivity|]. split; [reflexivity|].
    intros _ f c [].
  - rewrite unzip_files_cons in H. cbv zeta in H. fold (unzip_path dest f) in H.
    destruct (below dest (unzip_path dest f)) eqn:Hb; cbn [negb] in H; [|discriminate].
    destruct (below_Join dest (zf_Name f) Hb) as [Hclean _].
    fold (unzip_path dest f) in Hclean.
    assert (Hstep : exists ext1 tr1,
               tr1 = tr ++ ext1
               /\ unzip_files h dest rest (names0 ++ [unzip_path dest f]) tr1
                  = ((names, None), tr')
               /\ (forall q c, q <> unzip_path dest f ->
                               fold_left (write_step q) ext1 c = c)
               /\ (zf_IsDir f = false ->
                   forall c, fold_left (write_step (unzip_path dest f)) ext1 c
                             = Some (zf_data f))).
    { destruct (zf_IsDir f).
      - unfold sys.call in H. destruct (h_fails h tr _); [discriminate|].
        exists [SMkdirAll (unzip_path dest f)], (tr ++ [SMkdirAll (unzip_path dest f)]).
        split; [reflexivity|]. split; [exact H|]. split; [reflexivity|discriminate].
      - destruct (extract_file h f (unzip_path dest f) tr) as [[[]|e] tr1] eqn:E;
          [|discriminate].
        apply extract_file_content in E as (ext1 & -> & Hw & Hframe).
        rewrite Hclean in *.
        exists ext1, (tr ++ ext1). auto. }
    destruct Hstep as (ext1 & tr1 & -> & Hrest & Hframe1 & Hw1).
    apply IH in Hrest as (-> & ext2 & -> & Hframe2 & Hw2).
    split; [rewrite <- app_assoc; reflexivity|].
    exists (ext1 ++ ext2). split; [rewrite app_assoc; reflexivity|]. split.
    + intros q c Hq. rewrite fold_left_app.
      rewrite Hframe1 by (intros ->; apply Hq; left; reflexivity).
      apply Hframe2. intros Hin. apply Hq. right. exact Hin.
    + intros Hnd f' c Hin Hdir. inversion Hnd as [|x l Hnotin Hnd']; subst.
      rewrite fold_left_app. destruct Hin as [->|Hin].
      * rewrite (Hw1 Hdir). apply Hframe2, Hnotin.
      * apply (Hw2 Hnd' f' _ Hin Hdir).
Qed.

(** X2.  A successful [unzip] has listed every file of the archive, in
    order, and left in each file that is not a directory exactly the
    bytes of its entry. *)
Theorem unzip_extracts_entries h src dest tr files names tr' :
  h_archive h tr src = Ok files ->
  List.NoDup (map (unzip_path dest) files) ->
  unzip h src dest tr = ((names, None), tr') ->
  names = map (unzip_path dest) files
  /\ forall f, In f files -> zf_IsDir f = false ->
               file_written (unzip_path dest f) tr' = Some (zf_data f).
Proof.
  intros Har Hnd H. unfold unzip, sys.ask in H. rewrite Har in H.
  destruct (unzip_files h dest files [] (tr ++ [SOpenReader src])) as [[names1 err1] tr1] eqn:E.
  inversion H; subst; clear H.
  apply unzip_files_content in E as (-> & ext & -> & _ & Hw).
  split; [reflexivity|]. intros f Hin Hdir.
  unfold file_written, sys.call.
  assert (Hsnd : forall t, snd (match h_fails h t (SCloseReader src) with
                                | Some err => (@Err unit err, t ++ [SCloseReader src])
                                | None => (Ok tt, t ++ [SCloseReader src])
                                end) = t ++ [SCloseReader src]).
  { intros t. destruct (h_fails h t _); reflexivity. }
  rewrite Hsnd, !fold_left_app. cbn [fold_left write_step].
  rewrite (Hw Hnd f _ Hin Hdir). reflexivity.
Qed.

Lemma unzip_extracts_entries_witness :
  fst (fst (unzip nested_host "/tmp/terraform.zip" "/tmp" []))
  = ["/tmp/bin"; "/tmp/bin/terraform"]
  /\ file_written "/tmp/bin/terraform"
                  (snd (unzip nested_host "/tmp/terraform.zip" "/tmp" []))
     = Some (string_of_list_ascii (repeat "x"%char 2500)).
Proof.
  destruct (unzip nested_host "/tmp/terraform.zip" "/tmp" []) as [[names err] tr'] eqn:E.
  assert (Herr : err = None).
  { apply (f_equal (fun x => snd (fst x))) in E. vm_compute in E. congruence. }
  subst err.
  destruct (unzip_extracts_entries nested_host "/tmp/terraform.zip" "/tmp" []
              nested_archive names tr' eq_refl) as [Hn Hw].
  - vm_compute. repeat constructor; simpl; intuition discriminate.
  - exact E.
  - split; [exact Hn|].
    apply (Hw {| zf_Name := "bin/terraform"; zf_IsDir := false;
                 zf_data := string_of_list_ascii (repeat "x"%char 2500) |});
      [right; left; reflexivity | reflexivity].
Defined.

Lemma find_terraform_found h files tr f tr' :
  find_terraform h files tr = (Ok f, tr') ->
  In f files
  /\ filepath_Base f = "terraform"
  /\ (exists pre, h_isdir h pre f = Ok false)
  /\ exists ext, tr' = tr ++ ext /\ Forall is_stat ext.
Proof.
  revert tr. induction files as [|x rest IH]; intros tr H; [discriminate|].
  simpl in H. apply sys_bind_inv in H as [(isdir & tr1 & Hs & H)|(e & _ & He)]; [|discriminate].
  unfold sys.wrap, sys.ask in Hs.
  destruct (h_isdir h tr x) as [b|e] eqn:Hd; inversion Hs; subst; clear Hs.
  assert (Hrest : find_terraform h rest (tr ++ [SStat x]) = (Ok f, tr') ->
                  In f (x :: rest)
                  /\ filepath_Base f = "terraform"
                  /\ (exists pre, h_isdir h pre f = Ok false)
                  /\ exists ext, tr' = tr ++ ext /\ Forall is_stat ext).
  { intros Hr. apply IH in Hr as (Hin & Hb & Hp & ext & -> & F).
    split; [right; exact Hin|]. split; [exact Hb|]. split; [exact Hp|].
    exists (SStat x :: ext). rewrite <- app_assoc. split; [reflexivity|].
    constructor; [exists x; reflexivity|exact F]. }
  destruct isdir; [apply Hrest, H|].
  destruct (String.eqb (filepath_Base x) "terraform") eqn:Eb; [|apply Hrest, H].
  inversion H; subst. apply String.eqb_eq in Eb.
  split; [left; reflexivity|]. split; [exact Eb|]. split; [eauto|].
  exists [SStat f]. split; [reflexivity|]. constructor; [exists f; reflexivity|constructor].
Qed.

Lemma unzip_success_names h src dest tr names tr' :
  unzip h src dest tr = ((names, None), tr') ->
  exists files, h_archive h tr src = Ok files /\ names = map (unzip_path dest) files.
Proof.
  unfold unzip, sys.ask. intros H.
  destruct (h_archive h tr src) as [files|e]; [|discriminate].
  destruct (unzip_files h dest files [] (tr ++ [SOpenReader src])) as [[names1 err1] tr1] eqn:E.
  inversion H; subst. apply unzip_files_content in E as (-> & _). eauto.
Qed.

Lemma getTerraform_found h version tr f tr' :
  getTerraform h version tr = (Ok f, tr') ->
  filepath_Base f = "terraform"
  /\ strings.HasPrefix f "/tmp/" = true
  /\ (exists pre, h_isdir h pre f = Ok false)
  /\ (exists pre files entry,
        h_archive h pre "/tmp/terraform.zip" = Ok files
        /\ In entry files /\ f = unzip_path "/tmp" entry)
  /\ exists pre post,
      tr' = pre ++ SRemove "/tmp/terraform.zip" :: post
      /\ h_fails h pre (SRemove "/tmp/terraform.zip") = None
      /\ Forall is_stat post.
Proof.
  unfold getTerraform. intros H.
  apply sys_bind_inv in H as [(vers & tr1 & _ & H)|(e & _ & He)]; [|discriminate].
  apply sys_bind_inv in H as [([] & tr2 & _ & H)|(e & _ & He)]; [|discriminate].
  apply sys_bind_inv in H as [(files & tr3 & Hu & H)|(e & _ & He)]; [|discriminate].
  apply sys_bind_inv in H as [([] & tr4 & Hrm & H)|(e & _ & He)]; [|discriminate].
  destruct (unzip h "/tmp/terraform.zip" "/tmp" tr2) as [[names err] tr3'] eqn:E.
  destruct err; inversion Hu; subst; clear Hu.
  destruct (unzip_success_names _ _ _ _ _ _ E) as (archive & Har & Hnames).
  apply unzip_confined in E as (_ & _ & _ & E).
  unfold sys.wrap, sys.call in Hrm.
  destruct (h_fails h tr3 (SRemove "/tmp/terraform.zip")) eqn:Hf; inversion Hrm; subst.
  apply find_terraform_found in H as (Hin & Hb & Hd & ext & -> & F).
  split; [exact Hb|]. split.
  - rewrite List.Forall_forall in E. apply (E f Hin).
  - split; [exact Hd|]. split.
    + apply in_map_iff in Hin as (entry & <- & Hin).
      eexists _, _, entry. split; [exact Har|]. split; [exact Hin|reflexivity].
    + exists tr3, ext. rewrite <- app_assoc. auto.
Qed.

(** X3.  The binary [getTerraform] returns is a file named [terraform]
    below [/tmp], which [os.Stat] did not report as a directory, unpacked
    from a file of the archive; and the archive has been removed, after
    which only the files were examined. *)
Theorem getTerraform_result h version tr f tr' :
  getTerraform h version tr = (Ok f, tr') ->
  filepath_Base f = "terraform"
  /\ strings.HasPrefix f "/tmp/" = true
  /\ (exists pre, h_isdir h pre f = Ok false)
  /\ (exists pre files entry,
        h_archive h pre "/tmp/terraform.zip" = Ok files
        /\ In entry files /\ f = unzip_path "/tmp" entry)
  /\ exists pre post,
      tr' = pre ++ SRemove "/tmp/terraform.zip" :: post
      /\ h_fails h pre (SRemove "/tmp/terraform.zip") = None
      /\ Forall is_stat post.
Proof. apply getTerraform_found. Qed.

Lemma getTerraform_result_witness :
  fst (getTerraform nested_host "latest" []) = Ok "/tmp/bin/terraform"
  /\ filepath_Base "/tmp/bin/terraform" = "terraform"
  /\ strings.HasPrefix "/tmp/bin/terraform" "/tmp/" = true.
Proof.
  destruct (getTerraform nested_host "latest" []) as [r tr'] eqn:E.
  assert (Hr : r = Ok "/tmp/bin/terraform").
  { apply (f_equal fst) in E. vm_compute in E. congruence. }
  subst r. split; [reflexivity|].
  destruct (getTerraform_result nested_host "latest" [] _ _ E) as (Hb & Hp & _).
  split; [exact Hb|exact Hp].
Defined.

Lemma strip_keeps s :
  s <> "" -> lacks "/" s = true -> strip_trailing_separators s = s.
Proof.
  induction s as [|c s IH]; intros Hne Hs; [contradiction|].
  unfold lacks in Hs. simpl in Hs. apply andb_prop in Hs as [Hc Hs].
  apply negb_true_iff in Hc. simpl.
  destruct s as [|d s'].
  - simpl. rewrite Hc. reflexivity.
  - rewrite IH by (discriminate || exact Hs). reflexivity.
Qed.

Lemma strip_keeps_app x y :
  y <> "" -> lacks "/" y = true ->
  strip_trailing_separators (x +:+ y) = x +:+ y.
Proof.
  intros Hne Hy. induction x as [|c x IH].
  - rewrite append_nil_l. apply strip_keeps; assumption.
  - rewrite append_cons. simpl. rewrite IH.
    destruct (x +:+ y) eqn:E; [|reflexivity].
    destruct x; [rewrite append_nil_l in E; contradiction|discriminate].
Qed.

(** The last element of a path that ends in one. *)
Lemma Base_last dir name :
  name <> "" -> lacks "/" name = true ->
  filepath_Base (dir +:+ String "/" name) = name.
Proof.
  intros Hne Hn. unfold filepath_Base.
  assert (E0 : String.eqb (dir +:+ String "/" name) "" = false)
    by (destruct dir; reflexivity).
  rewrite E0.
  replace (dir +:+ String "/" name) with ((dir +:+ "/") +:+ name)
    by (rewrite append_assoc; reflexivity).
  rewrite strip_keeps_app by assumption.
  replace ((dir +:+ "/") +:+ name) with (dir +:+ String "/" name)
    by (rewrite append_assoc; reflexivity).
  rewrite (LastIndexByte_last dir name "/" Hn).
  destruct (Z.leb_spec 0 (Z.of_nat (String.length dir))) as [_|Hneg]; [|lia].
  replace (Z.of_nat (String.length dir) + 1)%Z with (Z.of_nat (String.length (dir +:+ "/")))
    by (rewrite length_append; simpl; lia).
  replace (dir +:+ String "/" name) with ((dir +:+ "/") +:+ name)
    by (rewrite append_assoc; reflexivity).
  rewrite slice_from_app.
  destruct name; [contradiction|reflexivity].
Qed.

Lemma TrimLeft_v ver :
  strings.HasPrefix ver "v" = false -> strings_TrimLeft (String "v" ver) "v" = ver.
Proof.
  intros H. simpl. destruct ver as [|c ver]; [reflexivity|].
  simpl in *. rewrite andb_true_r in H. rewrite H. reflexivity.
Qed.

Lemma latest_of_redirect h tr dir ver :
  h_fails h tr (SHead releases_latest) = None ->
  h_location h (tr ++ [SHead releases_latest]) = Ok (dir +:+ "/v" +:+ ver) ->
  lacks "/" ver = true -> strings.HasPrefix ver "v" = false ->
  latest h tr = (Ok ver, tr ++ [SHead releases_latest; SLocation; SCloseBody]).
Proof.
  intros Hh Hl Hv Hp.
  unfold latest, sys.bind, sys.wrap, sys.call, sys.deferred, sys.ask, sys.ret.
  fold releases_latest. rewrite Hh, Hl.
  replace (dir +:+ "/v" +:+ ver) with (dir +:+ String "/" (String "v" ver))
    by reflexivity.
  rewrite Base_last.
  - rewrite (TrimLeft_v ver Hp).
    destruct (h_fails h _ SCloseBody); simpl; rewrite <- !app_assoc; reflexivity.
  - discriminate.
  - unfold lacks in *. simpl. exact Hv.
Qed.

Lemma downloadFile_appends h u path : sys_emits any_call (downloadFile h u path).
Proof.
  unfold downloadFile.
  apply sys_emits_bind; [apply sys_emits_wrap, sys_emits_call; exact I|]. intros _.
  apply sys_emits_deferred.
  - apply sys_emits_log_only; [apply sys_emits_call; exact I|intros; exact I].
  - apply sys_emits_bind; [apply sys_emits_wrap, sys_emits_call; exact I|]. intros _.
    apply sys_emits_deferred.
    + apply sys_emits_log_only; [apply sys_emits_call; exact I|intros; exact I].
    + apply sys_emits_wrap. intros t0 r0 t0' H0.
      apply (sys_emits_call any_call) in H0; [exact H0|exact I].
Qed.

Lemma find_terraform_appends h files : sys_emits any_call (find_terraform h files).
Proof.
  induction files as [|x rest IH]; simpl.
  - apply sys_emits_fail.
  - apply sys_emits_bind; [apply sys_emits_wrap, sys_emits_ask; exact I|].
    intros isdir. destruct isdir; [exact IH|].
    destruct (String.eqb _ _); [apply sys_emits_ret|exact IH].
Qed.

Lemma any_calls ext : Forall any_call ext.
Proof. apply List.Forall_forall. intros; exact I. Qed.

(** The first thing [downloadFile] does is the GET. *)
Lemma downloadFile_first h u path tr r tr' :
  downloadFile h u path tr = (r, tr') -> exists more, tr' = tr ++ SGet u :: more.
Proof.
  intros H. unfold downloadFile in H.
  apply sys_bind_inv in H as [([] & tr2 & Hg & H)|(e & Hg & _)].
  - unfold sys.wrap, sys.call in Hg.
    destruct (h_fails h tr _); inversion Hg; subst; clear Hg.
    match type of H with
    | ?m _ = _ => assert (Hem : sys_emits any_call m)
    end.
    { apply sys_emits_deferred.
      - apply sys_emits_log_only; [apply sys_emits_call; exact I|intros; exact I].
      - apply sys_emits_bind; [apply sys_emits_wrap, sys_emits_call; exact I|]. intros _.
        apply sys_emits_deferred.
        + apply sys_emits_log_only; [apply sys_emits_call; exact I|intros; exact I].
        + apply sys_emits_wrap. intros t0 r0 t0' H0.
          apply (sys_emits_call any_call) in H0; [exact H0|exact I]. }
    apply Hem in H as (more & -> & _). exists more. rewrite <- app_assoc. reflexivity.
  - unfold sys.wrap, sys.call in Hg.
    destruct (h_fails h tr _); inversion Hg; subst. exists []. reflexivity.
Qed.

(** [getTerraform] once the version is known. *)
Lemma getTerraform_from_download h vers tr :
  exists rest,
    snd (sys.bind (downloadFile h (release_url vers) "/tmp/terraform.zip")
           (fun _ =>
              sys.bind
                (fun tr => match unzip h "/tmp/terraform.zip" "/tmp" tr with
                           | ((names, None), tr') => (Ok names, tr')
                           | ((_, Some e), tr') => (Err e, tr')
                           end)
                (fun files =>
                   sys.bind (sys.wrap "failed to remove /tmp/terraform.zip: "
                                      (sys.call h (SRemove "/tmp/terraform.zip")))
                            (fun _ => find_terraform h files))) tr)
    = tr ++ SGet (release_url vers) :: rest.
Proof.
  match goal with
  | |- exists rest, snd (sys.bind ?m ?k tr) = _ =>
      destruct (sys.bind m k tr) as [r t] eqn:E
  end.
  apply sys_bind_inv in E as [([] & tr2 & Hd & E)|(e & Hd & _)].
  - apply downloadFile_first in Hd as (more & ->).
    match type of E with
    | ?m _ = _ => assert (Hem : sys_emits any_call m)
    end.
    { apply sys_emits_bind.
      - intros t0 r0 t0' H0.
        destruct (unzip h "/tmp/terraform.zip" "/tmp" t0) as [[names err] t2] eqn:Eu.
        apply unzip_confined in Eu as (ext & -> & _).
        exists ext. split; [|apply any_calls]. destruct err; inversion H0; reflexivity.
      - intros files. apply sys_emits_bind; [apply sys_emits_wrap, sys_emits_call; exact I|].
        intros _. apply find_terraform_appends. }
    apply Hem in E as (ext & -> & _). exists (more ++ ext).
    simpl. rewrite <- app_assoc. reflexivity.
  - apply downloadFile_first in Hd as (more & ->). exists more. reflexivity.
Qed.

(** X4.  With version [latest], the archive fetched is that of the version
    the release page redirects to: when the HEAD request is answered by a
    redirect to [<dir>/v<ver>], [latest] returns [ver] and the next call of
    [getTerraform] is the GET of the release archive of [ver]. *)
Theorem latest_release_fetched h tr dir ver :
  h_fails h tr (SHead releases_latest) = None ->
  h_location h (tr ++ [SHead releases_latest]) = Ok (dir +:+ "/v" +:+ ver) ->
  lacks "/" ver = true -> strings.HasPrefix ver "v" = false ->
  latest h tr = (Ok ver, tr ++ [SHead releases_latest; SLocation; SCloseBody])
  /\ exists rest,
      snd (getTerraform h "latest" tr)
      = tr ++ [SHead releases_latest; SLocation; SCloseBody; SGet (release_url ver)]
           ++ rest.
Proof.
  intros Hh Hl Hv Hp.
  pose proof (latest_of_redirect h tr dir ver Hh Hl Hv Hp) as Hlat.
  split; [exact Hlat|].
  unfold getTerraform.
  assert (Ef : strings_EqualFold "latest" "latest" = true) by reflexivity.
  rewrite Ef. unfold sys.bind at 1. rewrite Hlat. fold (release_url ver).
  destruct (getTerraform_from_download h ver
              (tr ++ [SHead releases_latest; SLocation; SCloseBody])) as (rest & Hrest).
  exists rest. rewrite Hrest, <- app_assoc. reflexivity.
Qed.

Lemma latest_release_fetched_witness :
  latest plain_host [] = (Ok "1.0.5", [SHead releases_latest; SLocation; SCloseBody])
  /\ exists rest,
      snd (getTerraform plain_host "latest" [])
      = [SHead releases_latest; SLocation; SCloseBody;
         SGet "https://releases.hashicorp.com/terraform/1.0.5/terraform_1.0.5_linux_amd64.zip"]
        ++ rest.
Proof.
  apply (latest_release_fetched plain_host []
           "https://github.com/hashicorp/terraform/releases/tag" "1.0.5");
    reflexivity.
Defined.

Lemma elem_ok_first e :
  elem_ok e = true ->
  exists c rest, e = String c rest /\ Ascii.eqb c "/" = false
                 /\ (Ascii.eqb c "." = true -> exists d rest', rest = String d rest'
                                                   /\ Ascii.eqb d "/" = false).
Proof.
  intros H. apply elem_ok_spec in H as (E0 & E1 & Hc).
  destruct e as [|c rest]; [discriminate|]. exists c, rest.
  simpl in Hc. destruct (Ascii.eqb c "/") eqn:Ec; [discriminate|].
  split; [reflexivity|]. split; [reflexivity|].
  intros Hdot. apply Ascii.eqb_eq in Hdot. subst c.
  destruct rest as [|d rest']; [discriminate|]. exists d, rest'.
  simpl in Hc. destruct (Ascii.eqb d "/"); [discriminate|auto].
Qed.

(** A cleaned path begins neither with two separators nor with [./]. *)
Lemma render_prefix rooted st :
  ok_stack rooted st = true ->
  strings.HasPrefix (render rooted st) "//" = false
  /\ strings.HasPrefix (render rooted st) "./" = false.
Proof.
  intros Hok. destruct st as [|e below'].
  { destruct rooted; split; reflexivity. }
  destruct (render_nonempty_stack _ _ _ Hok) as [Hr _].
  pose proof (ok_stack_elems _ _ Hok) as Helems.
  destruct (rev_cons_head e below') as (y & l' & Hrev).
  assert (Hy : elem_ok y = true).
  { assert (Hl : Forall (fun x => elem_ok x = true) (y :: l')).
    { rewrite <- Hrev. apply Forall_rev. exact Helems. }
    inversion Hl; assumption. }
  rewrite Hr, Hrev. destruct (Join_head_prefix y l' "/") as (tail & ->).
  destruct (elem_ok_first y Hy) as (c & rest & -> & Hc & Hdot).
  destruct rooted.
  - split; [|reflexivity].
    change ("/" +:+ String c rest +:+ tail) with (String "/" (String c (rest +:+ tail))).
    simpl. rewrite Hc. reflexivity.
  - rewrite append_nil_l, append_cons. split.
    + simpl. rewrite Hc. reflexivity.
    + simpl. destruct (Ascii.eqb c ".") eqn:Ed; [|reflexivity].
      destruct (Hdot eq_refl) as (d & rest' & -> & Hd).
      rewrite append_cons. simpl. rewrite Hd. reflexivity.
Qed.

Lemma Join_prefix l :
  strings.HasPrefix (filepath.Join l) "//" = false
  /\ strings.HasPrefix (filepath.Join l) "./" = false.
Proof.
  destruct (Join_is_clean l) as [->|[p ->]]; [split; reflexivity|].
  destruct (Clean_is_render p) as (st & Hok & ->). apply render_prefix, Hok.
Qed.

(** X5.  [unzip] cannot unpack into the root directory or the current
    one: there the test for paths that leave [dest] rejects every file,
    and the first file of the archive ends the extraction. *)
Theorem unzip_rejects_root_and_cwd h src dest tr f rest :
  filepath.Clean dest = "/" \/ filepath.Clean dest = "." ->
  h_archive h tr src = Ok (f :: rest) ->
  unzip h src dest tr
  = (([], Some (Errorf (unzip_path dest f +:+ ": illegal file path"))),
     tr ++ [SOpenReader src; SCloseReader src]).
Proof.
  intros Hd Har. unfold unzip, sys.ask. rewrite Har, unzip_files_cons. cbv zeta.
  assert (Hb : below dest (filepath.Join [dest; zf_Name f]) = false).
  { unfold below. destruct (Join_prefix [dest; zf_Name f]) as [H1 H2].
    destruct Hd as [->| ->]; assumption. }
  rewrite Hb. cbn [negb snd]. unfold sys.call, unzip_path.
  destruct (h_fails h _ _); simpl; rewrite <- app_assoc; reflexivity.
Qed.

Lemma unzip_rejects_root_and_cwd_witness :
  unzip plain_host "/tmp/terraform.zip" "." []
  = (([], Some (Errorf "terraform: illegal file path")),
     [SOpenReader "/tmp/terraform.zip"; SCloseReader "/tmp/terraform.zip"]).
Proof.
  apply (unzip_rejects_root_and_cwd plain_host "/tmp/terraform.zip" "." []
           {| zf_Name := "terraform"; zf_IsDir := false; zf_data := "ELF" |} []).
  - right. reflexivity.
  - reflexivity.
Defined.

(* ================================================================== *)
(** * Jobs: directories, addresses, processes                         *)
(* ================================================================== *)

Lemma emits_step_eq {A B} P (m : M A) (k : A -> M B) tr r tr' :
  emits P m -> Forall P tr -> bind m k tr = (r, tr') ->
  (exists a ext, m tr = (Ok a, tr ++ ext) /\ Forall P (tr ++ ext)
                 /\ k a (tr ++ ext) = (r, tr'))
  \/ (exists e, r = Err e /\ Forall P tr').
Proof.
  intros Hm Htr H. apply bind_inv in H as [(a & tr1 & H1 & H2)|(e & H1 & ->)].
  - left. pose proof H1 as H1'. apply Hm in H1 as (ext & -> & F).
    exists a, ext. split; [exact H1'|]. split; [apply Forall_app; auto|exact H2].
  - right. exists e. split; [reflexivity|].
    apply Hm in H1 as (ext & -> & F). apply Forall_app; auto.
Qed.

(** The terraform processes of a job: both run the installed binary in
    the job's directory, with the variables of the request, the
    credentials STS returned for the job's role, and the three settings
    [execute] adds. *)
Lemma execute_processes w lib a req r tr cmd :
  execute w lib a req [] = (r, tr) ->
  In (EStart cmd) tr ->
  exists pre post cred,
    tr = pre ++ EAssumeRole (job_role a req) (Name req) :: post
    /\ w_assumeRole w pre (job_role a req) (Name req) = Ok cred
    /\ (cmd_Args cmd = init_args \/ cmd_Args cmd = apply_args)
    /\ cmd = {| cmd_Path := tf a; cmd_Args := cmd_Args cmd;
                cmd_Env := job_env lib req cred; cmd_Dir := job_dir req |}.
Proof.
  intros H Hin. unfold execute in H. cbv zeta in H.
  fold (job_dir req) in H. fold (job_role a req) in H.
  assert (Hq : Forall quiet (@nil Event)) by constructor.
  revert H Hq. generalize (@nil Event) as tr0. intros tr0 H Hq.
  repeat match type of H with
         | bind (runTf _ _ _ _ _ _) _ _ = _ => fail 1
         | bind ?m ?k ?t = _ =>
             let Hm := fresh "Hm" in
             let Heq := fresh "Heq" in
             assert (Hm : emits quiet m)
               by first [ apply checkout_quiet | apply getModules_quiet
                        | unfold createBackend, assumeRole, createGitConfig;
                          first [ apply emits_wrap, emits_call; reflexivity
                                | apply emits_wrap, emits_ask; reflexivity ] ];
             destruct (emits_step_eq quiet m k t _ _ Hm Hq H)
               as [(? & ? & Heq & Hq' & H')|(? & -> & Hq')];
             clear H Hm;
             [ clear Hq; rename Hq' into Hq; rename H' into H
             | exfalso; apply (quiet_not_process _ _ Hq') in Hin; discriminate Hin ]
         end.
  assert (Hrole : w_assumeRole w (((tr0 ++ x0) ++ x2) ++ x4) (job_role a req) (Name req)
                  = Ok x5
                  /\ x6 = [EAssumeRole (job_role a req) (Name req)]).
  { unfold assumeRole, wrap, ask in Heq2.
    destruct (w_assumeRole w _ (job_role a req) (Name req)) as [c|e];
      inversion Heq2 as [[Hc Ht]]; subst.
    apply app_inv_head in Ht. auto. }
  destruct Hrole as [Hrole ->].
  exists (((tr0 ++ x0) ++ x2) ++ x4).
  assert (Henv : getEnv lib (Variables req) ++ getCredEnv x5
                 ++ ["TF_PLUGIN_CACHE_DIR=" +:+ filepath.Join ["/tmp"; "terraform.d"; "plugins"]]
                 ++ ["TF_LOG=" +:+ LogLevel req] ++ ["HOME=" +:+ job_dir req]
                 = job_env lib req x5) by reflexivity.
  rewrite Henv in H. clear Henv.
  clear Heq Heq0 Heq1 Heq2 Heq3 Heq4 Heq5 Heq6.
  set (T := ((((((((tr0 ++ x0) ++ x2) ++ x4)
                   ++ [EAssumeRole (job_role a req) (Name req)]) ++ x8) ++ x10) ++ x12)
             ++ x14)) in *.
  unfold runTf, bind, wrap, call, reader, ret in H.
  repeat match type of H with
         | context [w_fails ?w ?t ?e] =>
             let E := fresh "E" in destruct (w_fails w t e) eqn:E
         | context [readOutput ?n ?x ?y] => destruct (readOutput n x y)
         end.
  all: inversion H; subst; clear H.
  all: repeat rewrite <- app_assoc in Hin.
  all: apply in_app_or in Hin as [Hin|Hin];
       [ apply (quiet_not_process _ _ Hq) in Hin; discriminate Hin | ].
  all: simpl in Hin.
  all: repeat (destruct Hin as [Hin|Hin]; [try discriminate Hin|]); try contradiction.
  all: injection Hin as <-.
  all: eexists _, x5.
  all: (split; [unfold T; repeat rewrite <- app_assoc; simpl; reflexivity|]).
  all: (split; [exact Hrole|]).
  all: (split; [simpl; auto|reflexivity]).
Qed.

Lemma plain_or_empty_free e : plain_or_empty e = true -> strings.CountByte e "/" = 0.
Proof.
  unfold plain_or_empty. intros H. apply orb_prop in H as [H|H].
  - apply String.eqb_eq in H. subst. reflexivity.
  - apply plain_element_spec in H. tauto.
Qed.

Lemma plain_elem_ok e : plain_element e = true -> elem_ok e = true.
Proof.
  intros H. apply plain_element_spec in H as (_ & H0 & H1 & _ & Hc).
  unfold elem_ok, nonempty. rewrite H0, H1, Hc. reflexivity.
Qed.

(** Cleaning a path whose elements are plain or empty only drops the
    empty ones. *)
Lemma Clean_plain_pieces s :
  Forall (fun e => plain_or_empty e = true) (strings.Split s "/") ->
  filepath.Clean s
  = render (strings.HasPrefix s "/") (rev (List.filter nonempty (strings.Split s "/"))).
Proof.
  intros H. rewrite Clean_render_fold, fold_clean_plain by exact H.
  rewrite app_nil_r. reflexivity.
Qed.

Lemma filter_plain l :
  Forall (fun e => plain_element e = true) l -> List.filter nonempty l = l.
Proof.
  induction 1 as [|e rest He Hrest IH]; [reflexivity|].
  cbn [List.filter]. rewrite IH. apply plain_element_spec in He as (_ & H0 & _).
  unfold nonempty. rewrite H0. reflexivity.
Qed.

Lemma filter_plain_or_empty l :
  Forall (fun e => plain_or_empty e = true) l ->
  Forall (fun e => plain_element e = true) (List.filter nonempty l).
Proof.
  induction 1 as [|e rest He Hrest IH]; [constructor|].
  cbn [List.filter]. unfold plain_or_empty in He. destruct (nonempty e) eqn:En; [|exact IH].
  constructor; [|exact IH]. unfold nonempty in En. apply negb_true_iff in En.
  rewrite En in He. exact He.
Qed.

Lemma render_relative l :
  l <> [] -> Forall (fun e => plain_element e = true) l ->
  render false (rev l) = strings.Join l "/".
Proof.
  intros Hne H. unfold render. rewrite rev_involutive, append_nil_l.
  destruct l as [|e rest]; [contradiction|].
  inversion H; subst.
  rewrite Join_nonempty_head; [reflexivity|].
  match goal with Hp : plain_element e = true |- _ =>
    apply plain_element_spec in Hp; tauto end.
Qed.

(** Joining elements that are plain or empty keeps the plain ones, in
    order, one separator between them. *)
Lemma Join_plain_pieces comps :
  Forall (fun e => plain_or_empty e = true) comps ->
  filepath.Join comps = strings.Join (List.filter nonempty comps) "/".
Proof.
  induction 1 as [|e rest He Hrest IH]; [reflexivity|].
  cbn [filepath.Join List.filter]. destruct (nonempty e) eqn:En; [|exact IH].
  assert (Hall : Forall (fun x => plain_or_empty x = true) (e :: rest))
    by (constructor; assumption).
  assert (Hfree : Forall (fun x => strings.CountByte x "/" = 0) (e :: rest)).
  { eapply List.Forall_impl; [|exact Hall]. apply plain_or_empty_free. }
  assert (Hs : strings.Split (strings.Join (e :: rest) "/") "/" = e :: rest)
    by (apply Split_Join; [discriminate|exact Hfree]).
  rewrite Clean_plain_pieces by (rewrite Hs; exact Hall).
  rewrite Hs.
  assert (Hp : strings.HasPrefix (strings.Join (e :: rest) "/") "/" = false).
  { destruct (Join_head_prefix e rest "/") as (tail & ->).
    apply HasPrefix_slash_free. apply plain_elem_ok.
    unfold plain_or_empty in He. unfold nonempty in En. apply negb_true_iff in En.
    rewrite En in He. exact He. }
  rewrite Hp.
  pose proof (filter_plain_or_empty _ Hall) as Hplain.
  assert (Hf : List.filter nonempty (e :: rest) = e :: List.filter nonempty rest)
    by (cbn [List.filter]; rewrite En; reflexivity).
  rewrite Hf in *. apply render_relative; [discriminate|exact Hplain].
Qed.

Lemma Split_module_dir key :
  plain_element key = true ->
  strings.Split (".terraform/modules/" +:+ key) "/" = [".terraform"; "modules"; key].
Proof.
  intros H. apply plain_element_spec in H as (_ & _ & _ & _ & Hc).
  change (".terraform/modules/" +:+ key)
    with (".terraform" +:+ String "/" ("modules" +:+ String "/" key)).
  rewrite !Split_app_sep by reflexivity. rewrite Split_no_sep by exact Hc. reflexivity.
Qed.

Lemma plain_terraform : plain_element ".terraform" = true /\ plain_element "modules" = true.
Proof. split; reflexivity. Qed.

(** The directory of a module whose sub-path is made of plain elements. *)
Lemma Join_module_subpath key comps :
  plain_element key = true ->
  Forall (fun e => plain_or_empty e = true) comps ->
  filepath.Join [".terraform/modules/" +:+ key; filepath.Join comps]
  = strings.Join ((".terraform/modules/" +:+ key) :: List.filter nonempty comps) "/".
Proof.
  intros Hkey Hcomps. rewrite (Join_plain_pieces comps Hcomps).
  pose proof (filter_plain_or_empty _ Hcomps) as Hl.
  set (l := List.filter nonempty comps) in *.
  unfold filepath.Join.
  assert (Hn : nonempty (".terraform/modules/" +:+ key) = true) by reflexivity.
  rewrite Hn.
  assert (Hj : strings.Join [".terraform/modules/" +:+ key; strings.Join l "/"] "/"
               = (".terraform/modules/" +:+ key) +:+ String "/" (strings.Join l "/"))
    by reflexivity.
  rewrite Hj.
  assert (Hsplit : strings.Split ((".terraform/modules/" +:+ key)
                                  +:+ String "/" (strings.Join l "/")) "/"
                   = [".terraform"; "modules"; key]
                     ++ match l with [] => [""] | _ => l end).
  { rewrite Split_app, (Split_module_dir key Hkey). f_equal.
    destruct l as [|e rest]; [reflexivity|].
    apply Split_Join; [discriminate|].
    eapply List.Forall_impl; [|exact Hl]. intros x Hx.
    apply plain_element_spec in Hx. tauto. }
  assert (Hall : Forall (fun e => plain_or_empty e = true)
                        ([".terraform"; "modules"; key]
                         ++ match l with [] => [""] | _ => l end)).
  { apply Forall_app. split.
    - repeat constructor. unfold plain_or_empty. rewrite Hkey. apply orb_true_r.
    - destruct l; [repeat constructor|].
      eapply List.Forall_impl; [|exact Hl]. intros x Hx.
      unfold plain_or_empty. rewrite Hx. apply orb_true_r. }
  rewrite Clean_plain_pieces by (rewrite Hsplit; exact Hall).
  rewrite Hsplit.
  assert (Hp : strings.HasPrefix ((".terraform/modules/" +:+ key)
                                  +:+ String "/" (strings.Join l "/")) "/" = false)
    by reflexivity.
  rewrite Hp.
  assert (Hf : List.filter nonempty ([".terraform"; "modules"; key]
                                     ++ match l with [] => [""] | _ => l end)
               = [".terraform"; "modules"; key] ++ l).
  { rewrite List.filter_app. f_equal.
    - cbn [List.filter]. apply plain_element_spec in Hkey as (_ & H0 & _).
      assert (Hne : nonempty key = true) by (unfold nonempty; rewrite H0; reflexivity).
      rewrite Hne. reflexivity.
    - destruct l as [|e rest] eqn:El; [reflexivity|]. rewrite <- El in *.
      apply filter_plain, Hl. }
  rewrite Hf, render_relative.
  - destruct l as [|e rest].
    + change ([".terraform"; "modules"; key] ++ []) with [".terraform"; "modules"; key].
      reflexivity.
    + change ([".terraform"; "modules"; key] ++ e :: rest)
        with (".terraform" :: "modules" :: key :: e :: rest).
      rewrite !Join_cons_cons, ?append_assoc. reflexivity.
  - discriminate.
  - apply Forall_app. split; [|exact Hl]. repeat constructor. exact Hkey.
Qed.

(** X6.  The directory recorded for a module follows the path of the URL
    that [url.Parse] reads from its address.  When that path holds a
    [.git] marker, the directory is the base directory followed by the
    elements of the path after the marker, one separator between them
    however many the path has.  When it holds none, as for an opaque
    address, whose path is empty, the directory is the base directory. *)
Theorem module_dir_keeps_subpath key source u :
  url.Parse source = Some u ->
  (forall n,
     strings.Index (url.Path u) ".git" = n -> (-1 < n)%Z ->
     plain_element key = true ->
     Forall (fun e => plain_or_empty e = true)
            (strings.Split (slice_from (url.Path u) (n + 4)) "/") ->
     module_of_match key source
     = Ok {| Key := key; Source := source;
             Dir := strings.Join
                      ((".terraform/modules/" +:+ key)
                       :: List.filter nonempty
                            (strings.Split (slice_from (url.Path u) (n + 4)) "/")) "/";
             RootDir := ".terraform/modules/" +:+ key |})
  /\ (strings.Index (url.Path u) ".git" = (-1)%Z ->
      module_of_match key source
      = Ok {| Key := key; Source := source;
              Dir := ".terraform/modules/" +:+ key;
              RootDir := ".terraform/modules/" +:+ key |}).
Proof.
  intros Hparse. split.
  - intros n Hn Hpos Hkey Hcomps. unfold module_of_match.
    rewrite Hparse, Hn.
    destruct (Z.ltb_spec (-1) n) as [_|Hle]; [|lia].
    rewrite (Join_module_subpath key _ Hkey Hcomps). reflexivity.
  - intros Hn. unfold module_of_match. rewrite Hparse, Hn. reflexivity.
Qed.

(** An address with slashes to spare after the marker, and the address
    of the worked example behind a [git::] prefix, which is opaque. *)
Lemma module_dir_keeps_subpath_witness :
  module_of_match "vpc" "https://example.com/org/repo.git///modules//net/vpc/?ref=v2"
  = Ok {| Key := "vpc";
          Source := "https://example.com/org/repo.git///modules//net/vpc/?ref=v2";
          Dir := ".terraform/modules/vpc/modules/net/vpc";
          RootDir := ".terraform/modules/vpc" |}
  /\ module_of_match "foo" "git::https://example.com/org/repo.git//modules/foo?ref=v2"
     = Ok {| Key := "foo";
             Source := "git::https://example.com/org/repo.git//modules/foo?ref=v2";
             Dir := ".terraform/modules/foo";
             RootDir := ".terraform/modules/foo" |}.
Proof.
  split.
  - apply (proj1 (module_dir_keeps_subpath "vpc"
                    "https://example.com/org/repo.git///modules//net/vpc/?ref=v2"
                    (plain_url "https" "example.com" "/org/repo.git///modules//net/vpc/"
                               (Some "ref=v2"))
                    ltac:(vm_compute; reflexivity)) 9%Z).
    + vm_compute. reflexivity.
    + lia.
    + reflexivity.
    + vm_compute. repeat constructor.
  - apply (proj2 (module_dir_keeps_subpath "foo"
                    "git::https://example.com/org/repo.git//modules/foo?ref=v2"
                    opaque_example
                    ltac:(vm_compute; reflexivity))).
    vm_compute. reflexivity.
Defined.

Lemma job_dir_plain req :
  plain_element (Name req) = true -> job_dir req = "/tmp/" +:+ Name req.
Proof.
  intros H. unfold job_dir, filepath.Join.
  assert (Hn : nonempty "/tmp" = true) by reflexivity. rewrite Hn.
  assert (Hj : strings.Join ["/tmp"; Name req] "/" = "/tmp" +:+ String "/" (Name req))
    by reflexivity.
  rewrite Hj.
  assert (Hs : strings.Split ("/tmp" +:+ String "/" (Name req)) "/" = [""; "tmp"; Name req]).
  { rewrite Split_app. pose proof (plain_element_spec _ H) as (_ & _ & _ & _ & Hc).
    rewrite (Split_no_sep (Name req) "/" Hc). reflexivity. }
  rewrite Clean_plain_pieces.
  - rewrite Hs. cbn [List.filter].
    pose proof (plain_element_spec _ H) as (_ & H0 & _).
    assert (Hne : nonempty (Name req) = true) by (unfold nonempty; rewrite H0; reflexivity).
    rewrite Hne. reflexivity.
  - rewrite Hs. repeat constructor. unfold plain_or_empty. rewrite H. apply orb_true_r.
Qed.

Lemma append_inj_l p s t : p +:+ s = p +:+ t -> s = t.
Proof.
  induction p as [|c p IH]; [auto|]. rewrite !append_cons. intros H.
  inversion H. auto.
Qed.

Lemma HasPrefix_append_same p s t :
  strings.HasPrefix (p +:+ s) (p +:+ t) = strings.HasPrefix s t.
Proof.
  induction p as [|c p IH]; [reflexivity|]. rewrite !append_cons.
  simpl. rewrite Ascii.eqb_refl. exact IH.
Qed.

(** X7.  Jobs with distinct plain names work in distinct directories,
    neither inside the other. *)
Theorem job_directories_are_disjoint req1 req2 :
  plain_element (Name req1) = true -> plain_element (Name req2) = true ->
  Name req1 <> Name req2 ->
  job_dir req1 = "/tmp/" +:+ Name req1
  /\ job_dir req1 <> job_dir req2
  /\ strings.HasPrefix (job_dir req2) (job_dir req1 +:+ "/") = false.
Proof.
  intros H1 H2 Hne. rewrite (job_dir_plain req1 H1), (job_dir_plain req2 H2).
  split; [reflexivity|]. split.
  - intros E. apply append_inj_l in E. contradiction.
  - rewrite append_assoc, HasPrefix_append_same.
    apply HasPrefix_needs_separator, lacks_of_count.
    apply plain_element_spec in H2. tauto.
Qed.

Lemma job_directories_are_disjoint_witness :
  job_dir acct1 = "/tmp/acct-1"
  /\ job_dir acct1 <> job_dir acct2
  /\ strings.HasPrefix (job_dir acct2) (job_dir acct1 +:+ "/") = false.
Proof.
  apply (job_directories_are_disjoint acct1 acct2); [reflexivity|reflexivity|discriminate].
Defined.

Lemma HasPrefix_app_l s t p :
  strings.HasPrefix s p = true -> strings.HasPrefix (s +:+ t) p = true.
Proof.
  revert s. induction p as [|c p IH]; intros s H; [reflexivity|].
  destruct s as [|d s]; [discriminate|]. rewrite append_cons. simpl in *.
  apply andb_prop in H as [Hc H]. rewrite Hc, (IH s H). reflexivity.
Qed.

Lemma HasPrefix_refl s : strings.HasPrefix s s = true.
Proof. induction s as [|c s IH]; [reflexivity|]. simpl. rewrite Ascii.eqb_refl. exact IH. Qed.

(** A printed URL with a scheme begins with the scheme and a colon. *)
Lemma String_scheme_prefix u :
  nonempty (url.Scheme u) = true ->
  strings.HasPrefix (url.String_ u) (url.Scheme u +:+ ":") = true.
Proof.
  intros Hs. unfold url.String_. rewrite Hs. cbv zeta.
  repeat match goal with
         | |- context [if ?b then _ else _] => destruct b
         end;
    repeat first [apply HasPrefix_refl | apply HasPrefix_app_l].
Qed.

(** X8.  Whatever the address, its normalized form is an [https] one. *)
Theorem normalized_address_is_https source u ref :
  normalizedSource source = Ok (u, ref) ->
  strings.HasPrefix u "https:" = true.
Proof.
  unfold normalizedSource. destruct (url.Parse source) as [parsed|]; [|discriminate].
  intros H. inversion H as [[Hu Hr]].
  match goal with
  | |- strings.HasPrefix (url.String_ ?v) _ = true =>
      apply (String_scheme_prefix v); reflexivity
  end.
Qed.

Lemma normalized_address_is_https_witness :
  normalizedSource "ssh://git@github.com/org/repo.git?ref=v1"
  = Ok ("https://git@github.com/org/repo", "v1")
  /\ strings.HasPrefix "https://git@github.com/org/repo" "https:" = true.
Proof.
  assert (E : normalizedSource "ssh://git@github.com/org/repo.git?ref=v1"
              = Ok ("https://git@github.com/org/repo", "v1"))
    by (vm_compute; reflexivity).
  split; [exact E|exact (normalized_address_is_https _ _ _ E)].
Defined.

Lemma unescape_query_byte c rest :
  ref_byte c = true ->
  url.unescape (String c rest) url.encodeQueryComponent
  = String c <$> url.unescape rest url.encodeQueryComponent.
Proof.
  destruct c as [[] [] [] [] [] [] [] []]; intros H; try discriminate H; reflexivity.
Qed.

Lemma unescape_query_plain v :
  all_bytes ref_byte v = true -> url.unescape v url.encodeQueryComponent = Some v.
Proof.
  induction v as [|c v IH]; [reflexivity|]. simpl all_bytes.
  intros H. apply andb_prop in H as [Hc Hv].
  rewrite unescape_query_byte by exact Hc. rewrite (IH Hv). reflexivity.
Qed.

Lemma ref_byte_facts c :
  ref_byte c = true -> query_byte c = true /\ one_of "&;" c = false.
Proof.
  destruct c as [[] [] [] [] [] [] [] []]; intros H; try discriminate H; split; reflexivity.
Qed.

Lemma query_pieces_cons c rest :
  url.query_pieces (String c rest)
  = if one_of "&;" c then "" :: url.query_pieces rest
    else match url.query_pieces rest with
         | piece :: pieces => String c piece :: pieces
         | [] => [String c ""]
         end.
Proof. reflexivity. Qed.

Lemma query_pieces_plain v :
  all_bytes ref_byte v = true -> url.query_pieces v = [v].
Proof.
  induction v as [|c v IH]; [reflexivity|]. simpl all_bytes.
  intros H. apply andb_prop in H as [Hc Hv]. apply ref_byte_facts in Hc as [_ Hc].
  rewrite query_pieces_cons, Hc, (IH Hv). reflexivity.
Qed.

Lemma Query_get_ref u v :
  url.RawQuery u = "ref=" +:+ v -> all_bytes ref_byte v = true ->
  url.Query_get u "ref" = [v].
Proof.
  intros Hq Hv. unfold url.Query_get. rewrite Hq.
  assert (Hall : all_bytes ref_byte ("ref=" +:+ v) = true).
  { rewrite all_bytes_app, Hv. reflexivity. }
  rewrite (query_pieces_plain _ Hall). simpl flat_map. rewrite app_nil_r.
  unfold url.query_piece.
  assert (E0 : String.eqb ("ref=" +:+ v) "" = false) by reflexivity.
  assert (Ei : strings.IndexByte ("ref=" +:+ v) "=" = 3%Z) by reflexivity.
  rewrite E0, Ei. cbn [Z.leb Z.compare].
  assert (Ek : slice_to ("ref=" +:+ v) 3 = "ref") by reflexivity.
  assert (Ev : slice_from ("ref=" +:+ v) (3 + 1) = v) by reflexivity.
  rewrite Ek, Ev, (unescape_query_plain v Hv).
  reflexivity.
Qed.

(** X9.  The revision of a module is the value of [ref] in the query of
    its address, and the empty one when the address has no query. *)
Theorem revision_is_the_ref_value (scheme host path v : string) :
  plain_address scheme host path None = true ->
  all_bytes ref_byte v = true ->
  normalizedSource (assemble scheme host path (Some ("ref=" +:+ v)))
  = Ok (assemble "https" host (repository_path path) None, v)
  /\ normalizedSource (assemble scheme host path None)
     = Ok (assemble "https" host (repository_path path) None, "").
Proof.
  intros H Hv.
  assert (Hq : plain_address scheme host path (Some ("ref=" +:+ v)) = true).
  { apply plain_address_parts in H as (Hs & Hne & Hh & Hport & Hp & Hshape & _).
    apply plain_address_intro; auto.
    rewrite all_bytes_app. apply andb_true_intro. split; [reflexivity|].
    eapply all_bytes_impl; [|exact Hv]. intros c Hc. apply ref_byte_facts in Hc. tauto. }
  split.
  - rewrite (normalizedSource_plain _ _ _ _ Hq).
    rewrite (Query_get_ref (plain_url (strings.ToLower scheme) host path
                                      (Some ("ref=" +:+ v))) v eq_refl Hv).
    reflexivity.
  - rewrite (normalizedSource_plain _ _ _ _ H). reflexivity.
Qed.

Lemma revision_is_the_ref_value_witness :
  normalizedSource "https://github.com/org/net.git?ref=v1.2.0"
  = Ok ("https://github.com/org/net", "v1.2.0")
  /\ normalizedSource "https://github.com/org/net.git" = Ok ("https://github.com/org/net", "").
Proof.
  apply (revision_is_the_ref_value "https" "github.com" "/org/net.git" "v1.2.0");
    reflexivity.
Defined.

(* ================================================================== *)
(** * The relay of a job's output                                     *)
(* ================================================================== *)

Lemma rev_app_append s acc t :
  String.rev_app s acc +:+ t = String.rev_app s (acc +:+ t).
Proof.
  revert acc. induction s as [|c s IH]; intros acc; [reflexivity|].
  simpl. rewrite IH. reflexivity.
Qed.

Lemma scan_lines_LF rest cur n :
  bufio.scan_lines (String LF rest) cur n
  = if (bufio.MaxScanTokenSize <=? Z.of_nat n)%Z then ([], true)
    else (bufio.dropCR (String.rev cur) :: fst (bufio.scan_lines rest "" 0),
          snd (bufio.scan_lines rest "" 0)).
Proof.
  simpl. destruct (bufio.MaxScanTokenSize <=? Z.of_nat n)%Z; [reflexivity|].
  destruct (bufio.scan_lines rest "" 0). reflexivity.
Qed.

Lemma scan_lines_byte c rest cur n :
  Ascii.eqb c LF = false ->
  bufio.scan_lines (String c rest) cur n = bufio.scan_lines rest (String c cur) (S n).
Proof. intros H. simpl. rewrite H. reflexivity. Qed.

Lemma lacks_cons c d s : lacks c (String d s) = negb (Ascii.eqb d c) && lacks c s.
Proof. reflexivity. Qed.

(** Scanning one line that fits. *)
Lemma scan_lines_line line rest cur n :
  lacks LF line = true ->
  (Z.of_nat (n + String.length line) < bufio.MaxScanTokenSize)%Z ->
  bufio.scan_lines (line +:+ String LF rest) cur n
  = (bufio.dropCR (String.rev_app cur line) :: fst (bufio.scan_lines rest "" 0),
     snd (bufio.scan_lines rest "" 0)).
Proof.
  revert cur n. induction line as [|c line IH]; intros cur n Hl Hn.
  - rewrite append_nil_l, scan_lines_LF.
    destruct (Z.leb_spec bufio.MaxScanTokenSize (Z.of_nat n)) as [Hge|_];
      [simpl in Hn; lia|].
    reflexivity.
  - rewrite lacks_cons in Hl. apply andb_prop in Hl as [Hc Hl].
    apply negb_true_iff in Hc.
    rewrite append_cons, scan_lines_byte by exact Hc.
    rewrite IH; [|exact Hl|simpl in Hn; lia].
    reflexivity.
Qed.

(** Scanning what follows the last newline. *)
Lemma scan_lines_tail tail cur n :
  lacks LF tail = true ->
  (Z.of_nat (n + String.length tail) < bufio.MaxScanTokenSize)%Z ->
  bufio.scan_lines tail cur n
  = (if (n + String.length tail =? 0)%nat then []
     else [bufio.dropCR (String.rev_app cur tail)], false).
Proof.
  revert cur n. induction tail as [|c tail IH]; intros cur n Hl Hn.
  - simpl. rewrite Nat.add_0_r. destruct (n =? 0)%nat; [reflexivity|].
    destruct (Z.leb_spec bufio.MaxScanTokenSize (Z.of_nat n)) as [Hge|_];
      [simpl in Hn; lia|reflexivity].
  - rewrite lacks_cons in Hl. apply andb_prop in Hl as [Hc Hl].
    apply negb_true_iff in Hc.
    rewrite scan_lines_byte by exact Hc.
    rewrite IH; [|exact Hl|simpl in Hn; lia].
    simpl String.length.
    replace (S n + String.length tail) with (n + S (String.length tail)) by lia.
    reflexivity.
Qed.

Lemma fits_spec line :
  fits line = true ->
  lacks LF line = true /\ (Z.of_nat (String.length line) < bufio.MaxScanTokenSize)%Z.
Proof.
  unfold fits. intros H. apply andb_prop in H as [H1 H2].
  apply Z.ltb_lt in H2. auto.
Qed.

(** The scanner yields the lines of a stream of lines that fit, each
    without its newline and the carriage return before it. *)
Lemma ScanLines_framed lines tail :
  Forall (fun line => fits line = true) lines -> fits tail = true ->
  bufio.ScanLines (framed lines tail) = (scanned lines tail, false).
Proof.
  unfold bufio.ScanLines, framed, scanned. intros Hlines Htail.
  induction Hlines as [|line rest Hline Hrest IH].
  - simpl stream_of. rewrite append_nil_l.
    apply fits_spec in Htail as [Hl Hn].
    rewrite scan_lines_tail by (exact Hl || exact Hn). simpl.
    destruct tail; reflexivity.
  - apply fits_spec in Hline as [Hl Hn].
    simpl map. simpl stream_of.
    replace ((line +:+ nl) +:+ stream_of (map (fun l => l +:+ nl) rest))
      with (line +:+ String LF (stream_of (map (fun l => l +:+ nl) rest)))
      by (rewrite append_assoc; reflexivity).
    rewrite append_assoc, append_cons.
    rewrite scan_lines_line by (exact Hl || exact Hn).
    rewrite IH. reflexivity.
Qed.

Lemma scan_open_LF rest cur n :
  bufio.scan_open (String LF rest) cur n
  = if (bufio.MaxScanTokenSize <=? Z.of_nat n)%Z then ([], true)
    else (bufio.dropCR (String.rev cur) :: fst (bufio.scan_open rest "" 0),
          snd (bufio.scan_open rest "" 0)).
Proof.
  simpl. destruct (bufio.MaxScanTokenSize <=? Z.of_nat n)%Z; [reflexivity|].
  destruct (bufio.scan_open rest "" 0). reflexivity.
Qed.

Lemma scan_open_byte c rest cur n :
  Ascii.eqb c LF = false ->
  bufio.scan_open (String c rest) cur n = bufio.scan_open rest (String c cur) (S n).
Proof. intros H. simpl. rewrite H. reflexivity. Qed.

Lemma scan_open_line line rest cur n :
  lacks LF line = true ->
  (Z.of_nat (n + String.length line) < bufio.MaxScanTokenSize)%Z ->
  bufio.scan_open (line +:+ String LF rest) cur n
  = (bufio.dropCR (String.rev_app cur line) :: fst (bufio.scan_open rest "" 0),
     snd (bufio.scan_open rest "" 0)).
Proof.
  revert cur n. induction line as [|c line IH]; intros cur n Hl Hn.
  - rewrite append_nil_l, scan_open_LF.
    destruct (Z.leb_spec bufio.MaxScanTokenSize (Z.of_nat n)) as [Hge|_];
      [simpl in Hn; lia|].
    reflexivity.
  - rewrite lacks_cons in Hl. apply andb_prop in Hl as [Hc Hl].
    apply negb_true_iff in Hc.
    rewrite append_cons, scan_open_byte by exact Hc.
    rewrite IH; [|exact Hl|simpl in Hn; lia].
    reflexivity.
Qed.

(** While the pipe is open, what follows the last newline waits in the
    buffer. *)
Lemma scan_open_tail tail cur n :
  lacks LF tail = true ->
  (Z.of_nat (n + String.length tail) < bufio.MaxScanTokenSize)%Z ->
  bufio.scan_open tail cur n = ([], false).
Proof.
  revert cur n. induction tail as [|c tail IH]; intros cur n Hl Hn.
  - simpl. destruct (Z.leb_spec bufio.MaxScanTokenSize (Z.of_nat n)) as [Hge|_];
      [simpl in Hn; lia|reflexivity].
  - rewrite lacks_cons in Hl. apply andb_prop in Hl as [Hc Hl].
    apply negb_true_iff in Hc.
    rewrite scan_open_byte by exact Hc.
    apply IH; [exact Hl|simpl in Hn; lia].
Qed.

Lemma scan_open_framed lines tail :
  Forall (fun line => fits line = true) lines -> fits tail = true ->
  bufio.scan_open (framed lines tail) "" 0 = (map bufio.dropCR lines, false).
Proof.
  unfold framed. intros Hlines Htail.
  induction Hlines as [|line rest Hline Hrest IH].
  - simpl stream_of. rewrite append_nil_l.
    apply fits_spec in Htail as [Hl Hn].
    apply scan_open_tail; [exact Hl|exact Hn].
  - apply fits_spec in Hline as [Hl Hn].
    simpl map. simpl stream_of.
    replace ((line +:+ nl) +:+ stream_of (map (fun l => l +:+ nl) rest))
      with (line +:+ String LF (stream_of (map (fun l => l +:+ nl) rest)))
      by (rewrite append_assoc; reflexivity).
    rewrite append_assoc, append_cons.
    rewrite scan_open_line by (exact Hl || exact Hn).
    rewrite IH. reflexivity.
Qed.

(** A scanner on a pipe of lines that fit: it yields every line, the
    last one without a newline only once the pipe has ended, and it ends
    as the pipe does. *)
Lemma Scan_framed lines tail ending :
  Forall (fun line => fits line = true) lines -> fits tail = true ->
  bufio.Scan {| p_bytes := framed lines tail; p_end := ending |}
  = (scanned_until ending lines tail,
     match ending with
     | AtEOF => Some None
     | ReadError e => Some (Some e)
     | Pending => None
     end).
Proof.
  intros Hlines Htail. unfold bufio.Scan, scanned_until. simpl.
  destruct ending.
  - rewrite (ScanLines_framed _ _ Hlines Htail). reflexivity.
  - rewrite (ScanLines_framed _ _ Hlines Htail). reflexivity.
  - rewrite (scan_open_framed _ _ Hlines Htail). reflexivity.
Qed.

(** X10.  The multiplexer loses nothing it has read: every line of either
    pipe that fits the scanner comes out once, in order, behind the tag;
    a last line without a newline comes out once its pipe has ended, and
    stays in the buffer while the pipe is open.  [readOutput] returns
    when both pipes have ended: nil if both ended at the end of the file,
    else the read error of the stdout pipe, else that of the stderr
    pipe. *)
Theorem readOutput_round_trip name out_lines out_tail out_end err_lines err_tail err_end :
  Forall (fun line => fits line = true) out_lines -> fits out_tail = true ->
  Forall (fun line => fits line = true) err_lines -> fits err_tail = true ->
  readOutput name {| p_bytes := framed out_lines out_tail; p_end := out_end |}
                  {| p_bytes := framed err_lines err_tail; p_end := err_end |}
  = ({| to_stdout := map (fun text => tagged name text +:+ nl)
                         (scanned_until out_end out_lines out_tail);
        to_stderr := map (fun text => tagged name text +:+ nl)
                         (scanned_until err_end err_lines err_tail) |},
     match out_end, err_end with
     | Pending, _ | _, Pending => None
     | ReadError e, _ => Some (Some (Wrap "stdoutScanner failed: " e))
     | AtEOF, ReadError e => Some (Some (Wrap "stderrScanner failed: " e))
     | AtEOF, AtEOF => Some None
     end).
Proof.
  intros Ho Hot He Het. unfold readOutput.
  rewrite (Scan_framed _ _ out_end Ho Hot), (Scan_framed _ _ err_end He Het).
  rewrite !wrapOutput_tagged, !map_map.
  destruct out_end, err_end; reflexivity.
Qed.

(** The stdout pipe ends at the end of the file, the stderr pipe is
    closed under the reader in the middle of a line. *)
Lemma readOutput_round_trip_witness :
  readOutput "acct-1"
    {| p_bytes := "Initializing..." +:+ String CR nl +:+ nl +:+ "Apply complete!";
       p_end := AtEOF |}
    {| p_bytes := "Warning: deprecated" +:+ nl +:+ "Warn";
       p_end := ReadError (External "read |0: file already closed") |}
  = ({| to_stdout := ["[acct-1]: Initializing..." +:+ nl; "[acct-1]: " +:+ nl;
                      "[acct-1]: Apply complete!" +:+ nl];
        to_stderr := ["[acct-1]: Warning: deprecated" +:+ nl; "[acct-1]: Warn" +:+ nl] |},
     Some (Some (Wrap "stderrScanner failed: "
                      (External "read |0: file already closed")))).
Proof.
  apply (readOutput_round_trip "acct-1"
           ["Initializing..." +:+ String CR ""; ""] "Apply complete!" AtEOF
           ["Warning: deprecated"] "Warn"
           (ReadError (External "read |0: file already closed"))).
  - repeat constructor.
  - reflexivity.
  - repeat constructor.
  - reflexivity.
Defined.

(** Once the line being read has reached the limit, the scanner fails
    whatever follows. *)
Lemma scan_lines_overflow stream cur n :
  (bufio.MaxScanTokenSize <= Z.of_nat n)%Z ->
  bufio.scan_lines stream cur n = ([], true).
Proof.
  revert cur n. induction stream as [|c rest IH]; intros cur n Hn.
  - simpl. destruct (Nat.eqb_spec n 0) as [->|_]; [unfold bufio.MaxScanTokenSize in Hn; lia|].
    destruct (Z.leb_spec bufio.MaxScanTokenSize (Z.of_nat n)); [reflexivity|lia].
  - destruct (Ascii.eqb c LF) eqn:Ec.
    + apply Ascii.eqb_eq in Ec. subst c. rewrite scan_lines_LF.
      destruct (Z.leb_spec bufio.MaxScanTokenSize (Z.of_nat n)); [reflexivity|lia].
    + rewrite scan_lines_byte by exact Ec. apply IH. lia.
Qed.

Lemma scan_lines_long long rest cur n :
  lacks LF long = true ->
  (bufio.MaxScanTokenSize <= Z.of_nat (n + String.length long))%Z ->
  bufio.scan_lines (long +:+ rest) cur n = ([], true).
Proof.
  revert cur n. induction long as [|c long IH]; intros cur n Hl Hn.
  - rewrite append_nil_l. apply scan_lines_overflow. simpl in Hn.
    rewrite Nat.add_0_r in Hn. exact Hn.
  - rewrite lacks_cons in Hl. apply andb_prop in Hl as [Hc Hl].
    apply negb_true_iff in Hc.
    rewrite append_cons, scan_lines_byte by exact Hc.
    apply IH; [exact Hl|]. simpl in Hn.
    replace (S n + String.length long) with (n + S (String.length long)) by lia.
    exact Hn.
Qed.

Lemma ScanLines_oversize lines long rest :
  Forall (fun line => fits line = true) lines ->
  lacks LF long = true ->
  (bufio.MaxScanTokenSize <= Z.of_nat (String.length long))%Z ->
  bufio.ScanLines (framed lines (long +:+ rest)) = (map bufio.dropCR lines, true).
Proof.
  unfold bufio.ScanLines, framed. intros Hlines Hl Hn.
  induction Hlines as [|line more Hline Hmore IH].
  - simpl stream_of. rewrite append_nil_l. apply scan_lines_long; [exact Hl|exact Hn].
  - apply fits_spec in Hline as [Hll Hln].
    simpl map. simpl stream_of.
    rewrite !append_assoc. unfold nl at 1. rewrite append_cons, append_nil_l.
    rewrite scan_lines_line by (exact Hll || exact Hln).
    rewrite IH. reflexivity.
Qed.

Lemma scan_open_overflow stream cur n :
  (bufio.MaxScanTokenSize <= Z.of_nat n)%Z ->
  bufio.scan_open stream cur n = ([], true).
Proof.
  revert cur n. induction stream as [|c rest IH]; intros cur n Hn.
  - simpl. destruct (Z.leb_spec bufio.MaxScanTokenSize (Z.of_nat n)); [reflexivity|lia].
  - destruct (Ascii.eqb c LF) eqn:Ec.
    + apply Ascii.eqb_eq in Ec. subst c. rewrite scan_open_LF.
      destruct (Z.leb_spec bufio.MaxScanTokenSize (Z.of_nat n)); [reflexivity|lia].
    + rewrite scan_open_byte by exact Ec. apply IH. lia.
Qed.

Lemma scan_open_long long rest cur n :
  lacks LF long = true ->
  (bufio.MaxScanTokenSize <= Z.of_nat (n + String.length long))%Z ->
  bufio.scan_open (long +:+ rest) cur n = ([], true).
Proof.
  revert cur n. induction long as [|c long IH]; intros cur n Hl Hn.
  - rewrite append_nil_l. apply scan_open_overflow. simpl in Hn.
    rewrite Nat.add_0_r in Hn. exact Hn.
  - rewrite lacks_cons in Hl. apply andb_prop in Hl as [Hc Hl].
    apply negb_true_iff in Hc.
    rewrite append_cons, scan_open_byte by exact Hc.
    apply IH; [exact Hl|]. simpl in Hn.
    replace (S n + String.length long) with (n + S (String.length long)) by lia.
    exact Hn.
Qed.

Lemma scan_open_oversize lines long rest :
  Forall (fun line => fits line = true) lines ->
  lacks LF long = true ->
  (bufio.MaxScanTokenSize <= Z.of_nat (String.length long))%Z ->
  bufio.scan_open (framed lines (long +:+ rest)) "" 0 = (map bufio.dropCR lines, true).
Proof.
  unfold framed. intros Hlines Hl Hn.
  induction Hlines as [|line more Hline Hmore IH].
  - simpl stream_of. rewrite append_nil_l. apply scan_open_long; [exact Hl|exact Hn].
  - apply fits_spec in Hline as [Hll Hln].
    simpl map. simpl stream_of.
    rewrite !append_assoc. unfold nl at 1. rewrite append_cons, append_nil_l.
    rewrite scan_open_line by (exact Hll || exact Hln).
    rewrite IH. reflexivity.
Qed.

(** A line that does not fit stops the scanner with [ErrTooLong],
    however its pipe ends. *)
Lemma Scan_oversize lines long rest ending :
  Forall (fun line => fits line = true) lines ->
  lacks LF long = true ->
  (bufio.MaxScanTokenSize <= Z.of_nat (String.length long))%Z ->
  bufio.Scan {| p_bytes := framed lines (long +:+ rest); p_end := ending |}
  = (map bufio.dropCR lines, Some (Some bufio.ErrTooLong)).
Proof.
  intros Hlines Hl Hn. unfold bufio.Scan. simpl. destruct ending.
  - rewrite (ScanLines_oversize _ _ _ Hlines Hl Hn). reflexivity.
  - rewrite (ScanLines_oversize _ _ _ Hlines Hl Hn). reflexivity.
  - rewrite (scan_open_oversize _ _ _ Hlines Hl Hn). reflexivity.
Qed.

(** X11.  A line of the job's stdout that does not fit the scanner ends
    the relay of that pipe, however the pipe ends: the lines before it
    are written, the line and everything after it are dropped.  The relay
    of the stderr pipe goes on; when its scanner stops, [readOutput]
    reports the error of the stdout scanner, and while it does not stop,
    [readOutput] does not return. *)
Theorem oversize_line_ends_the_relay name lines long rest out_end stderr :
  Forall (fun line => fits line = true) lines ->
  lacks LF long = true ->
  (bufio.MaxScanTokenSize <= Z.of_nat (String.length long))%Z ->
  readOutput name {| p_bytes := framed lines (long +:+ rest); p_end := out_end |} stderr
  = ({| to_stdout := map (fun line => tagged name (bufio.dropCR line) +:+ nl) lines;
        to_stderr := map (fun text => tagged name text +:+ nl) (fst (bufio.Scan stderr)) |},
     match snd (bufio.Scan stderr) with
     | Some _ => Some (Some (Wrap "stdoutScanner failed: " bufio.ErrTooLong))
     | None => None
     end).
Proof.
  intros Hlines Hl Hn. unfold readOutput.
  rewrite (Scan_oversize _ _ _ out_end Hlines Hl Hn).
  destruct (bufio.Scan stderr) as [et [ee|]];
    rewrite !wrapOutput_tagged, !map_map; reflexivity.
Qed.

(** The child is blocked on its stdout pipe, which nobody reads any
    more, and its stderr pipe stays open: [readOutput] does not return. *)
Lemma oversize_line_ends_the_relay_witness :
  readOutput "acct-1"
    {| p_bytes := framed ["Initializing..."]
                         (oversize_line +:+ nl +:+ "Apply complete!" +:+ nl);
       p_end := Pending |}
    {| p_bytes := "Warning: deprecated" +:+ nl; p_end := Pending |}
  = ({| to_stdout := ["[acct-1]: Initializing..." +:+ nl];
        to_stderr := ["[acct-1]: Warning: deprecated" +:+ nl] |},
     None).
Proof.
  apply (oversize_line_ends_the_relay "acct-1" ["Initializing..."] oversize_line
           (nl +:+ "Apply complete!" +:+ nl) Pending
           {| p_bytes := "Warning: deprecated" +:+ nl; p_end := Pending |}).
  - repeat constructor.
  - vm_compute. reflexivity.
  - vm_compute. discriminate.
Defined.

Lemma length_rev_app s acc :
  String.length (String.rev_app s acc) = String.length s + String.length acc.
Proof.
  revert acc. induction s as [|c s IH]; intros acc; [reflexivity|].
  simpl. rewrite IH. simpl. lia.
Qed.

Lemma length_dropCR s : String.length s <= S (String.length (bufio.dropCR s)).
Proof.
  induction s as [|c s IH]; [simpl; lia|].
  destruct s as [|d s'].
  - simpl. destruct (Ascii.eqb c CR); simpl; lia.
  - change (bufio.dropCR (String c (String d s')))
      with (String c (bufio.dropCR (String d s'))).
    simpl String.length in *. lia.
Qed.

Lemma list_sum_cons x l : list_sum (x :: l) = x + list_sum l.
Proof. reflexivity. Qed.

(** Bytes taken from the stream against bytes yielded: a token stands
    for at most two more bytes than it holds. *)
Lemma scan_lines_consumes stream cur n :
  n = String.length cur ->
  snd (bufio.scan_lines stream cur n) = false ->
  String.length stream + n
  <= list_sum (map (fun t => String.length t + 2) (fst (bufio.scan_lines stream cur n)))
  /\ (String.length stream + n <> 0 -> fst (bufio.scan_lines stream cur n) <> []).
Proof.
  revert cur n. induction stream as [|c rest IH]; intros cur n Hn Herr.
  - simpl in *. destruct (Nat.eqb_spec n 0) as [->|Hne]; [simpl; split; [lia|congruence]|].
    destruct (bufio.MaxScanTokenSize <=? Z.of_nat n)%Z; [discriminate|]. simpl.
    pose proof (length_dropCR (String.rev cur)) as Hd.
    unfold String.rev in Hd. rewrite length_rev_app in Hd. simpl in Hd.
    unfold String.rev. split; [lia|discriminate].
  - destruct (Ascii.eqb c LF) eqn:Ec.
    + apply Ascii.eqb_eq in Ec. subst c. rewrite scan_lines_LF in *.
      destruct (bufio.MaxScanTokenSize <=? Z.of_nat n)%Z; [discriminate|].
      simpl in Herr. destruct (IH "" 0 eq_refl Herr) as [IH1 _].
      cbn [fst map list_sum]. simpl String.length.
      pose proof (length_dropCR (String.rev cur)) as Hd.
      unfold String.rev in Hd. rewrite length_rev_app in Hd. simpl in Hd.
      unfold String.rev. rewrite list_sum_cons. split; [lia|discriminate].
    + rewrite scan_lines_byte in * by exact Ec.
      destruct (IH (String c cur) (S n)) as [IH1 IH2]; [simpl; lia|exact Herr|].
      simpl String.length. split; [lia|]. intros _. apply IH2. lia.
Qed.

Lemma Earlier_line_length now ident text :
  String.length ("[" +:+ now +:+ "][" +:+ ident +:+ "]: " +:+ text +:+ nl)
  = String.length now + String.length ident + String.length text + 7.
Proof. rewrite !length_append. simpl. lia. Qed.

Lemma list_sum_le {A} (f g : A -> nat) (k : nat) l :
  (forall x, f x + k <= g x) ->
  list_sum (map f l) + k * length l <= list_sum (map g l).
Proof.
  intros H. induction l as [|x l IH]; simpl; [lia|].
  specialize (H x). lia.
Qed.

(** X12.  The count the earlier [Write] returns is that of the bytes it
    wrote, tags included, never that of the bytes it was given: for a
    chunk that is not empty it exceeds the length of the chunk. *)
Theorem Earlier_Write_count now ident b :
  snd (snd (Earlier.Write now ident b)) = None ->
  String.length b <= fst (snd (Earlier.Write now ident b))
  /\ (b <> "" -> String.length b < fst (snd (Earlier.Write now ident b))).
Proof.
  unfold Earlier.Write, bufio.ScanLines.
  destruct (bufio.scan_lines b "" 0) as [tokens too_long] eqn:E.
  simpl. intros Herr. destruct too_long; [discriminate|].
  destruct (scan_lines_consumes b "" 0 eq_refl) as [Hc Hne]; [rewrite E; reflexivity|].
  rewrite E in Hc, Hne. simpl in Hc, Hne. rewrite Nat.add_0_r in Hc, Hne.
  rewrite map_map.
  pose proof (list_sum_le (fun t => String.length t + 2)
                (fun t => String.length ("[" +:+ now +:+ "][" +:+ ident +:+ "]: "
                                         +:+ t +:+ nl)) 5 tokens) as Hsum.
  assert (Hall : forall x : string,
             String.length x + 2 + 5
             <= String.length ("[" +:+ now +:+ "][" +:+ ident +:+ "]: " +:+ x +:+ nl)).
  { intros x. rewrite Earlier_line_length. lia. }
  specialize (Hsum Hall). split; [lia|].
  intros Hb. assert (Hlen : String.length b <> 0) by (destruct b; [contradiction|discriminate]).
  specialize (Hne Hlen). destruct tokens; [contradiction|]. simpl length in Hsum. lia.
Qed.

Lemma Earlier_Write_count_witness :
  String.length ("ok" +:+ nl) = 3
  /\ fst (snd (Earlier.Write "15:04:05" "a" ("ok" +:+ nl))) = 18
  /\ String.length ("ok" +:+ nl) < fst (snd (Earlier.Write "15:04:05" "a" ("ok" +:+ nl))).
Proof.
  split; [reflexivity|]. split; [vm_compute; reflexivity|].
  apply (Earlier_Write_count "15:04:05" "a" ("ok" +:+ nl)); [reflexivity|discriminate].
Defined.

(* ================================================================== *)
(** * Order of the work                                               *)
(* ================================================================== *)

(** X13.  [checkout] removes the directory, then clones into it, whatever
    the removal answered; the only reference it checks out is the tag
    [refs/tags/<version>]. *)
Theorem checkout_removes_then_clones w a repoURL path version tr :
  exists logs rest,
    snd (checkout w a repoURL path version tr)
    = tr ++ ERemoveAll path :: logs ++ EPlainClone path repoURL (token a) :: rest
    /\ match w_fails w tr (ERemoveAll path) with
       | None => logs = []
       | Some e => logs = [ELog ("failed to remove old repository directory: " +:+ path
                                 +:+ " -> " +:+ error_text e)]
       end
    /\ (exists k, rest = firstn k [EWorktree path;
                                   ECheckout path ("refs/tags/" +:+ version)])
    /\ (fst (checkout w a repoURL path version tr) = Ok tt ->
        rest = [EWorktree path; ECheckout path ("refs/tags/" +:+ version)]).
Proof.
  unfold checkout, bind, wrap, log_only, call.
  destruct (w_fails w tr (ERemoveAll path)) as [e0|];
    [exists [ELog ("failed to remove old repository directory: " +:+ path
                   +:+ " -> " +:+ error_text e0)] | exists []].
  all: repeat match goal with
         | |- context [w_fails ?w ?t ?e] => destruct (w_fails w t e)
         end.
  all: cbn [fst snd].
  all: first
         [ exists []; split; [repeat rewrite <- app_assoc; reflexivity|];
           split; [reflexivity|]; split; [exists 0; reflexivity|discriminate]
         | exists [EWorktree path]; split; [repeat rewrite <- app_assoc; reflexivity|];
           split; [reflexivity|]; split; [exists 1; reflexivity|discriminate]
         | exists [EWorktree path; ECheckout path ("refs/tags/" +:+ version)];
           split; [repeat rewrite <- app_assoc; reflexivity|];
           split; [reflexivity|]; split; [exists 2; reflexivity|auto] ].
Qed.

Lemma handoffs_local w lib a batch tr :
  exists ext,
    snd (run_local w lib a batch tr) = tr ++ ext /\ handoffs ext = [].
Proof.
  destruct (run_local w lib a batch tr) as [r tr'] eqn:E. unfold run_local in E.
  destruct (prepTf_cases w a tr) as [(e & Hp & _)|[(e & path & Hp & _)|(path & Hp & _)]].
  - rewrite (bind_err _ _ _ _ _ Hp) in E. inversion E; subst. eexists. split; reflexivity.
  - rewrite (bind_err _ _ _ _ _ Hp) in E. inversion E; subst. eexists. split; reflexivity.
  - rewrite (bind_ok _ _ _ _ _ Hp) in E. unfold bind in E.
    rewrite go_all_spec in E. inversion E; subst.
    exists ([EGetTerraform "latest"; EChmod path] ++ spawned w lib (with_tf a path) batch).
    split; [simpl; rewrite <- app_assoc; reflexivity|].
    rewrite handoffs_app, handoffs_spawned. reflexivity.
Qed.

(** X14.  The overflow is handed off before anything is done here: when
    the tool is fetched, or a job started, no hand-off follows, and if the
    batch exceeded the capacity its tail has been handed off, without
    error. *)
Theorem local_work_follows_handoff w lib a requests pre e post :
  snd (Run w lib a requests []) = pre ++ e :: post ->
  (e = EGetTerraform "latest" \/ exists req body, e = EGo req body) ->
  handoffs (e :: post) = []
  /\ (cpus a < length requests ->
      In (EInvoke (skipn (cpus a) requests), None) (answers w pre)).
Proof.
  intros Htr He.
  destruct (Nat.lt_ge_cases (cpus a) (length requests)) as [Hlt|Hle].
  - rewrite Run_large in Htr by exact Hlt. unfold bind in Htr.
    set (tail := skipn (cpus a) requests) in *.
    unfold dispatch, bind, wrap, call in Htr.
    destruct (w_fails w [] (EMarshal tail)) as [e1|] eqn:E1.
    { exfalso. simpl in Htr.
      destruct pre as [|p0 pre]; [|destruct pre; discriminate].
      injection Htr as <- _. destruct He as [He|(? & ? & He)]; discriminate. }
    destruct (w_fails w ([] ++ [EMarshal tail]) (EInvoke tail)) as [e2|] eqn:E2.
    { exfalso. simpl in Htr.
      destruct pre as [|p0 [|p1 pre]]; [| |destruct pre; discriminate].
      - injection Htr as <- _. destruct He as [He|(? & ? & He)]; discriminate.
      - injection Htr as _ <- _. destruct He as [He|(? & ? & He)]; discriminate. }
    destruct (handoffs_local w lib a (firstn (cpus a) requests)
                ([] ++ [EMarshal tail] ++ [EInvoke tail])) as (ext & Hext & Hh).
    change (([] ++ [EMarshal tail]) ++ [EInvoke tail])
      with ([] ++ [EMarshal tail] ++ [EInvoke tail]) in Htr.
    rewrite Hext in Htr. simpl in Htr.
    destruct pre as [|p0 [|p1 pre]].
    + injection Htr as <- _. destruct He as [He|(? & ? & He)]; discriminate.
    + injection Htr as _ <- _. destruct He as [He|(? & ? & He)]; discriminate.
    + injection Htr as <- <- Hrest. rewrite Hrest in Hh.
      rewrite handoffs_app in Hh. apply app_eq_nil in Hh as [_ Hh].
      split; [exact Hh|]. intros _.
      unfold answers. simpl. right. left. simpl in E2. rewrite E2. reflexivity.
  - rewrite Run_small in Htr by exact Hle.
    destruct (handoffs_local w lib a requests []) as (ext & Hext & Hh).
    rewrite Hext in Htr. simpl in Htr. rewrite Htr in Hh.
    rewrite handoffs_app in Hh. apply app_eq_nil in Hh as [_ Hh].
    split; [exact Hh|]. intros Hlt. lia.
Qed.

Lemma local_work_follows_handoff_witness :
  handoffs (EGetTerraform "latest"
            :: [EChmod "/tmp/terraform";
                EGo acct1 (job_body calm lib0 (with_tf app2 "/tmp/terraform") acct1);
                EGo acct2 (job_body calm lib0 (with_tf app2 "/tmp/terraform") acct2)]) = []
  /\ (cpus app2 < length [acct1; acct2; acct3] ->
      In (EInvoke (skipn (cpus app2) [acct1; acct2; acct3]), None)
         (answers calm [EMarshal [acct3]; EInvoke [acct3]])).
Proof.
  apply (local_work_follows_handoff calm lib0 app2 [acct1; acct2; acct3]
           [EMarshal [acct3]; EInvoke [acct3]] (EGetTerraform "latest")).
  - vm_compute. reflexivity.
  - left. reflexivity.
Defined.



Lemma Run_job_bodies w lib a requests :
  job_bodies (snd (Run w lib a requests [])) = []
  \/ exists pre path,
      w_getTerraform w pre = Ok path
      /\ job_bodies (snd (Run w lib a requests []))
         = map (fun req => (req, job_body w lib (with_tf a path) req))
               (firstn (cpus a) requests).
Proof.
  assert (Hlocal : forall batch tr,
             job_bodies tr = [] ->
             job_bodies (snd (run_local w lib a batch tr)) = []
             \/ exists path,
                 w_getTerraform w tr = Ok path
                 /\ job_bodies (snd (run_local w lib a batch tr))
                    = map (fun req => (req, job_body w lib (with_tf a path) req)) batch).
  { intros batch tr Htr. unfold run_local.
    destruct (prepTf_cases w a tr) as [(e & Hp & _)|[(e & path & Hp & _)|(path & Hp & Hg)]].
    - rewrite (bind_err _ _ _ _ _ Hp). left. simpl.
      rewrite job_bodies_app, Htr. reflexivity.
    - rewrite (bind_err _ _ _ _ _ Hp). left. simpl.
      rewrite job_bodies_app, Htr. reflexivity.
    - rewrite (bind_ok _ _ _ _ _ Hp). unfold bind. rewrite go_all_spec. simpl.
      right. exists path. split; [exact Hg|].
      rewrite !job_bodies_app, Htr, job_bodies_spawned. reflexivity. }
  destruct (Nat.lt_ge_cases (cpus a) (length requests)) as [Hlt|Hle].
  - rewrite Run_large by exact Hlt. unfold bind.
    destruct (dispatch_cases w a (skipn (cpus a) requests) [])
      as [(e & He)|[(e & He)|He]]; rewrite He; [left; reflexivity|left; reflexivity|].
    destruct (Hlocal (firstn (cpus a) requests)
                ([] ++ [EMarshal (skipn (cpus a) requests);
                        EInvoke (skipn (cpus a) requests)]) eq_refl)
      as [H|(path & Hg & H)]; [left; exact H|right; eauto].
  - rewrite Run_small by exact Hle.
    destruct (Hlocal requests [] eq_refl) as [H|(path & Hg & H)]; [left; exact H|].
    right. exists [], path. rewrite firstn_all2 by exact Hle. auto.
Qed.

Lemma job_body_starts w lib a req cmd :
  In (EStart cmd) (job_body w lib a req) ->
  In (EStart cmd) (snd (execute w lib a req [])).
Proof.
  unfold job_body. destruct (execute w lib a req []) as [[[]|e] body]; simpl; [auto|].
  intros H. apply in_app_or in H as [H|[H|[]]]; [exact H|discriminate].
Qed.

(** X16.  From the download to the jobs: when the tool is installed by
    [getTerraform], every terraform process that a run of the batch
    starts executes a file named [terraform] that was unpacked below
    [/tmp], in the directory of its own job, and the job is one of the
    first [cpus] requests. *)
Theorem jobs_run_the_fetched_binary h w lib a requests req body cmd :
  In (req, body) (job_bodies (snd (Run (installed_by h w) lib a requests []))) ->
  In (EStart cmd) body ->
  filepath_Base (cmd_Path cmd) = "terraform"
  /\ strings.HasPrefix (cmd_Path cmd) "/tmp/" = true
  /\ cmd_Dir cmd = job_dir req
  /\ In req (firstn (cpus a) requests).
Proof.
  intros Hjob Hstart.
  destruct (Run_job_bodies (installed_by h w) lib a requests)
    as [Hnone|(pre & path & Hg & Hb)]; [rewrite Hnone in Hjob; contradiction|].
  rewrite Hb in Hjob. apply in_map_iff in Hjob as (req' & Heq & Hin).
  injection Heq as <- <-.
  apply job_body_starts in Hstart.
  destruct (execute_processes _ _ _ _ _ _ cmd (surjective_pairing _) Hstart)
    as (_ & _ & cred & _ & _ & _ & ->).
  cbn [cmd_Path cmd_Dir with_tf tf].
  simpl in Hg.
  destruct (getTerraform h "latest" []) as [r tr'] eqn:E. simpl in Hg. subst r.
  apply getTerraform_found in E as (Hbase & Hpre & _).
  auto.
Qed.

Lemma jobs_run_the_fetched_binary_witness :
  filepath_Base "/tmp/bin/terraform" = "terraform"
  /\ strings.HasPrefix "/tmp/bin/terraform" "/tmp/" = true
  /\ "/tmp/acct-1" = job_dir acct1
  /\ In acct1 (firstn (cpus app2) [acct1; acct2; acct3]).
Proof.
  apply (jobs_run_the_fetched_binary nested_host calm lib0 app2 [acct1; acct2; acct3]
           acct1
           (job_body (installed_by nested_host calm) lib0
                     (with_tf app2 "/tmp/bin/terraform") acct1)
           {| cmd_Path := "/tmp/bin/terraform"; cmd_Args := init_args;
              cmd_Env := ["AWS_ACCESS_KEY_ID=ASIA"; "AWS_SECRET_ACCESS_KEY=s";
                          "AWS_SESSION_TOKEN=t";
                          "TF_PLUGIN_CACHE_DIR=/tmp/terraform.d/plugins";
                          "TF_LOG="; "HOME=/tmp/acct-1"];
              cmd_Dir := "/tmp/acct-1" |}).
  - vm_compute. left. reflexivity.
  - vm_compute. repeat (first [left; reflexivity | right]).
Defined.

(* ================================================================== *)
(** * The pattern of module declarations                              *)
(* ================================================================== *)

Section Star.
Context {R : Type}.

Lemma rmatch_Cat r1 r2 s p cs (k : string -> nat -> regexp.caps -> option R) :
  regexp.rmatch (regexp.Cat r1 r2) s p cs k
  = regexp.rmatch r1 s p cs (fun s' p' cs' => regexp.rmatch r2 s' p' cs' k).
Proof. reflexivity. Qed.

Lemma rmatch_Group i r1 s p cs (k : string -> nat -> regexp.caps -> option R) :
  regexp.rmatch (regexp.Group i r1) s p cs k
  = regexp.rmatch r1 s p cs (fun s' p' cs' => k s' p' ((i, (p, p')) :: cs')).
Proof. reflexivity. Qed.

Lemma rmatch_Lit c d s p cs (k : string -> nat -> regexp.caps -> option R) :
  regexp.rmatch (regexp.Lit c) (String d s) p cs k
  = if Ascii.eqb c d then k s (S p) cs else None.
Proof. reflexivity. Qed.

Lemma rmatch_Plus r1 s p cs (k : string -> nat -> regexp.caps -> option R) :
  regexp.rmatch (regexp.Plus r1) s p cs k
  = regexp.rmatch r1 s p cs (fun s1 p1 cs1 => regexp.rmatch (regexp.Star r1) s1 p1 cs1 k).
Proof. reflexivity. Qed.

Lemma eqb_succ p : (S p =? p)%nat = false.
Proof. apply Nat.eqb_neq. lia. Qed.

(** One more byte of a greedy run, before any shorter run is tried. *)
Lemma star_any_cons c t p cs (k : string -> nat -> regexp.caps -> option R) :
  Ascii.eqb c LF = false ->
  regexp.rmatch (regexp.Star regexp.AnyButNL) (String c t) p cs k
  = match regexp.rmatch (regexp.Star regexp.AnyButNL) t (S p) cs k with
    | Some res => Some res
    | None => k (String c t) p cs
    end.
Proof.
  intros Hc. cbn [regexp.rmatch String.length]. rewrite Hc, eqb_succ. reflexivity.
Qed.

Lemma star_any_stop t p cs (k : string -> nat -> regexp.caps -> option R) :
  regexp.rmatch (regexp.Star regexp.AnyButNL) (String LF t) p cs k = k (String LF t) p cs.
Proof. cbn [regexp.rmatch String.length]. reflexivity. Qed.

Lemma star_space_cons c t p cs (k : string -> nat -> regexp.caps -> option R) :
  regexp.is_space c = true ->
  regexp.rmatch (regexp.Star regexp.Space) (String c t) p cs k
  = match regexp.rmatch (regexp.Star regexp.Space) t (S p) cs k with
    | Some res => Some res
    | None => k (String c t) p cs
    end.
Proof.
  intros Hc. cbn [regexp.rmatch String.length]. rewrite Hc, eqb_succ. reflexivity.
Qed.

Lemma star_space_stop c t p cs (k : string -> nat -> regexp.caps -> option R) :
  regexp.is_space c = false ->
  regexp.rmatch (regexp.Star regexp.Space) (String c t) p cs k = k (String c t) p cs.
Proof. intros Hc. cbn [regexp.rmatch String.length]. rewrite Hc. reflexivity. Qed.

End Star.

Section Runs.
Context {R : Type}.

Lemma rmatch_lits_prefix l r s p cs (k : string -> nat -> regexp.caps -> option R) :
  strings.HasPrefix s l = true ->
  regexp.rmatch (regexp.Cat (regexp.lits l) r) s p cs k
  = regexp.rmatch r (strings.drop (String.length l) s) (String.length l + p) cs k.
Proof.
  rewrite rmatch_Cat. revert s p. induction l as [|c l IH]; intros s p H; [reflexivity|].
  destruct s as [|d s]; [discriminate|]. simpl in H. apply andb_prop in H as [Hc H].
  apply Ascii.eqb_eq in Hc. subst d.
  cbn [regexp.lits]. rewrite rmatch_Cat, rmatch_Lit, Ascii.eqb_refl.
  rewrite (IH s (S p) H). simpl String.length. simpl strings.drop.
  rewrite Nat.add_succ_r. reflexivity.
Qed.

(** A greedy run over bytes that are not newlines: if the match succeeds
    once the run has covered [t], it succeeds the same way from its start. *)
Lemma star_any_run t rest p cs (k : string -> nat -> regexp.caps -> option R) res :
  lacks LF t = true ->
  regexp.rmatch (regexp.Star regexp.AnyButNL) rest (String.length t + p) cs k = Some res ->
  regexp.rmatch (regexp.Star regexp.AnyButNL) (t +:+ rest) p cs k = Some res.
Proof.
  revert p. induction t as [|c t IH]; intros p Hl H; [exact H|].
  rewrite lacks_cons in Hl. apply andb_prop in Hl as [Hc Hl]. apply negb_true_iff in Hc.
  rewrite append_cons, star_any_cons by exact Hc.
  rewrite (IH (S p) Hl); [reflexivity|].
  simpl String.length in H. rewrite Nat.add_succ_r. exact H.
Qed.

Lemma star_space_run t rest p cs (k : string -> nat -> regexp.caps -> option R) res :
  all_bytes regexp.is_space t = true ->
  regexp.rmatch (regexp.Star regexp.Space) rest (String.length t + p) cs k = Some res ->
  regexp.rmatch (regexp.Star regexp.Space) (t +:+ rest) p cs k = Some res.
Proof.
  revert p. induction t as [|c t IH]; intros p Hl H; [exact H|].
  rewrite all_bytes_cons in Hl. apply andb_prop in Hl as [Hc Hl].
  rewrite append_cons, star_space_cons by exact Hc.
  rewrite (IH (S p) Hl); [reflexivity|].
  simpl String.length in H. rewrite Nat.add_succ_r. exact H.
Qed.

(** White space followed by a byte that is not: the run takes it all. *)
Lemma plus_space_run c t d rest p cs (k : string -> nat -> regexp.caps -> option R) res :
  all_bytes regexp.is_space (String c t) = true -> regexp.is_space d = false ->
  k (String d rest) (String.length (String c t) + p) cs = Some res ->
  regexp.rmatch (regexp.Plus regexp.Space) (String c t +:+ String d rest) p cs k = Some res.
Proof.
  intros Hw Hd H. rewrite all_bytes_cons in Hw. apply andb_prop in Hw as [Hc Ht].
  rewrite rmatch_Plus, append_cons. cbn [regexp.rmatch]. rewrite Hc.
  apply star_space_run; [exact Ht|].
  rewrite star_space_stop by exact Hd.
  simpl String.length in H. rewrite Nat.add_succ_r. exact H.
Qed.

End Runs.

(** From the quote that closes the name to the quote that opens the
    address. *)
Lemma match_between {R} (r : regexp.regex) tail p cs
      (k : string -> nat -> regexp.caps -> option R) res :
  regexp.rmatch r tail (16 + p) cs k = Some res ->
  regexp.rmatch
    (regexp.Cat (regexp.lits (dq +:+ " {"))
       (regexp.Cat (regexp.Plus regexp.Space)
          (regexp.Cat (regexp.lits "source")
             (regexp.Cat (regexp.Plus regexp.Space)
                (regexp.Cat (regexp.Lit "=")
                   (regexp.Cat (regexp.Plus regexp.Space)
                      (regexp.Cat (regexp.Lit DQ) r)))))))
    (dq +:+ " {" +:+ nl +:+ "  source = " +:+ dq +:+ tail) p cs k
  = Some res.
Proof.
  intros H.
  rewrite rmatch_lits_prefix by reflexivity.
  rewrite rmatch_Cat.
  apply (plus_space_run LF "  " "s" ("ource = " +:+ dq +:+ tail));
    [reflexivity|reflexivity|].
  rewrite rmatch_lits_prefix by reflexivity.
  rewrite rmatch_Cat.
  apply (plus_space_run " " "" "=" (" " +:+ dq +:+ tail)); [reflexivity|reflexivity|].
  rewrite rmatch_Cat, rmatch_Lit. cbn [Ascii.eqb Bool.eqb].
  rewrite rmatch_Cat.
  apply (plus_space_run " " "" DQ tail); [reflexivity|reflexivity|].
  rewrite rmatch_Cat, rmatch_Lit, Ascii.eqb_refl.
  exact H.
Qed.

(** The pattern matches a declaration that begins at [p], up to the quote
    that closes the address, and captures the name and the address. *)
Lemma match_declaration key source tail p :
  lacks LF key = true -> lacks LF source = true ->
  regexp.rmatch module_pattern (declaration key source +:+ String LF tail) p [] last_k
  = Some (S (String.length source + (16 + (String.length key + (8 + p)))),
          [(2, (16 + (String.length key + (8 + p)),
                String.length source + (16 + (String.length key + (8 + p)))));
           (1, (8 + p, String.length key + (8 + p)))]).
Proof.
  intros Hk Hs. unfold module_pattern, declaration.
  rewrite !append_assoc.
  rewrite rmatch_lits_prefix by reflexivity.
  assert (E1 : strings.drop (String.length ("module " +:+ dq))
                 ("module " +:+ dq +:+ key +:+ dq +:+ " {" +:+ nl +:+ "  source = " +:+ dq
                  +:+ source +:+ dq +:+ String LF tail)
               = key +:+ dq +:+ " {" +:+ nl +:+ "  source = " +:+ dq
                  +:+ source +:+ dq +:+ String LF tail) by reflexivity.
  rewrite E1. clear E1.
  assert (E8 : String.length ("module " +:+ dq) = 8) by reflexivity.
  rewrite E8. clear E8.
  rewrite rmatch_Cat, rmatch_Group.
  apply star_any_run; [exact Hk|].
  set (q := String.length key + (8 + p)).
  set (after := "  source = " +:+ dq +:+ source +:+ dq +:+ String LF tail).
  change (dq +:+ " {" +:+ nl +:+ after)
    with (String DQ (String " " (String "{" (String LF after)))).
  rewrite !star_any_cons by reflexivity. rewrite star_any_stop.
  cbv beta.
  rewrite !rmatch_lits_mismatch by reflexivity.
  apply (match_between _ (source +:+ dq +:+ String LF tail)).
  rewrite rmatch_Cat, rmatch_Group.
  apply star_any_run; [exact Hs|].
  change (dq +:+ String LF tail) with (String DQ (String LF tail)).
  rewrite star_any_cons by reflexivity. rewrite star_any_stop.
  rewrite !rmatch_Lit. cbn [Ascii.eqb Bool.eqb]. rewrite Ascii.eqb_refl.
  reflexivity.
Qed.

Lemma substr_middle pre mid post b e :
  b = String.length pre -> e = String.length mid + String.length pre ->
  regexp.substr (pre +:+ mid +:+ post) b e = mid.
Proof.
  intros -> ->. unfold regexp.substr. rewrite drop_app.
  replace (String.length mid + String.length pre - String.length pre)
    with (String.length mid) by lia.
  apply take_app.
Qed.

Lemma length_declaration key source :
  String.length (declaration key source)
  = S (String.length source + (16 + (String.length key + 8))).
Proof. unfold declaration. rewrite !length_append. simpl. lia. Qed.

Lemma match_at_declaration pre key source tail :
  lacks LF key = true -> lacks LF source = true ->
  regexp.match_at module_pattern (pre +:+ declaration key source +:+ String LF tail)
                  (String.length pre)
  = Some (S (String.length source + (16 + (String.length key + (8 + String.length pre)))),
          [(2, (16 + (String.length key + (8 + String.length pre)),
                String.length source
                + (16 + (String.length key + (8 + String.length pre)))));
           (1, (8 + String.length pre, String.length key + (8 + String.length pre)))]).
Proof.
  intros Hk Hs. unfold regexp.match_at. rewrite drop_app.
  apply (match_declaration key source tail (String.length pre) Hk Hs).
Qed.

(** The submatches of a declaration found in a text. *)
Lemma submatches_declaration pre key source tail :
  regexp.submatches 2 (pre +:+ declaration key source +:+ String LF tail)
    (String.length pre)
    (S (String.length source + (16 + (String.length key + (8 + String.length pre)))))
    [(2, (16 + (String.length key + (8 + String.length pre)),
          String.length source + (16 + (String.length key + (8 + String.length pre)))));
     (1, (8 + String.length pre, String.length key + (8 + String.length pre)))]
  = declared (key, source).
Proof.
  unfold regexp.submatches, declared. cbn [seq map regexp.cap_lookup List.find fst snd
                                            Nat.eqb fmap option_fmap option_map].
  f_equal; [|f_equal; [|f_equal]].
  - apply substr_middle; [reflexivity|]. rewrite length_declaration. lia.
  - unfold declaration.
    replace (pre +:+ ("module " +:+ dq +:+ key +:+ dq +:+ " {" +:+ nl +:+ "  source = "
                      +:+ dq +:+ source +:+ dq) +:+ String LF tail)
      with ((pre +:+ "module " +:+ dq) +:+ key
            +:+ (dq +:+ " {" +:+ nl +:+ "  source = " +:+ dq +:+ source +:+ dq
                 +:+ String LF tail))
      by (rewrite !append_assoc; reflexivity).
    apply substr_middle; rewrite !length_append; simpl; lia.
  - unfold declaration.
    replace (pre +:+ ("module " +:+ dq +:+ key +:+ dq +:+ " {" +:+ nl +:+ "  source = "
                      +:+ dq +:+ source +:+ dq) +:+ String LF tail)
      with ((pre +:+ "module " +:+ dq +:+ key +:+ dq +:+ " {" +:+ nl +:+ "  source = "
             +:+ dq) +:+ source +:+ (dq +:+ String LF tail))
      by (rewrite !append_assoc; reflexivity).
    apply substr_middle; rewrite !length_append; simpl; lia.
Qed.

Lemma find_all_S re n input p f :
  regexp.find_all re n input p (S f)
  = if (String.length input <? p)%nat then []
    else match regexp.find_from re input p (String.length input - p) with
         | None => []
         | Some (b, e, cs) =>
             regexp.submatches n input b e cs
             :: regexp.find_all re n input (if (e =? b)%nat then S e else e) f
         end.
Proof. reflexivity. Qed.

Lemma find_from_eq re input p fuel :
  regexp.find_from re input p fuel
  = match regexp.match_at re input p with
    | Some (e, cs) => Some (p, e, cs)
    | None => match fuel with
              | O => None
              | S fuel' => regexp.find_from re input (S p) fuel'
              end
    end.
Proof. destruct fuel; reflexivity. Qed.

Lemma no_declaration_at input p :
  strings.HasPrefix (strings.drop p input) ("module " +:+ dq) = false ->
  regexp.match_at module_pattern input p = None.
Proof.
  intros H. unfold regexp.match_at, module_pattern. apply rmatch_lits_mismatch, H.
Qed.

Lemma drop_past s p : String.length s <= p -> strings.drop p s = "".
Proof.
  revert s. induction p as [|p IH]; intros s H.
  - destruct s; [reflexivity|simpl in H; lia].
  - destruct s as [|c s]; [reflexivity|]. simpl in *. apply IH. lia.
Qed.

(** Past the end of the text there is nothing to find. *)
Lemma find_from_end input p fuel :
  String.length input <= p -> regexp.find_from module_pattern input p fuel = None.
Proof.
  revert p. induction fuel as [|fuel IH]; intros p H; rewrite find_from_eq;
    rewrite no_declaration_at by (rewrite drop_past by exact H; reflexivity).
  - reflexivity.
  - apply IH. lia.
Qed.

(** Between two declarations: the end of the line, the closing brace and
    its newline hold no match. *)
Lemma find_from_gap pre more fuel :
  regexp.find_from module_pattern (pre +:+ nl +:+ "}" +:+ nl +:+ more)
                   (String.length pre) (3 + fuel)
  = regexp.find_from module_pattern (pre +:+ nl +:+ "}" +:+ nl +:+ more)
                     (3 + String.length pre) fuel.
Proof.
  set (input := pre +:+ nl +:+ "}" +:+ nl +:+ more).
  assert (H0 : strings.drop (String.length pre) input = nl +:+ "}" +:+ nl +:+ more)
    by apply drop_app.
  assert (H1 : strings.drop (S (String.length pre)) input = "}" +:+ nl +:+ more).
  { replace (S (String.length pre)) with (String.length pre + 1) by lia.
    unfold input. rewrite drop_add. reflexivity. }
  assert (H2 : strings.drop (S (S (String.length pre))) input = nl +:+ more).
  { replace (S (S (String.length pre))) with (String.length pre + 2) by lia.
    unfold input. rewrite drop_add. reflexivity. }
  change (3 + fuel) with (S (S (S fuel))).
  rewrite find_from_eq, no_declaration_at by (rewrite H0; reflexivity).
  rewrite find_from_eq, no_declaration_at by (rewrite H1; reflexivity).
  rewrite find_from_eq, no_declaration_at by (rewrite H2; reflexivity).
  reflexivity.
Qed.

Lemma length_declarations pairs : length pairs <= String.length (declarations pairs).
Proof.
  induction pairs as [|[k s] rest IH]; [simpl; lia|].
  cbn [declarations length]. rewrite !length_append, length_declaration. simpl. lia.
Qed.

Lemma on_one_line_spec k s :
  on_one_line (k, s) = true -> lacks LF k = true /\ lacks LF s = true.
Proof. unfold on_one_line. intros H. apply andb_prop in H. exact H. Qed.

(** The matches in a text that ends in declarations are those
    declarations, in order. *)
Lemma find_all_declarations pairs pre f :
  Forall (fun pair => on_one_line pair = true) pairs ->
  length pairs < f ->
  regexp.find_all module_pattern 2 (pre +:+ declarations pairs) (String.length pre) f
  = map declared pairs.
Proof.
  intros Hall. revert pre f. induction Hall as [|[k s] rest Hks Hrest IH]; intros pre f Hf.
  - destruct f as [|f]; [simpl in Hf; lia|].
    rewrite find_all_S. cbn [declarations]. rewrite append_nil_r.
    destruct (Nat.ltb_spec (String.length pre) (String.length pre)) as [Hlt|_]; [lia|].
    rewrite find_from_end by lia. reflexivity.
  - apply on_one_line_spec in Hks as [Hk Hs].
    destruct f as [|f]; [simpl in Hf; lia|].
    destruct f as [|f]; [simpl in Hf; lia|].
    cbn [declarations map].
    set (text := pre +:+ declaration k s +:+ nl +:+ "}" +:+ nl +:+ declarations rest).
    assert (Etext : text = pre +:+ declaration k s
                           +:+ String LF ("}" +:+ nl +:+ declarations rest))
      by reflexivity.
    rewrite find_all_S.
    assert (Hlen : String.length text
                   = String.length pre + String.length (declaration k s) + 3
                     + String.length (declarations rest)).
    { unfold text. rewrite !length_append. simpl. lia. }
    destruct (Nat.ltb_spec (String.length text) (String.length pre)) as [Hlt|_]; [lia|].
    rewrite find_from_eq. rewrite Etext at 1.
    rewrite (match_at_declaration pre k s _ Hk Hs).
    rewrite Etext at 1. rewrite submatches_declaration.
    f_equal.
    set (e := S (String.length s + (16 + (String.length k + (8 + String.length pre))))).
    assert (He : e = String.length (pre +:+ declaration k s)).
    { unfold e. rewrite length_append, length_declaration. lia. }
    destruct (Nat.eqb_spec e (String.length pre)) as [Heq|_];
      [rewrite He, length_append, length_declaration in Heq; lia|].
    (* across the gap *)
    assert (Etext' : text = (pre +:+ declaration k s) +:+ nl +:+ "}" +:+ nl
                            +:+ declarations rest)
      by (unfold text; rewrite !append_assoc; reflexivity).
    assert (Etext'' : text = (pre +:+ declaration k s +:+ nl +:+ "}" +:+ nl)
                             +:+ declarations rest)
      by (unfold text; rewrite !append_assoc; reflexivity).
    specialize (IH (pre +:+ declaration k s +:+ nl +:+ "}" +:+ nl) (S f)).
    rewrite <- Etext'' in IH.
    assert (Hpos : String.length (pre +:+ declaration k s +:+ nl +:+ "}" +:+ nl) = 3 + e).
    { rewrite He, !length_append. simpl. lia. }
    rewrite Hpos in IH. rewrite <- IH by (simpl in Hf; lia).
    rewrite !find_all_S.
    destruct (Nat.ltb_spec (String.length text) e) as [Hlt|_];
      [rewrite He, length_append in Hlt; lia|].
    destruct (Nat.ltb_spec (String.length text) (3 + e)) as [Hlt|_];
      [rewrite He, length_append in Hlt; lia|].
    replace (String.length text - e) with (3 + (String.length text - (3 + e)))
      by (rewrite He, length_append; lia).
    rewrite He at 1. rewrite Etext' at 1. rewrite find_from_gap.
    rewrite <- Etext', <- He. reflexivity.
Qed.

(** X17.  A file of module declarations is read back whole: the matches
    of the pattern are the declarations, in order, each with its name and
    its address as written, and [readModules] builds its descriptors from
    exactly those. *)
Theorem readModules_reads_declarations path pairs :
  pairs <> [] ->
  Forall (fun pair => on_one_line pair = true) pairs ->
  regexp.FindAllStringSubmatch module_pattern 2 (declarations pairs) = map declared pairs
  /\ readModules_content path (declarations pairs)
     = modules_of_matches (map declared pairs).
Proof.
  intros Hne Hall.
  assert (E : regexp.FindAllStringSubmatch module_pattern 2 (declarations pairs)
              = map declared pairs).
  { unfold regexp.FindAllStringSubmatch.
    apply (find_all_declarations pairs "" _ Hall).
    pose proof (length_declarations pairs). lia. }
  split; [exact E|].
  unfold readModules_content. rewrite E.
  destruct pairs; [contradiction|reflexivity].
Qed.

Lemma readModules_reads_declarations_witness :
  readModules_content "/tmp/acct-1/main.tf"
    (declarations [("net", "https://example.com/org/net.git?ref=v1");
                   ("db", "https://example.com/org/db.git//modules/pg?ref=v2")])
  = Ok [ {| Key := "net"; Source := "https://example.com/org/net.git?ref=v1";
            Dir := ".terraform/modules/net"; RootDir := ".terraform/modules/net" |};
         {| Key := "db"; Source := "https://example.com/org/db.git//modules/pg?ref=v2";
            Dir := ".terraform/modules/db/modules/pg";
            RootDir := ".terraform/modules/db" |} ].
Proof.
  destruct (readModules_reads_declarations "/tmp/acct-1/main.tf"
              [("net", "https://example.com/org/net.git?ref=v1");
               ("db", "https://example.com/org/db.git//modules/pg?ref=v2")])
    as [_ H]; [discriminate|repeat constructor|].
  rewrite H. vm_compute. reflexivity.
Defined.

(* ================================================================== *)
(** * Address normalization, for every address                        *)
(* ================================================================== *)

(** ** Reading back what [escape] wrote *)




Lemma unescape_percent mode : url.unescape "%" mode = None.
Proof. reflexivity. Qed.

Lemma unescape_percent1 x mode : url.unescape (String "%" (String x "")) mode = None.
Proof. reflexivity. Qed.









(** ** Positions in a string *)









Lemma length_take k s : k <= String.length s -> String.length (strings.take k s) = k.
Proof.
  revert k. induction s as [|c s IH]; intros k H; destruct k; simpl in *; try lia.
  rewrite IH by lia. reflexivity.
Qed.


(** ** What [unescape] accepts *)









Lemma host_legal_plus : host_legal "+" = true.
Proof. reflexivity. Qed.






(** ** What [escape] writes *)







(** ** The host, printed and read again *)




















(** ** The user, printed and read again *)








(** ** The path and the fragment, printed and read again *)








(** ** What [URL.String] writes for a normalized URL *)

Lemma nonempty_append_l s t : nonempty s = true -> nonempty (s +:+ t) = true.
Proof. destruct s; [discriminate|reflexivity]. Qed.


(** ** Parsing what [URL.String] wrote *)









(** ** The path of a repository *)

Lemma repository_path_no_git path :
  strings.Index (repository_path path) ".git" = (-1)%Z.
Proof.
  unfold repository_path, strings.Index.
  destruct (strings.index_from 0 path ".git") as [k|] eqn:E.
  - destruct (Z.ltb_spec (-1) (Z.of_nat k)) as [_|Hlt]; [|lia].
    unfold slice_to. rewrite Nat2Z.id.
    rewrite (index_from_take 0 path ".git" k); [reflexivity|discriminate|exact E].
  - simpl. rewrite E. reflexivity.
Qed.

Lemma repository_path_fixed path :
  repository_path (repository_path path) = repository_path path.
Proof. unfold repository_path at 1. rewrite repository_path_no_git. reflexivity. Qed.



(** ** What [url.Parse] has made sure of *)


















(** ** Idempotence *)





(** An address without a scheme that starts with a slash. *)
Example normalization_of_rooted_address :
  normalizedSource "/org/repo.git//modules/x?ref=v1" = Ok ("https:///org/repo", "v1")
  /\ normalizedSource "https:///org/repo" = Ok ("https:///org/repo", "").
Proof. vm_compute. auto. Qed.

